(** * todototum: the scanning engine, its ignore rules and its matcher

    A shallow embedding of [internal/todo] (scan.go, gitignore.go, files.go)
    together with the parts of the Go standard library the package calls
    ([unicode/utf8], [strings], [path], [path/filepath], [bufio], [regexp]),
    followed by the properties of the scanner proved over that embedding.

    Go strings are byte sequences: they are modelled as [string], one
    [ascii] per byte.  Runes are [Z]. *)

From Stdlib Require Import String Ascii List ZArith NArith Lia Bool Permutation.
From stdpp Require Import gmap strings.
Import ListNotations.

Local Open Scope string_scope.
Local Open Scope list_scope.

(* ====================================================================== *)
(** * Bytes and slices *)
(* ====================================================================== *)

Definition byte_of (c : ascii) : Z := Z.of_N (N_of_ascii c).

(** [s[n:]] *)
Fixpoint sdrop (n : nat) (s : string) : string :=
  match n, s with
  | O, _ => s
  | S n', String _ t => sdrop n' t
  | S _, EmptyString => EmptyString
  end.

(** [s[:n]] *)
Fixpoint stake (n : nat) (s : string) : string :=
  match n, s with
  | O, _ => EmptyString
  | S n', String c t => String c (stake n' t)
  | S _, EmptyString => EmptyString
  end.

Fixpoint srev_onto (acc s : string) : string :=
  match s with
  | EmptyString => acc
  | String c t => srev_onto (String c acc) t
  end.

Definition srev (s : string) : string := srev_onto EmptyString s.

(** [s[i]] read as a byte, when [i] is in range *)
Definition sbyte (i : nat) (s : string) : option Z :=
  match sdrop i s with
  | String c _ => Some (byte_of c)
  | EmptyString => None
  end.

(* ====================================================================== *)
(** * unicode/utf8 *)
(* ====================================================================== *)

Module utf8.

Definition RuneError : Z := 0xFFFD.
Definition RuneSelf : Z := 0x80.

Definition maskx : Z := 0x3F.
Definition mask2 : Z := 0x1F.
Definition mask3 : Z := 0x0F.
Definition mask4 : Z := 0x07.
Definition locb : Z := 0x80.
Definition hicb : Z := 0xBF.

(** The [first] table with its [acceptRanges]: what a leading byte
    announces. [AS] is ASCII, [XX] an invalid leading byte, [Lead sz lo hi]
    a sequence of [sz] bytes whose second byte lies in [lo..hi]. *)
Inductive firstInfo : Type :=
| AS
| XX
| Lead (sz : nat) (lo hi : Z).

Definition first (b : Z) : firstInfo :=
  if (b <? 0x80)%Z then AS
  else if (b <? 0xC2)%Z then XX
  else if (b <? 0xE0)%Z then Lead 2 locb hicb
  else if (b =? 0xE0)%Z then Lead 3 0xA0%Z hicb
  else if (b <? 0xED)%Z then Lead 3 locb hicb
  else if (b =? 0xED)%Z then Lead 3 locb 0x9F%Z
  else if (b <? 0xF0)%Z then Lead 3 locb hicb
  else if (b =? 0xF0)%Z then Lead 4 0x90%Z hicb
  else if (b <? 0xF4)%Z then Lead 4 locb hicb
  else if (b =? 0xF4)%Z then Lead 4 locb 0x8F%Z
  else XX.

Definition outside (lo hi b : Z) : bool := ((b <? lo) || (hi <? b))%Z.

(** [utf8.DecodeRuneInString]: the rune at the head of [s] and its width.
    A short or ill-formed sequence decodes as [(RuneError, 1)]. *)
Definition DecodeRuneInString (s : string) : Z * nat :=
  match s with
  | EmptyString => (RuneError, 0)
  | String c0 t0 =>
    let s0 := byte_of c0 in
    match first s0 with
    | AS => (s0, 1)
    | XX => (RuneError, 1)
    | Lead sz lo hi =>
      match t0 with
      | EmptyString => (RuneError, 1)
      | String c1 t1 =>
        let s1 := byte_of c1 in
        if outside lo hi s1 then (RuneError, 1)
        else if Nat.leb sz 2 then
          (Z.lor (Z.shiftl (Z.land s0 mask2) 6) (Z.land s1 maskx), 2)
        else
          match t1 with
          | EmptyString => (RuneError, 1)
          | String c2 t2 =>
            let s2 := byte_of c2 in
            if outside locb hicb s2 then (RuneError, 1)
            else if Nat.leb sz 3 then
              (Z.lor (Z.lor (Z.shiftl (Z.land s0 mask3) 12)
                            (Z.shiftl (Z.land s1 maskx) 6))
                     (Z.land s2 maskx), 3)
            else
              match t2 with
              | EmptyString => (RuneError, 1)
              | String c3 _ =>
                let s3 := byte_of c3 in
                if outside locb hicb s3 then (RuneError, 1)
                else
                  (Z.lor (Z.lor (Z.lor (Z.shiftl (Z.land s0 mask4) 18)
                                       (Z.shiftl (Z.land s1 maskx) 12))
                                (Z.shiftl (Z.land s2 maskx) 6))
                         (Z.land s3 maskx), 4)
              end
          end
      end
    end
  end.

Definition byteChar (b : Z) : ascii := ascii_of_N (Z.to_N b).

(** [utf8.AppendRune] onto the empty string: the encoding of a rune. *)
Definition EncodeRune (r : Z) : string :=
  let cont (x : Z) := byteChar (Z.lor 0x80 (Z.land x maskx)) in
  if ((0 <=? r) && (r <=? 0x7F))%Z then String (byteChar r) ""
  else if ((0 <=? r) && (r <=? 0x7FF))%Z then
    String (byteChar (Z.lor 0xC0 (Z.shiftr r 6))) (String (cont r) "")
  else if (((0 <=? r) && (r <? 0xD800)) || ((0xDFFF <? r) && (r <=? 0xFFFF)))%Z then
    String (byteChar (Z.lor 0xE0 (Z.shiftr r 12)))
      (String (cont (Z.shiftr r 6)) (String (cont r) ""))
  else if ((0xFFFF <? r) && (r <=? 0x10FFFF))%Z then
    String (byteChar (Z.lor 0xF0 (Z.shiftr r 18)))
      (String (cont (Z.shiftr r 12))
         (String (cont (Z.shiftr r 6)) (String (cont r) "")))
  else String (byteChar 0xEF) (String (byteChar 0xBF) (String (byteChar 0xBD) "")).

(** [utf8.RuneStart]: not a continuation byte. *)
Definition RuneStart (b : Z) : bool := negb (Z.land b 0xC0 =? 0x80)%Z.

(** The backward search of [DecodeLastRuneInString] for the start of the
    last rune. [r] is the string before the last byte, reversed; [k] is the
    number of positions the loop may still visit ([start >= lim]); [taken]
    counts the bytes of [s[start:end]] so far. When the loop runs out
    without a break, [start] is [lim-1], clipped at 0. *)
Fixpoint backToStart (k : nat) (r : string) (taken : nat) : nat :=
  match r with
  | EmptyString => taken
  | String c r' =>
    match k with
    | O => S taken
    | S k' =>
      if RuneStart (byte_of c) then S taken
      else backToStart k' r' (S taken)
    end
  end.

(** [utf8.DecodeLastRuneInString], given the string reversed. *)
Definition DecodeLastRune_rev (r : string) : Z * nat :=
  match r with
  | EmptyString => (RuneError, 0)
  | String c r' =>
    if (byte_of c <? RuneSelf)%Z then (byte_of c, 1)
    else
      let w := backToStart 3 r' 1 in
      let '(rn, size) := DecodeRuneInString (srev (stake w r)) in
      if Nat.eqb size w then (rn, size) else (RuneError, 1)
  end.

Definition DecodeLastRuneInString (s : string) : Z * nat :=
  DecodeLastRune_rev (srev s).

End utf8.

(* ====================================================================== *)
(** * unicode and strings *)
(* ====================================================================== *)

Module unicode.

(** [unicode.IsSpace]: the Latin-1 switch, then the White_Space table. *)
Definition IsSpace (r : Z) : bool :=
  if (r <=? 0xFF)%Z then
    ((r =? 0x09) || (r =? 0x0A) || (r =? 0x0B) || (r =? 0x0C) || (r =? 0x0D)
     || (r =? 0x20) || (r =? 0x85) || (r =? 0xA0))%Z
  else
    ((r =? 0x1680) || ((0x2000 <=? r) && (r <=? 0x200A))
     || (r =? 0x2028) || (r =? 0x2029) || (r =? 0x202F) || (r =? 0x205F)
     || (r =? 0x3000))%Z.

End unicode.

Module strings.

(** [for i, r := range s { if f(r) == truth { return i } }; return -1].
    [skip] counts the bytes of the current rune still to step over, [i] is
    the index of the head of [s] in the whole string. *)
Fixpoint indexFunc_from (f : Z -> bool) (truth : bool)
         (skip i : nat) (s : string) : option nat :=
  match s with
  | EmptyString => None
  | String _ t =>
    match skip with
    | S k => indexFunc_from f truth k (S i) t
    | O =>
      let '(r, w) := utf8.DecodeRuneInString s in
      if Bool.eqb (f r) truth then Some i
      else indexFunc_from f truth (w - 1) (S i) t
    end
  end.

Definition indexFunc (s : string) (f : Z -> bool) (truth : bool) : option nat :=
  indexFunc_from f truth 0 0 s.

(** [lastIndexFunc], over the reversed string: [r] is [s[0:i]] reversed. *)
Fixpoint lastIndexFunc_rev (f : Z -> bool) (truth : bool)
         (skip : nat) (r : string) : option nat :=
  match r with
  | EmptyString => None
  | String _ t =>
    match skip with
    | S k => lastIndexFunc_rev f truth k t
    | O =>
      let '(rn, size) := utf8.DecodeLastRune_rev r in
      if Bool.eqb (f rn) truth then Some (String.length r - size)
      else lastIndexFunc_rev f truth (size - 1) t
    end
  end.

Definition lastIndexFunc (s : string) (f : Z -> bool) (truth : bool) : option nat :=
  lastIndexFunc_rev f truth 0 (srev s).

Definition TrimLeftFunc (s : string) (f : Z -> bool) : string :=
  match indexFunc s f false with
  | None => ""
  | Some i => sdrop i s
  end.

Definition TrimRightFunc (s : string) (f : Z -> bool) : string :=
  match lastIndexFunc s f false with
  | Some i =>
    match sbyte i s with
    | Some b =>
      if (utf8.RuneSelf <=? b)%Z then
        let '(_, wid) := utf8.DecodeRuneInString (sdrop i s) in
        stake (i + wid) s
      else stake (S i) s
    | None => stake (S i) s
    end
  | None => ""
  end.

Definition TrimFunc (s : string) (f : Z -> bool) : string :=
  TrimRightFunc (TrimLeftFunc s f) f.

(** [strings.TrimSpace]. The library first strips ASCII white space byte by
    byte and hands the rest to [TrimFunc] or [TrimRightFunc] at the first
    byte outside ASCII; the value is that of [TrimFunc s unicode.IsSpace]. *)
Definition TrimSpace (s : string) : string := TrimFunc s unicode.IsSpace.

Fixpoint HasPrefix (s prefix : string) : bool :=
  match prefix, s with
  | EmptyString, _ => true
  | String p ps, String c cs => Ascii.eqb p c && HasPrefix cs ps
  | String _ _, EmptyString => false
  end.

Definition HasSuffix (s suffix : string) : bool :=
  HasPrefix (srev s) (srev suffix).

Definition TrimPrefix (s prefix : string) : string :=
  if HasPrefix s prefix then sdrop (String.length prefix) s else s.

Definition TrimSuffix (s suffix : string) : string :=
  if HasSuffix s suffix
  then stake (String.length s - String.length suffix) s
  else s.

(** [strings.Contains] for a one-byte needle. *)
Fixpoint ContainsByte (s : string) (c : ascii) : bool :=
  match s with
  | EmptyString => false
  | String a t => Ascii.eqb a c || ContainsByte t c
  end.

(** [strings.ReplaceAll] for a one-byte [old] and a one-byte [new]. *)
Fixpoint ReplaceAllByte (s : string) (old new : ascii) : string :=
  match s with
  | EmptyString => EmptyString
  | String a t =>
    String (if Ascii.eqb a old then new else a) (ReplaceAllByte t old new)
  end.

Definition upperByte (c : ascii) : ascii :=
  let b := byte_of c in
  if ((0x61 <=? b) && (b <=? 0x7A))%Z
  then ascii_of_N (N_of_ascii c - 32)
  else c.

Definition isASCII (s : string) : bool :=
  forallb (fun c => (byte_of c <? utf8.RuneSelf)%Z) (list_ascii_of_string s).

(** [strings.ToUpper] on its ASCII path: every byte of [a..z] is raised,
    every other byte is kept. The scanner applies it to the first capture
    of [pattern], which holds ASCII letters only. *)
Fixpoint ToUpper (s : string) : string :=
  match s with
  | EmptyString => EmptyString
  | String c t => String (upperByte c) (ToUpper t)
  end.

End strings.

(* ====================================================================== *)
(** * regexp: a backtracking matcher *)
(* ====================================================================== *)

(** Go's [regexp] returns the leftmost match and, among the matches that
    start there, the one a backtracking search finds first.  The matcher
    below is that search, over the operators [pattern] is built from. *)
Module regexp.

Inductive Regexp : Type :=
| Literal (w : string)            (* a literal string *)
| AnyCharNotNL                    (* [.] *)
| WordBoundary                    (* [\b] *)
| Concat (r1 r2 : Regexp)
| Alternate (r1 r2 : Regexp)      (* [r1|r2], [r1] preferred *)
| Quest (r : Regexp)              (* [r?], greedy *)
| Plus (r : Regexp)               (* [r+], greedy *)
| Capture (n : nat) (r : Regexp).

(** A position in the text: its byte offset, the byte before it, the text
    from it on, and the capture offsets recorded so far. *)
Record thread : Type := mkThread {
  pos : nat;
  prev : option ascii;
  rest : string;
  caps : list (nat * (nat * nat))
}.

Fixpoint lastByte (d : option ascii) (s : string) : option ascii :=
  match s with
  | EmptyString => d
  | String c t => lastByte (Some c) t
  end.

(** Step over the next [n] bytes. *)
Definition consume (n : nat) (t : thread) : thread :=
  {| pos := pos t + n;
     prev := lastByte (prev t) (stake n (rest t));
     rest := sdrop n (rest t);
     caps := caps t |}.

Definition setCap (n : nat) (span : nat * nat) (t : thread) : thread :=
  {| pos := pos t; prev := prev t; rest := rest t;
     caps := (n, span) :: caps t |}.

Fixpoint getCap (n : nat) (l : list (nat * (nat * nat))) : option (nat * nat) :=
  match l with
  | [] => None
  | (i, span) :: l' => if Nat.eqb i n then Some span else getCap n l'
  end.

(** [syntax.IsWordChar]: [0-9A-Za-z_]. *)
Definition IsWordChar (b : Z) : bool :=
  (((0x41 <=? b) && (b <=? 0x5A)) || ((0x61 <=? b) && (b <=? 0x7A))
   || ((0x30 <=? b) && (b <=? 0x39)) || (b =? 0x5F))%Z.

(** The rune before a position is a word character exactly when the byte
    before it is one: word characters are ASCII, and a byte of a longer or
    ill-formed sequence is none. Likewise for the rune after it. *)
Definition wordBefore (t : thread) : bool :=
  match prev t with
  | Some c => IsWordChar (byte_of c)
  | None => false
  end.

Definition wordAfter (t : thread) : bool :=
  match rest t with
  | String c _ => IsWordChar (byte_of c)
  | EmptyString => false
  end.

(** One literal byte against one text byte. Under [(?i)] an ASCII letter
    matches the runes of its simple-fold orbit; for every letter other than
    [k] and [s] these are its two ASCII cases. *)
Definition byteEq (fold : bool) (p a : ascii) : bool :=
  if fold then Ascii.eqb (strings.upperByte p) (strings.upperByte a)
  else Ascii.eqb p a.

Fixpoint litPrefix (fold : bool) (w s : string) : bool :=
  match w, s with
  | EmptyString, _ => true
  | String p w', String a s' => byteEq fold p a && litPrefix fold w' s'
  | String _ _, EmptyString => false
  end.

(** The rounds of [r+], greedy: after a round of [step], one more round is
    tried first, then the continuation. A round that consumes input can
    start at most [n] times after the first, for [n] the length of the text
    ahead. *)
Fixpoint rounds (step : thread -> (thread -> option thread) -> option thread)
         (k : thread -> option thread) (n : nat) (t0 : thread) : option thread :=
  step t0 (fun t1 =>
    match n with
    | O => k t1
    | S n' =>
      match rounds step k n' t1 with
      | Some x => Some x
      | None => k t1
      end
    end).

(** The search with backtracking, in continuation-passing style: [k] is what
    remains to be matched after [re]. *)
Fixpoint m (fold : bool) (re : Regexp) (t : thread)
         (k : thread -> option thread) {struct re} : option thread :=
  match re with
  | Literal w =>
    if litPrefix fold w (rest t) then k (consume (String.length w) t)
    else None
  | AnyCharNotNL =>
    match utf8.DecodeRuneInString (rest t) with
    | (_, O) => None
    | (r, S w) => if (r =? 0x0A)%Z then None else k (consume (S w) t)
    end
  | WordBoundary =>
    if xorb (wordBefore t) (wordAfter t) then k t else None
  | Concat r1 r2 => m fold r1 t (fun t' => m fold r2 t' k)
  | Alternate r1 r2 =>
    match m fold r1 t k with
    | Some x => Some x
    | None => m fold r2 t k
    end
  | Quest r1 =>
    match m fold r1 t k with
    | Some x => Some x
    | None => k t
    end
  | Plus r1 => rounds (m fold r1) k (String.length (rest t)) t
  | Capture n r1 =>
    m fold r1 t (fun t' => k (setCap n (pos t, pos t') t'))
  end.

(** The unanchored search: try the expression at the current position,
    else step to the next rune. [skip] counts the bytes of the current
    rune still to step over. *)
Fixpoint search (fold : bool) (re : Regexp) (skip : nat)
         (p : nat) (pv : option ascii) (s : string) : option thread :=
  match skip with
  | S skip' =>
    match s with
    | String c s' => search fold re skip' (S p) (Some c) s'
    | EmptyString => None
    end
  | O =>
    let t := {| pos := p; prev := pv; rest := s; caps := [] |} in
    match m fold re t (fun t' => Some (setCap 0 (p, pos t') t')) with
    | Some x => Some x
    | None =>
      match s with
      | String c s' =>
        search fold re (snd (utf8.DecodeRuneInString s) - 1) (S p) (Some c) s'
      | EmptyString => None
      end
    end
  end.

Definition submatch (s : string) (l : list (nat * (nat * nat))) (n : nat) : string :=
  match getCap n l with
  | Some (a, b) => stake (b - a) (sdrop a s)
  | None => ""
  end.

(** [Regexp.FindStringSubmatch] for an expression with [nsub] groups:
    [None] is the nil slice; a group that took no part is [""]. *)
Definition FindStringSubmatch (fold : bool) (re : Regexp) (nsub : nat)
           (s : string) : option (list string) :=
  match search fold re 0 0 None s with
  | Some t => Some (map (submatch s (caps t)) (seq 0 (S nsub)))
  | None => None
  end.

Definition MatchString (fold : bool) (re : Regexp) (s : string) : bool :=
  match search fold re 0 0 None s with
  | Some _ => true
  | None => false
  end.

End regexp.

(* ====================================================================== *)
(** * scan.go: the matcher *)
(* ====================================================================== *)

(** [Todo] *)
Record Todo : Type := mkTodo {
  File : string;
  Line : nat;
  Tag : string;
  Text : string
}.

(** The alternation [TODO|FIXME|BUG|NOTE] of [pattern]. *)
Definition re_keywords : regexp.Regexp :=
  regexp.Alternate (regexp.Literal "TODO")
  (regexp.Alternate (regexp.Literal "FIXME")
  (regexp.Alternate (regexp.Literal "BUG")
                    (regexp.Literal "NOTE"))).

(** The tail [:?(.+)?] of [pattern]. *)
Definition re_text : regexp.Regexp :=
  regexp.Concat (regexp.Quest (regexp.Literal ":"))
                (regexp.Quest (regexp.Capture 2 (regexp.Plus regexp.AnyCharNotNL))).

(** [var pattern = regexp.MustCompile(`(?i)\b(TODO|FIXME|BUG|NOTE)\b:?(.+)?`)];
    the flag [(?i)] is the argument [fold] of the matcher. *)
Definition pattern : regexp.Regexp :=
  regexp.Concat regexp.WordBoundary
    (regexp.Concat (regexp.Capture 1 re_keywords)
       (regexp.Concat regexp.WordBoundary re_text)).

Definition pattern_FindStringSubmatch (line : string) : option (list string) :=
  regexp.FindStringSubmatch true pattern 2 line.

(** The body of the loop of [scanFileWithReader] for one line: the record
    appended for it, if any. *)
Definition matchLine (path : string) (lineNum : nat) (line : string) : option Todo :=
  match pattern_FindStringSubmatch line with
  | Some mm =>
    Some {| File := path;
            Line := lineNum;
            Tag := strings.ToUpper (nth 1 mm "");
            Text := strings.TrimSpace (nth 2 mm "") |}
  | None => None
  end.

(* ====================================================================== *)
(** * path: Match and Base *)
(* ====================================================================== *)

(** What a loop of the library yields: a value, the error [ErrBadPattern],
    or [OutOfFuel] when the bound on its iterations is used up (the bounds
    chosen below are never used up, see [Match_returns]). *)
Inductive outcome (A : Type) : Type :=
| Done (a : A)
| ErrBadPattern
| OutOfFuel.

Arguments Done {A} a.
Arguments ErrBadPattern {A}.
Arguments OutOfFuel {A}.

Module path.

Definition isEmpty (s : string) : bool :=
  match s with EmptyString => true | String _ _ => false end.

Definition headIs (c : ascii) (s : string) : bool :=
  match s with String a _ => Ascii.eqb a c | EmptyString => false end.

Fixpoint dropStars (p : string) : bool * string :=
  match p with
  | String c t =>
    if Ascii.eqb c "*" then (true, snd (dropStars t)) else (false, p)
  | EmptyString => (false, p)
  end.

(** The [Scan] loop of [scanChunk]: the index at which the chunk ends. *)
Fixpoint scanEnd (inrange : bool) (p : string) : nat :=
  match p with
  | EmptyString => 0
  | String c t =>
    if Ascii.eqb c "\" then
      match t with
      | EmptyString => 1
      | String _ t' => 2 + scanEnd inrange t'
      end
    else if Ascii.eqb c "[" then S (scanEnd true t)
    else if Ascii.eqb c "]" then S (scanEnd false t)
    else if Ascii.eqb c "*" then
      if inrange then S (scanEnd inrange t) else 0
    else S (scanEnd inrange t)
  end.

(** [scanChunk]: the leading stars, the chunk up to the next star outside
    brackets, and the rest of the pattern. *)
Definition scanChunk (pattern : string) : bool * string * string :=
  let '(star, p) := dropStars pattern in
  let i := scanEnd false p in
  (star, stake i p, sdrop i p).

(** [getEsc]: a possibly escaped character of a character class, and the
    chunk after it ([None] is [ErrBadPattern]). *)
Definition getEsc (chunk : string) : option (Z * string) :=
  match chunk with
  | EmptyString => None
  | String c t =>
    if Ascii.eqb c "-" || Ascii.eqb c "]" then None
    else
      let chunk1 := if Ascii.eqb c "\" then t else chunk in
      if isEmpty chunk1 then None
      else
        let '(r, n) := utf8.DecodeRuneInString chunk1 in
        if (r =? utf8.RuneError)%Z && Nat.eqb n 1 then None
        else
          let nchunk := sdrop n chunk1 in
          if isEmpty nchunk then None else Some (r, nchunk)
  end.

(** The loop of [matchChunk] that parses the ranges of a character class
    up to its closing bracket: whether [r] fell in a range, and the chunk
    after the bracket. *)
Fixpoint classRanges (fuel : nat) (chunk : string) (r : Z)
         (found : bool) (nrange : nat) : outcome (bool * string) :=
  match fuel with
  | O => OutOfFuel
  | S fuel' =>
    if headIs "]" chunk && negb (Nat.eqb nrange 0)
    then Done (found, sdrop 1 chunk)
    else
      match getEsc chunk with
      | None => ErrBadPattern
      | Some (lo, chunk1) =>
        match (if headIs "-" chunk1 then getEsc (sdrop 1 chunk1)
               else Some (lo, chunk1)) with
        | None => ErrBadPattern
        | Some (hi, chunk2) =>
          classRanges fuel' chunk2 r
                      (found || ((lo <=? r) && (r <=? hi))%Z) (S nrange)
        end
      end
  end.

(** The loop of [matchChunk]. Once [failed] is set the loop goes on through
    the chunk, checking that it is well formed, and no longer reads [s]. *)
Fixpoint matchChunk_loop (fuel : nat) (chunk s : string) (failed : bool)
  : outcome (string * bool) :=
  match fuel with
  | O => OutOfFuel
  | S fuel' =>
    match chunk with
    | EmptyString => Done (s, failed)
    | String c ct =>
      let failed := failed || isEmpty s in
      if Ascii.eqb c "[" then
        let '(r, s1) :=
          if failed then (0%Z, s)
          else let '(r, n) := utf8.DecodeRuneInString s in (r, sdrop n s) in
        let negated := headIs "^" ct in
        let chunk1 := if negated then sdrop 1 ct else ct in
        match classRanges fuel' chunk1 r false 0 with
        | Done (found, chunk2) =>
          matchChunk_loop fuel' chunk2 s1 (failed || Bool.eqb found negated)
        | ErrBadPattern => ErrBadPattern
        | OutOfFuel => OutOfFuel
        end
      else if Ascii.eqb c "?" then
        if failed then matchChunk_loop fuel' ct s failed
        else
          matchChunk_loop fuel' ct
            (sdrop (snd (utf8.DecodeRuneInString s)) s) (headIs "/" s)
      else
        (* a backslash escapes the next byte, then the default case *)
        let lit := if Ascii.eqb c "\" then ct else chunk in
        match lit with
        | EmptyString => ErrBadPattern
        | String l lt =>
          if failed then matchChunk_loop fuel' lt s failed
          else matchChunk_loop fuel' lt (sdrop 1 s) (negb (headIs l s))
        end
    end
  end.

Inductive chunkResult : Type :=
| ChunkOk (rest : string)     (* [(rest, true, nil)] *)
| ChunkNo                     (* [("", false, nil)] *)
| ChunkBad                    (* [("", false, ErrBadPattern)] *)
| ChunkFuel.

Definition matchChunk (chunk s : string) : chunkResult :=
  match matchChunk_loop (S (String.length chunk)) chunk s false with
  | Done (t, failed) => if failed then ChunkNo else ChunkOk t
  | ErrBadPattern => ChunkBad
  | OutOfFuel => ChunkFuel
  end.

(** The loop of [Match] under a star: look for a match of the chunk after
    skipping [i+1] bytes, never past a slash. [last] says the chunk is the
    last one, which must then exhaust the name. *)
Fixpoint starLoop (chunk : string) (last : bool) (name : string)
  : outcome (option string) :=
  match name with
  | EmptyString => Done None
  | String c name' =>
    if Ascii.eqb c "/" then Done None
    else
      match matchChunk chunk name' with
      | ChunkOk t =>
        if last && negb (isEmpty t) then starLoop chunk last name'
        else Done (Some t)
      | ChunkNo => starLoop chunk last name'
      | ChunkBad => ErrBadPattern
      | ChunkFuel => OutOfFuel
      end
  end.

(** The closing loop of [Match]: before [false] is returned without an
    error, the remainder of the pattern is checked to be well formed. *)
Fixpoint checkRest (fuel : nat) (pattern : string) : outcome bool :=
  match fuel with
  | O => OutOfFuel
  | S fuel' =>
    if isEmpty pattern then Done false
    else
      let '(_, chunk, rest) := scanChunk pattern in
      match matchChunk chunk "" with
      | ChunkBad => ErrBadPattern
      | ChunkFuel => OutOfFuel
      | _ => checkRest fuel' rest
      end
  end.

Fixpoint Match_loop (fuel : nat) (pattern name : string) : outcome bool :=
  match fuel with
  | O => OutOfFuel
  | S fuel' =>
    if isEmpty pattern then Done (isEmpty name)
    else
      let '(star, chunk, rest) := scanChunk pattern in
      if star && isEmpty chunk then
        (* a trailing star matches the rest unless it has a slash *)
        Done (negb (strings.ContainsByte name "/"))
      else
        let after :=
          if star then
            match starLoop chunk (isEmpty rest) name with
            | Done (Some t) => Match_loop fuel' rest t
            | Done None => checkRest fuel' rest
            | ErrBadPattern => ErrBadPattern
            | OutOfFuel => OutOfFuel
            end
          else checkRest fuel' rest in
        match matchChunk chunk name with
        | ChunkOk t =>
          if isEmpty t || negb (isEmpty rest) then Match_loop fuel' rest t
          else after
        | ChunkNo => after
        | ChunkBad => ErrBadPattern
        | ChunkFuel => OutOfFuel
        end
  end.

(** [path.Match] *)
Definition Match (pattern name : string) : outcome bool :=
  Match_loop (S (String.length pattern)) pattern name.

Fixpoint stripTrailingSlashes_rev (r : string) : string :=
  match r with
  | String c t => if Ascii.eqb c "/" then stripTrailingSlashes_rev t else r
  | EmptyString => r
  end.

(** The part of [s] after its last slash, [s] has none: [acc] collects the
    bytes since the last slash seen. *)
Fixpoint afterLastSlash (acc : string) (s : string) : string :=
  match s with
  | EmptyString => srev acc
  | String c t =>
    if Ascii.eqb c "/" then afterLastSlash "" t
    else afterLastSlash (String c acc) t
  end.

(** [path.Base] *)
Definition Base (p : string) : string :=
  if isEmpty p then "."
  else
    let p1 := srev (stripTrailingSlashes_rev (srev p)) in
    let p2 := afterLastSlash "" p1 in
    if isEmpty p2 then "/" else p2.

End path.

(* ====================================================================== *)
(** * errors, bufio *)
(* ====================================================================== *)

(** The error values that occur; [None : option error] is [nil]. *)
Inductive error : Type :=
| ErrNotExist
| ErrPermission
| ErrIO
| ErrIsDir
| ErrTooLong          (* [bufio.ErrTooLong] *)
| SkipDir             (* [filepath.SkipDir] *)
| SkipAll.            (* [filepath.SkipAll] *)

Definition error_eqb (a b : error) : bool :=
  match a, b with
  | ErrNotExist, ErrNotExist | ErrPermission, ErrPermission | ErrIO, ErrIO
  | ErrIsDir, ErrIsDir | ErrTooLong, ErrTooLong | SkipDir, SkipDir
  | SkipAll, SkipAll => true
  | _, _ => false
  end.

(** What an opened [io.ReadCloser] delivers: its bytes, then end of file or
    the error [fails]. *)
Record stream : Type := mkStream {
  data : string;
  fails : option error
}.

Module bufio.

(** [bufio.MaxScanTokenSize] *)
Definition MaxScanTokenSize : nat := 64 * 1024.

(** [dropCR] *)
Definition dropCR (line : string) : string :=
  match srev line with
  | String c r => if Ascii.eqb c "013" then srev r else line
  | EmptyString => line
  end.

(** A [Scanner] with the [ScanLines] split function and its default buffer,
    run to the end: the tokens [Scan] yields one by one, and [Err()].
    [cur] is the line read so far, reversed, and [room] the number of bytes
    the buffer can still take: it holds [MaxScanTokenSize] bytes, and when
    it is full and holds no newline [Scan] stops with [ErrTooLong]. When the
    reader ends, with end of file or with an error, the bytes left are the
    last token. *)
Fixpoint scanAll (cur : string) (room : nat) (s : string) (fails : option error)
  : list string * option error :=
  match s with
  | EmptyString =>
    (if path.isEmpty cur then [] else [dropCR (srev cur)], fails)
  | String c t =>
    if Ascii.eqb c "010" then
      let '(ls, e) := scanAll "" MaxScanTokenSize t fails in
      (dropCR (srev cur) :: ls, e)
    else
      match room with
      | S (S room') => scanAll (String c cur) (S room') t fails
      | _ => ([], Some ErrTooLong)
      end
  end.

Definition ScanLines (r : stream) : list string * option error :=
  scanAll "" MaxScanTokenSize (data r) (fails r).

End bufio.

(* ====================================================================== *)
(** * gitignore.go: rules and matching *)
(* ====================================================================== *)

(** [os.PathSeparator] on the systems the tool is released for. *)
Definition PathSeparator : ascii := "/".

Module gitIgnoreRule.
(** [gitIgnoreRule] *)
Record t : Type := mk {
  pattern : string;
  negative : bool;
  anchored : bool;
  dirOnly : bool;
  hasSlash : bool
}.
End gitIgnoreRule.

(** The body of the loop of [loadGitIgnore] for one line: the rule appended
    for it, or [None] where the loop says [continue]. *)
Definition parseRule (line0 : string) : option gitIgnoreRule.t :=
  let line := strings.TrimSpace line0 in
  if path.isEmpty line || strings.HasPrefix line "#" then None
  else
    let neg := strings.HasPrefix line "!" in
    let line := if neg then strings.TrimSpace (sdrop 1 line) else line in
    if neg && path.isEmpty line then None
    else
      let dirOnly := strings.HasSuffix line "/" in
      let line := if dirOnly then strings.TrimSuffix line "/" else line in
      let anchored := strings.HasPrefix line "/" in
      let line := if anchored then strings.TrimPrefix line "/" else line in
      if path.isEmpty line then None
      else
        Some {| gitIgnoreRule.pattern := line;
                gitIgnoreRule.negative := neg;
                gitIgnoreRule.anchored := anchored;
                gitIgnoreRule.dirOnly := dirOnly;
                gitIgnoreRule.hasSlash := strings.ContainsByte line "/" |}.

Fixpoint parseRules (lines : list string) : list gitIgnoreRule.t :=
  match lines with
  | [] => []
  | l :: ls =>
    match parseRule l with
    | Some r => r :: parseRules ls
    | None => parseRules ls
    end
  end.

(** [normalizePath] *)
Definition normalizePath (p : string) : string :=
  strings.ReplaceAllByte p PathSeparator "/".

(** [matchPattern] *)
Definition matchPattern (pattern name : string) : bool :=
  match path.Match pattern name with
  | Done ok => ok
  | ErrBadPattern => String.eqb pattern name
  | OutOfFuel => false          (* not reached: [Match_returns] *)
  end.

(** The inner loop of [match] for an unanchored rule with a slash: whether
    the pattern matches a suffix of [rel] that starts right after a slash. *)
Fixpoint matchSuffixes (pattern rel : string) : bool :=
  match rel with
  | EmptyString => false
  | String c t =>
    if Ascii.eqb c "/" && negb (path.isEmpty t) && matchPattern pattern t
    then true
    else matchSuffixes pattern t
  end.

(** The body of the loop of [match] for one rule: the value of [matched]
    after it. *)
Definition matchRule (rel : string) (isDir : bool) (matched : bool)
           (r : gitIgnoreRule.t) : bool :=
  let p := gitIgnoreRule.pattern r in
  let verdict := negb (gitIgnoreRule.negative r) in
  if gitIgnoreRule.dirOnly r && negb isDir then matched
  else if gitIgnoreRule.anchored r then
    if matchPattern p rel then verdict else matched
  else if negb (gitIgnoreRule.hasSlash r) then
    let base := path.Base rel in
    let matched := if matchPattern p base then verdict else matched in
    if isDir && String.eqb p base then verdict else matched
  else if matchPattern p rel then verdict
  else if matchSuffixes p rel then verdict
  else matched.

(** [gitIgnore.match] on the rules of a non-nil receiver *)
Definition matchRules (rules : list gitIgnoreRule.t) (rel : string) (isDir : bool) : bool :=
  fold_left (matchRule (normalizePath rel) isDir) rules false.

(* ====================================================================== *)
(** * path/filepath and the file system *)
(* ====================================================================== *)

(** A cleaned path is kept as its elements: [rooted] says it starts at the
    root directory; a path that is not rooted is relative to the working
    directory, and with no element it is ["."]. *)
Module filepath.

Record t : Type := mk {
  rooted : bool;
  segs : list string
}.

Definition eqb (a b : t) : bool :=
  Bool.eqb (rooted a) (rooted b)
  && bool_decide (segs a = segs b).

(** [filepath.Join(d, name)] for a file name [name] *)
Definition Join (d : t) (name : string) : t :=
  mk (rooted d) (segs d ++ [name]).

(** [filepath.Dir]: all but the last element; the root and ["."] are
    their own parents. *)
Definition Dir (d : t) : t := mk (rooted d) (removelast (segs d)).

(** [filepath.Base] *)
Definition Base (d : t) : string :=
  List.last (segs d) (if rooted d then "/" else ".").

Fixpoint joinSlash (l : list string) : string :=
  match l with
  | [] => ""
  | [x] => x
  | x :: l' => x ++ "/" ++ joinSlash l'
  end.

(** The path as the string the program holds. *)
Definition toString (d : t) : string :=
  if rooted d then "/" ++ joinSlash (segs d)
  else match segs d with [] => "." | l => joinSlash l end.

Fixpoint splitSlash (cur : string) (s : string) : list string :=
  match s with
  | EmptyString => [srev cur]
  | String c r =>
    if Ascii.eqb c "/" then srev cur :: splitSlash "" r
    else splitSlash (String c cur) r
  end.

(** A path string read back as its elements; empty elements and ["."]
    drop out. *)
Definition ofString (s : string) : t :=
  mk (strings.HasPrefix s "/")
     (List.filter (fun x => negb (path.isEmpty x) && negb (String.eqb x "."))
             (splitSlash "" s)).

(** The elements [Rel] compares: a rooted path begins with an empty
    element, and the target ["."] counts as the element ["."]. *)
Definition elements (keepDot : bool) (d : t) : list string :=
  if rooted d then "" :: segs d
  else match segs d with
       | [] => if keepDot then ["."] else []
       | l => l
       end.

Fixpoint stripCommon (b g : list string) : list string * list string :=
  match b, g with
  | x :: b', y :: g' => if String.eqb x y then stripCommon b' g' else (b, g)
  | _, _ => (b, g)
  end.

(** [filepath.Rel(base, targ)] *)
Definition Rel (base targ : t) : string * option error :=
  if eqb base targ then (".", None)
  else if negb (Bool.eqb (rooted base) (rooted targ)) then ("", Some ErrNotExist)
  else
    let '(b, g) := stripCommon (elements false base) (elements true targ) in
    match b with
    | [] => (joinSlash g, None)
    | x :: _ =>
      if String.eqb x ".." then ("", Some ErrNotExist)
      else (joinSlash (map (fun _ => "..") b ++ g), None)
    end.

End filepath.

Local Set Warnings "-register-all".

(** A file-system entry: a file with the error of opening it, the bytes it
    holds and the error its reading ends with; or a directory with the error
    of listing it and the entries [os.ReadDir] returns. *)
Inductive node : Type :=
| FileNode (openErr : option error) (bytes : string) (readErr : option error)
| DirNode (listErr : option error) (entries : list (string * node)).

Record filesystem : Type := mkFS {
  tree : node;                 (* the root directory *)
  cwd : list string            (* the working directory, from the root *)
}.

Fixpoint assoc (name : string) (es : list (string * node)) : option node :=
  match es with
  | [] => None
  | (n, x) :: es' => if String.eqb n name then Some x else assoc name es'
  end.

Fixpoint findNode (n : node) (p : list string) : option node :=
  match p with
  | [] => Some n
  | x :: p' =>
    match n with
    | DirNode _ es =>
      match assoc x es with
      | Some c => findNode c p'
      | None => None
      end
    | FileNode _ _ _ => None
    end
  end.

Fixpoint resolve (base : list string) (p : list string) : list string :=
  match p with
  | [] => base
  | x :: p' =>
    if String.eqb x ".." then resolve (removelast base) p'
    else resolve (base ++ [x]) p'
  end.

Definition fs_lookup (fs : filesystem) (p : filepath.t) : option node :=
  findNode (tree fs)
       (resolve (if filepath.rooted p then [] else cwd fs) (filepath.segs p)).

Definition nodeIsDir (n : node) : bool :=
  match n with DirNode _ _ => true | FileNode _ _ _ => false end.

(** [fi, err := os.Stat(p); err == nil && fi.IsDir()] *)
Definition statIsDir (fs : filesystem) (p : filepath.t) : bool :=
  match fs_lookup fs p with
  | Some n => nodeIsDir n
  | None => false
  end.

(** [os.Open] *)
Definition os_Open (fs : filesystem) (p : filepath.t) : stream + error :=
  match fs_lookup fs p with
  | Some (FileNode (Some e) _ _) => inr e
  | Some (FileNode None b re) => inl {| data := b; fails := re |}
  | Some (DirNode _ _) => inl {| data := ""; fails := Some ErrIsDir |}
  | None => inr ErrNotExist
  end.

(* ====================================================================== *)
(** * files.go: the storage abstraction *)
(* ====================================================================== *)

(** [FileReader]: the real reader, or any other implementation of [Open]. *)
Inductive FileReader : Type :=
| OSFileReader
| OtherReader (open : string -> stream + error).

Definition Open (fs : filesystem) (reader : FileReader) (name : string)
  : stream + error :=
  match reader with
  | OSFileReader => os_Open fs (filepath.ofString name)
  | OtherReader open => open name
  end.

(* ====================================================================== *)
(** * gitignore.go: the repository root and the rule file *)
(* ====================================================================== *)

(** [gitIgnore] *)
Record gitIgnore : Type := mkGitIgnore {
  root : filepath.t;
  rules : list gitIgnoreRule.t
}.

(** The loop of [findRepoRoot]; [None] when [fuel] iterations are used up. *)
Fixpoint findRepoRoot_loop (fs : filesystem) (fuel : nat)
         (start d : filepath.t) : option filepath.t :=
  match fuel with
  | O => None
  | S fuel' =>
    if statIsDir fs (filepath.Join d ".git") then Some d
    else
      let parent := filepath.Dir d in
      if filepath.eqb parent d then Some start
      else findRepoRoot_loop fs fuel' start parent
  end.

(** [findRepoRoot]. Every iteration drops an element of [d], so
    [findRepoRoot_loop] returns within the bound (see
    [findRepoRoot_loop_returns]). *)
Definition findRepoRoot (fs : filesystem) (start : filepath.t) : filepath.t :=
  match findRepoRoot_loop fs (S (length (filepath.segs start))) start start with
  | Some d => d
  | None => start
  end.

(** [loadGitIgnore]: [None] is the nil pointer. The error of the scanner is
    dropped and the rules read before it are kept. *)
Definition loadGitIgnore (fs : filesystem) (base : filepath.t) : option gitIgnore :=
  match os_Open fs (filepath.Join base ".gitignore") with
  | inr _ => None
  | inl f =>
    Some {| root := base; rules := parseRules (fst (bufio.ScanLines f)) |}
  end.

(** [gitIgnore.match] *)
Definition gitIgnore_match (g : option gitIgnore) (rel : string) (isDir : bool) : bool :=
  match g with
  | None => false
  | Some gi => matchRules (rules gi) rel isDir
  end.

(* ====================================================================== *)
(** * filepath.WalkDir *)
(* ====================================================================== *)

(** [fs.DirEntry], as far as the scanner reads it *)
Record DirEntry : Type := mkDirEntry {
  Name : string;
  IsDir : bool
}.

Section WalkDir.

(** The state the callback works on. *)
Context {S : Type}.

(** [fs.WalkDirFunc], with the state threaded through. [d] is [None]
    where the library passes a nil entry. *)
Definition WalkDirFunc : Type :=
  filepath.t -> option DirEntry -> option error -> S -> option error * S.

(** [if err == SkipDir && d.IsDir() { err = nil }] *)
Definition skipped (d : DirEntry) (err : option error) : option error :=
  match err with
  | Some e => if error_eqb e SkipDir && IsDir d then None else Some e
  | None => None
  end.

(** [filepath.walkDir] *)
Fixpoint walkDir (fn : WalkDirFunc) (path : filepath.t) (name : string)
         (n : node) (st : S) {struct n} : option error * S :=
  let d := {| Name := name; IsDir := nodeIsDir n |} in
  let '(err, st) := fn path (Some d) None st in
  match err with
  | Some _ => (skipped d err, st)
  | None =>
    match n with
    | FileNode _ _ _ => (None, st)
    | DirNode listErr dirs =>
      (* [dirs, err := os.ReadDir(path)], and the second call that
         reports its error *)
      let '(err2, st) :=
        match listErr with
        | Some e => fn path (Some d) (Some e) st
        | None => (None, st)
        end in
      match err2 with
      | Some _ => (skipped d err2, st)
      | None =>
        (fix walkEntries (es : list (string * node)) (st : S)
           : option error * S :=
           match es with
           | [] => (None, st)
           | (name1, n1) :: es' =>
             let '(err, st) :=
               walkDir fn (filepath.Join path name1) name1 n1 st in
             match err with
             | None => walkEntries es' st
             | Some e =>
               if error_eqb e SkipDir then (None, st) else (Some e, st)
             end
           end) dirs st
      end
    end
  end.

(** [filepath.WalkDir]. [os.Lstat] fails when nothing is at [root]. *)
Definition WalkDir (fs : filesystem) (root : filepath.t) (fn : WalkDirFunc)
           (st : S) : option error * S :=
  let '(err, st) :=
    match fs_lookup fs root with
    | None => fn root None (Some ErrNotExist) st
    | Some n => walkDir fn root (filepath.Base root) n st
    end in
  match err with
  | Some e =>
    if error_eqb e SkipDir || error_eqb e SkipAll then (None, st)
    else (Some e, st)
  | None => (None, st)
  end.

End WalkDir.

(* ====================================================================== *)
(** * scan.go: the scanner *)
(* ====================================================================== *)

(** [fileJob] *)
Record fileJob : Type := mkJob {
  rel : string;
  open : string
}.

(** The loop of [scanFileWithReader] over the lines the scanner yields. *)
Fixpoint scanLinesFrom (path : string) (lineNum : nat) (lines : list string)
  : list Todo :=
  match lines with
  | [] => []
  | line :: ls =>
    match matchLine path (S lineNum) line with
    | Some td => td :: scanLinesFrom path (S lineNum) ls
    | None => scanLinesFrom path (S lineNum) ls
    end
  end.

(** [scanFileWithReader] *)
Definition scanFileWithReader (fs : filesystem) (path : string)
           (reader : FileReader) : list Todo * option error :=
  match Open fs reader path with
  | inr err => ([], Some err)
  | inl f =>
    let '(lines, err) := bufio.ScanLines f in
    (scanLinesFrom path 0 lines, err)
  end.

Definition setFile (f : string) (td : Todo) : Todo :=
  {| File := f; Line := Line td; Tag := Tag td; Text := Text td |}.

(** The body of a worker for one job: the records it appends to [todos]. *)
Definition workerAppends (fs : filesystem) (reader : FileReader)
           (job : fileJob) : list Todo :=
  let '(fileTodos, err) := scanFileWithReader fs (open job) reader in
  match err, fileTodos with
  | None, _ :: _ => map (setFile (rel job)) fileTodos
  | _, _ => []
  end.

(** The ignore set: [skip[strings.TrimSpace(d)] = true] for each name. *)
Definition buildSkip (ignoreDirs : list string) : gmap string bool :=
  fold_left (fun skip d => <[strings.TrimSpace d := true]> skip) ignoreDirs ∅.

(** [skip[name]]: a missing key reads as [false]. *)
Definition skipLookup (skip : gmap string bool) (name : string) : bool :=
  default false (skip !! name).

Definition isOSFileReader (reader : FileReader) : bool :=
  match reader with OSFileReader => true | OtherReader _ => false end.

(** The callback [ScanDirWithReader] hands to [filepath.WalkDir]. Its state
    is the sequence of jobs sent on the channel so far. *)
Definition visit (skip : gmap string bool) (repoRoot : filepath.t)
           (gi : option gitIgnore) (root : filepath.t) (reader : FileReader)
  : @WalkDirFunc (list fileJob) :=
  fun path d err sent =>
    match err, d with
    | Some _, _ => (None, sent)       (* traversal errors are ignored *)
    | None, None => (None, sent)      (* the library passes an entry here *)
    | None, Some d =>
      if IsDir d then
        if String.eqb (Name d) ".git" then (Some SkipDir, sent)
        else if skipLookup skip (Name d) then (Some SkipDir, sent)
        else if match gi with
                | Some _ =>
                  gitIgnore_match gi (fst (filepath.Rel repoRoot path)) true
                | None => false
                end
        then (Some SkipDir, sent)
        else (None, sent)
      else
        let relPath := fst (filepath.Rel root path) in
        if match gi with
           | Some _ =>
             gitIgnore_match gi (fst (filepath.Rel repoRoot path)) false
           | None => false
           end
        then (None, sent)
        else
          let openPath :=
            if isOSFileReader reader then filepath.toString path
            else relPath in
          (None, sent ++ [{| rel := relPath; open := openPath |}])
    end.

(** The walk of [ScanDirWithReader] under given rules: the jobs it sends,
    in order, and the error [filepath.WalkDir] returns. *)
Definition walkWith (fs : filesystem) (skip : gmap string bool)
           (repoRoot : filepath.t) (gi : option gitIgnore)
           (root : filepath.t) (reader : FileReader)
  : option error * list fileJob :=
  WalkDir fs root (visit skip repoRoot gi root reader) [].

(** The sequential part of [ScanDirWithReader]: the ignore set, the
    repository root, the rules, and the walk. *)
Definition scanWalk (fs : filesystem) (root : filepath.t)
           (ignoreDirs : list string) (reader : FileReader)
  : option error * list fileJob :=
  let skip := buildSkip ignoreDirs in
  let repoRoot := findRepoRoot fs root in
  let gi := loadGitIgnore fs repoRoot in
  walkWith fs skip repoRoot gi root reader.

(** The rules a scan of [root] works under: the value of [gi]. *)
Definition scanRules (fs : filesystem) (root : filepath.t) : option gitIgnore :=
  loadGitIgnore fs (findRepoRoot fs root).

(** [workers := runtime.NumCPU(); if workers < 2 { workers = 2 }] *)
Definition numWorkers (numCPU : nat) : nat :=
  if Nat.ltb numCPU 2 then 2 else numCPU.

(** The capacity of the channel [jobs]. *)
Definition jobsCap : nat := 64.

(** ** The pool: producer, channel and workers as a transition system *)

Inductive worker : Type :=
| Idle                       (* at [for job := range jobs] *)
| Busy (job : fileJob)       (* holds a job, between receive and append *)
| Exited.                    (* left the loop, [wg.Done()] ran *)

Inductive producer : Type :=
| Walking (tosend : list fileJob)   (* in [WalkDir], these sends ahead *)
| Waiting                            (* after [close(jobs)], in [wg.Wait()] *)
| Returned.

Record pool : Type := mkPool {
  prod : producer;
  jobs : list fileJob;         (* the buffer of the channel *)
  closed : bool;
  workers : list worker;
  todos : list Todo
}.

Section Pool.

Variable fs : filesystem.
Variable reader : FileReader.

Inductive step : pool -> pool -> Prop :=
| step_send j tosend q ws ts :
    length q < jobsCap ->
    step (mkPool (Walking (j :: tosend)) q false ws ts)
         (mkPool (Walking tosend) (q ++ [j]) false ws ts)
| step_close q ws ts :
    step (mkPool (Walking []) q false ws ts)
         (mkPool Waiting q true ws ts)
| step_recv p j q c ws ts i :
    ws !! i = Some Idle ->
    step (mkPool p (j :: q) c ws ts)
         (mkPool p q c (<[i := Busy j]> ws) ts)
| step_append p q c ws ts i j :
    ws !! i = Some (Busy j) ->
    step (mkPool p q c ws ts)
         (mkPool p q c (<[i := Idle]> ws) (ts ++ workerAppends fs reader j))
| step_exit p ws ts i :
    ws !! i = Some Idle ->
    step (mkPool p [] true ws ts)
         (mkPool p [] true (<[i := Exited]> ws) ts)
| step_return q c ws ts :
    Forall (fun w => w = Exited) ws ->
    step (mkPool Waiting q c ws ts)
         (mkPool Returned q c ws ts).

(** The pool as [n] workers are started, before the walk. *)
Definition startPool (n : nat) (tosend : list fileJob) : pool :=
  mkPool (Walking tosend) [] false (replicate n Idle) [].

Definition initPool (numCPU : nat) (tosend : list fileJob) : pool :=
  startPool (numWorkers numCPU) tosend.

End Pool.

(** [ScanDirWithReader root ignoreDirs reader] may return [(ts, err)]: some
    run of the pool, started on the jobs of the walk, reaches the return
    with [ts] collected; [err] is the error of the walk. *)
Definition ScanDirWithReader (fs : filesystem) (numCPU : nat)
           (root : filepath.t) (ignoreDirs : list string) (reader : FileReader)
           (res : list Todo * option error) : Prop :=
  exists st,
    rtc (step fs reader)
        (initPool numCPU (snd (scanWalk fs root ignoreDirs reader))) st
    /\ prod st = Returned
    /\ res = (todos st, fst (scanWalk fs root ignoreDirs reader)).

(** [ScanDir] *)
Definition ScanDir (fs : filesystem) (numCPU : nat) (root : filepath.t)
           (ignoreDirs : list string) (res : list Todo * option error) : Prop :=
  ScanDirWithReader fs numCPU root ignoreDirs OSFileReader res.

(* ====================================================================== *)
(** * Notions the statements use *)
(* ====================================================================== *)

(** [d], its parent, and so on up to the path with no element: the
    directories [findRepoRoot] looks into when it starts at [d]. *)
Fixpoint ancestorsUpTo (n : nat) (d : filepath.t) : list filepath.t :=
  d :: match n with
       | O => []
       | S n' => ancestorsUpTo n' (filepath.Dir d)
       end.

Definition ancestors (d : filepath.t) : list filepath.t :=
  ancestorsUpTo (length (filepath.segs d)) d.

(** No ancestor of [start], itself included, holds a [.git] directory. *)
Definition noMarker (fs : filesystem) (start : filepath.t) : bool :=
  forallb (fun d => negb (statIsDir fs (filepath.Join d ".git")))
          (ancestors start).

Definition newline : string := String "010" "".

(** Whether rule [r] applies to the path: run on the opposite of its
    verdict, the body of the loop of [match] turns it into the verdict. *)
Definition ruleMatches (rel : string) (isDir : bool) (r : gitIgnoreRule.t) : bool :=
  Bool.eqb (matchRule rel isDir (gitIgnoreRule.negative r) r)
           (negb (gitIgnoreRule.negative r)).

(** The rule the line ["vendor/"] stands for. *)
Definition vendorRule : gitIgnoreRule.t :=
  gitIgnoreRule.mk "vendor" false false true false.

(** A repository whose rule file is the line ["vendor/"], with a [vendor]
    directory at the top and another three levels down. *)
Definition fs_vendor : filesystem :=
  mkFS (DirNode None
    [("repo", DirNode None
       [(".git", DirNode None [("config", FileNode None "# TODO: not scanned" None)]);
        (".gitignore", FileNode None ("vendor/" ++ newline) None);
        ("main.go", FileNode None ("// TODO: top" ++ newline) None);
        ("pkg", DirNode None
           [("c.go", FileNode None ("// NOTE: kept" ++ newline) None);
            ("sub", DirNode None
               [("vendor", DirNode None
                   [("deep", DirNode None
                       [("b.go", FileNode None ("// BUG: deep" ++ newline) None)])])])]);
        ("vendor", DirNode None
           [("a.go", FileNode None ("// FIXME: vendored" ++ newline) None)])])])
    ["repo"].

(** The elements before the last, each followed by a slash. *)
Fixpoint dirPrefix (l : list string) : string :=
  match l with
  | [] => ""
  | x :: l' => (x ++ "/" ++ dirPrefix l')%string
  end.

(** What kind of outcome a loop had, its value set aside. *)
Definition shape {A : Type} (o : outcome A) : outcome unit :=
  match o with
  | Done _ => Done tt
  | ErrBadPattern => ErrBadPattern
  | OutOfFuel => OutOfFuel
  end.

Definition restOf {A : Type} (o : outcome (A * string)) : outcome string :=
  match o with
  | Done (_, c) => Done c
  | ErrBadPattern => ErrBadPattern
  | OutOfFuel => OutOfFuel
  end.

(** A chunk is malformed when [matchChunk] reports it on the empty name. *)
Definition chunkBad (chunk : string) : bool :=
  match path.matchChunk chunk "" with
  | path.ChunkBad => true
  | _ => false
  end.

(** A pattern is malformed when the check [path.Match] makes of a pattern,
    chunk by chunk, reports [ErrBadPattern]: the closing loop of [Match],
    run on the whole pattern. *)
Definition badPattern (pattern : string) : bool :=
  match path.checkRest (S (String.length pattern)) pattern with
  | ErrBadPattern => true
  | _ => false
  end.

(** The first [k] bytes of [s] exist and lie outside ASCII. *)
Fixpoint highPrefix (k : nat) (s : string) : bool :=
  match k, s with
  | O, _ => true
  | S k', String c t => (utf8.RuneSelf <=? byte_of c)%Z && highPrefix k' t
  | S _, EmptyString => false
  end.

(** The four keywords, and a word that is one of them up to case. *)
Definition keywords : list string := ["TODO"; "FIXME"; "BUG"; "NOTE"].

Definition isKeyword (w : string) : bool :=
  existsb (String.eqb (strings.ToUpper w)) keywords.

Definition endsInWordChar (s : string) : bool :=
  match regexp.lastByte None s with
  | Some c => regexp.IsWordChar (byte_of c)
  | None => false
  end.

Definition startsWithWordChar (s : string) : bool :=
  match s with
  | String c _ => regexp.IsWordChar (byte_of c)
  | EmptyString => false
  end.

(** [line] is [pre], then the keyword [kw] as a whole word, then [post]. *)
Definition wholeWordAt (line pre kw post : string) : Prop :=
  line = (pre ++ kw ++ post)%string
  /\ isKeyword kw = true
  /\ endsInWordChar pre = false
  /\ startsWithWordChar post = false.

(** The text after the optional colon. *)
Definition stripColon (s : string) : string :=
  if path.headIs ":" s then sdrop 1 s else s.

Definition noNewline (s : string) : bool :=
  negb (strings.ContainsByte s "010").

(** The continuation that ends a match begun at offset [p]. *)
Definition matchEnd (p : nat) : regexp.thread -> option regexp.thread :=
  fun t => Some (regexp.setCap 0 (p, regexp.pos t) t).

(** The jobs a state of the pool still owes records for: those held by
    workers, those in the channel, and those the walk has yet to send. *)
Definition heldJob (w : worker) : list fileJob :=
  match w with
  | Busy j => [j]
  | _ => []
  end.

Definition busyJobs (ws : list worker) : list fileJob := flat_map heldJob ws.

Definition tosendOf (p : producer) : list fileJob :=
  match p with
  | Walking l => l
  | _ => []
  end.

Definition outstanding (st : pool) : list fileJob :=
  busyJobs (workers st) ++ jobs st ++ tosendOf (prod st).

Definition isWalking (p : producer) : bool :=
  match p with Walking _ => true | _ => false end.

(** What holds in every state a run of the pool reaches. *)
Record poolInv (fs : filesystem) (reader : FileReader) (n : nat)
       (sent : list fileJob) (st : pool) : Prop := mkPoolInv {
  inv_records :
    todos st ++ flat_map (workerAppends fs reader) (outstanding st)
    ≡ₚ flat_map (workerAppends fs reader) sent;
  inv_closed : closed st = negb (isWalking (prod st));
  inv_exited : Exited ∈ workers st -> jobs st = [] /\ closed st = true;
  inv_workers : length (workers st) = n;
  inv_cap : length (jobs st) <= jobsCap;
  inv_returned : prod st = Returned -> Forall (fun w => w = Exited) (workers st)
}.

(** A measure every step of the pool lowers. *)
Definition workerWeight (w : worker) : nat :=
  match w with
  | Busy _ => 2
  | Idle => 1
  | Exited => 0
  end.

Definition producerWeight (p : producer) : nat :=
  match p with
  | Walking l => 2 + 4 * length l
  | Waiting => 1
  | Returned => 0
  end.

Definition poolMeasure (st : pool) : nat :=
  producerWeight (prod st) + 3 * length (jobs st)
  + list_sum (map workerWeight (workers st)).

(** The lines of a text: split at each newline, a carriage return before it
    dropped; the bytes after the last newline are a line when there are any.
    [cur] is the line read so far, reversed. *)
Fixpoint textLines (cur : string) (s : string) : list string :=
  match s with
  | EmptyString => if path.isEmpty cur then [] else [bufio.dropCR (srev cur)]
  | String c t =>
    if Ascii.eqb c "010" then bufio.dropCR (srev cur) :: textLines "" t
    else textLines (String c cur) t
  end.

(** How many of the lines match [pattern]. *)
Definition countMatching (lines : list string) : nat :=
  length (List.filter
            (fun l => match pattern_FindStringSubmatch l with
                      | Some _ => true
                      | None => false
                      end) lines).

(** The number of records a job contributes: the matching lines of its file
    when the file opens and is read to its end without error, none
    otherwise. *)
Definition recordsOf (fs : filesystem) (reader : FileReader) (job : fileJob) : nat :=
  match Open fs reader (open job) with
  | inl f =>
    match bufio.ScanLines f with
    | (lines, None) => countMatching lines
    | (_, Some _) => 0
    end
  | inr _ => 0
  end.

Fixpoint sreplicate (n : nat) (c : ascii) : string :=
  match n with
  | O => EmptyString
  | S n' => String c (sreplicate n' c)
  end.

(** A plain directory tree with no repository marker anywhere. *)
Definition fs_plain : filesystem :=
  mkFS (DirNode None
          [("work", DirNode None
              [("proj", DirNode None
                  [("main.go", FileNode None ("// TODO: one" ++ newline) None)])])])
       ["work"].

(** A directory that is not in a repository and holds a rule file. *)
Definition fs_norepo : filesystem :=
  mkFS (DirNode None
          [("proj", DirNode None
              [(".gitignore", FileNode None ("*.tmp" ++ newline) None);
               ("drop.tmp", FileNode None ("// TODO: in drop.tmp" ++ newline) None);
               ("main.go", FileNode None ("// NOTE: in main.go" ++ newline) None)])])
       [].

(** A directory whose one file has a matching first line and a second line
    of [bufio.MaxScanTokenSize] bytes. *)
Definition longFile : string :=
  ("// TODO: shorten the next line" ++ newline
   ++ sreplicate bufio.MaxScanTokenSize "a")%string.

Definition fs_long : filesystem :=
  mkFS (DirNode None
          [("site", DirNode None [("bundle.js", FileNode None longFile None)])])
       [].

(** A directory that cannot be listed, with nothing else around. *)
Definition fs_locked : filesystem :=
  mkFS (DirNode None [("locked", DirNode (Some ErrPermission) [])]) [].

(** ** Three claims as the specification words them *)

(** A walk that fails at the root makes the scan return an error. *)
Definition rootFailureSurfaces : Prop :=
  forall fs numCPU root ignoreDirs reader res,
    fs_lookup fs root = None ->
    ScanDirWithReader fs numCPU root ignoreDirs reader res ->
    snd res <> None.

(** Without a repository marker above the root no rules are loaded, and the
    walk goes as it does without rules. *)
Definition noMarkerNoRules : Prop :=
  forall fs root ignoreDirs reader,
    noMarker fs root = true ->
    scanRules fs root = None
    /\ scanWalk fs root ignoreDirs reader
       = walkWith fs (buildSkip ignoreDirs) (findRepoRoot fs root) None root reader.

(** The matching lines of the file a job names, whatever reading it does. *)
Definition matchingLinesOf (fs : filesystem) (job : fileJob) : nat :=
  match fs_lookup fs (filepath.ofString (open job)) with
  | Some (FileNode _ b _) => countMatching (textLines "" b)
  | _ => 0
  end.

(** A scan returns as many records as the files sent have matching lines. *)
Definition allMatchingLinesReturned : Prop :=
  forall fs numCPU root ignoreDirs res,
    ScanDir fs numCPU root ignoreDirs res ->
    length (fst res)
    = list_sum (map (matchingLinesOf fs)
                    (snd (scanWalk fs root ignoreDirs OSFileReader))).

(** A reader whose one file delivers a matching line and then fails. *)
Definition failingReader : FileReader :=
  OtherReader (fun _ => inl {| data := "// TODO: read me" ++ newline;
                               fails := Some ErrIO |}).

(** The head of [s] is a continuation byte [10xxxxxx]. *)
Definition startsCont (s : string) : bool :=
  match s with
  | EmptyString => false
  | String c _ => ((utf8.locb <=? byte_of c) && (byte_of c <=? utf8.hicb))%Z
  end.

(** [string(runes)]: the runes encoded one after the other. *)
Fixpoint encodeRunes (rs : list Z) : string :=
  match rs with
  | [] => ""
  | r :: rs' => (utf8.EncodeRune r ++ encodeRunes rs')%string
  end.

(** The runes for which [unicode.IsSpace] holds. *)
Definition spaceRunes : list Z :=
  [0x09; 0x0A; 0x0B; 0x0C; 0x0D; 0x20; 0x85; 0xA0; 0x1680;
   0x2000; 0x2001; 0x2002; 0x2003; 0x2004; 0x2005; 0x2006; 0x2007; 0x2008;
   0x2009; 0x200A; 0x2028; 0x2029; 0x202F; 0x205F; 0x3000]%Z.

(** A string of white space: the encoding of runes that are all spaces. *)
Definition spaceString (rs : list Z) : Prop :=
  Forall (fun r => unicode.IsSpace r = true) rs.

(** ** Threads of the matcher the statements about [pattern] speak of *)

(** What the tail [(.+)?] does at a thread: the second group takes all the
    text ahead, or takes no part when there is none. *)
Definition afterColon (p : nat) (t1 : regexp.thread) : regexp.thread :=
  if path.isEmpty (regexp.rest t1) then regexp.setCap 0 (p, regexp.pos t1) t1
  else
    regexp.setCap 0 (p, regexp.pos t1 + String.length (regexp.rest t1))
      (regexp.setCap 2
         (regexp.pos t1, regexp.pos t1 + String.length (regexp.rest t1))
         (regexp.consume (String.length (regexp.rest t1)) t1)).

(** The keyword that [re_keywords] finds ahead, if any. *)
Definition kwAt (s : string) : option string :=
  List.find (fun K => regexp.litPrefix true K s) keywords.

Definition colonStep (t : regexp.thread) : regexp.thread :=
  if path.headIs ":" (regexp.rest t) then regexp.consume 1 t else t.

Definition keywordStep (K : string) (t : regexp.thread) : regexp.thread :=
  regexp.setCap 1 (regexp.pos t, regexp.pos t + String.length K)
                (regexp.consume (String.length K) t).

(** The thread at the position after [a] in a text [a ++ b] that the search
    entered at offset [p] with [pv] behind it. *)
Definition threadAt (p : nat) (pv : option ascii) (a b : string) : regexp.thread :=
  {| regexp.pos := p + String.length a; regexp.prev := regexp.lastByte pv a;
     regexp.rest := b; regexp.caps := [] |}.

(* ====================================================================== *)
(** * Properties *)
(* ====================================================================== *)

(** ** The repository root *)

Section RepoRoot.

Variable fs : filesystem.

Lemma Dir_fixed (d : filepath.t) :
  filepath.eqb (filepath.Dir d) d = true <-> filepath.segs d = [].
Proof.
  destruct d as [r l]. unfold filepath.eqb, filepath.Dir. simpl.
  rewrite eqb_reflx. simpl. rewrite bool_decide_eq_true. split.
  - intros H. destruct l as [|x l]; [reflexivity|].
    apply (f_equal (@length string)) in H.
    rewrite (@app_removelast_last _ (x :: l) x) in H at 2 by discriminate.
    rewrite length_app in H. simpl in H. lia.
  - intros ->. reflexivity.
Qed.

Lemma Dir_length (d : filepath.t) :
  length (filepath.segs (filepath.Dir d)) = pred (length (filepath.segs d)).
Proof.
  destruct d as [r l]. simpl. destruct l as [|x l]; [reflexivity|].
  rewrite (@app_removelast_last _ (x :: l) x) at 2 by discriminate.
  rewrite length_app. simpl. lia.
Qed.

(** The loop returns within [length (segs d) + 1] iterations. *)
Lemma findRepoRoot_loop_returns (fuel : nat) (start d : filepath.t) :
  length (filepath.segs d) < fuel ->
  exists r, findRepoRoot_loop fs fuel start d = Some r.
Proof.
  revert d. induction fuel as [|fuel IH]; intros d Hlen; [lia|].
  simpl. destruct (statIsDir fs (filepath.Join d ".git")); [eauto|].
  destruct (filepath.eqb (filepath.Dir d) d) eqn:E; [eauto|].
  apply IH. rewrite Dir_length.
  destruct (filepath.segs d) eqn:Es; simpl in *; [|lia].
  exfalso. apply Dir_fixed in Es. congruence.
Qed.

Lemma findRepoRoot_loop_no_marker (n : nat) (start d : filepath.t) :
  length (filepath.segs d) = n ->
  forallb (fun d => negb (statIsDir fs (filepath.Join d ".git")))
          (ancestorsUpTo n d) = true ->
  findRepoRoot_loop fs (S n) start d = Some start.
Proof.
  revert d. induction n as [|n IH]; intros d Hlen Hno.
  - simpl in *. apply andb_prop in Hno as [Hd _].
    apply negb_true_iff in Hd. rewrite Hd.
    destruct (filepath.segs d) eqn:Es; [|discriminate].
    apply Dir_fixed in Es. rewrite Es. reflexivity.
  - cbn [ancestorsUpTo forallb] in Hno. apply andb_prop in Hno as [Hd Hrest].
    apply negb_true_iff in Hd.
    cbn [findRepoRoot_loop]. rewrite Hd.
    destruct (filepath.eqb (filepath.Dir d) d) eqn:E; [reflexivity|].
    apply IH; [|exact Hrest]. rewrite Dir_length, Hlen. reflexivity.
Qed.

End RepoRoot.

(** C8. When no ancestor of the starting directory, itself included, holds
    the repo marker directory, the resolver returns: its loop ends within
    its bound, and the result is the starting directory unchanged. *)
Theorem C8_findRepoRoot_no_marker (fs : filesystem) (start : filepath.t) :
  noMarker fs start = true ->
  findRepoRoot_loop fs (S (length (filepath.segs start))) start start = Some start
  /\ findRepoRoot fs start = start.
Proof.
  intros H. unfold noMarker, ancestors in H.
  pose proof (findRepoRoot_loop_no_marker fs _ start start eq_refl H) as E.
  split; [exact E|]. unfold findRepoRoot. rewrite E. reflexivity.
Qed.

Lemma C8_witness :
  noMarker fs_plain (filepath.mk true ["work"; "proj"]) = true
  /\ findRepoRoot fs_plain (filepath.mk true ["work"; "proj"])
     = filepath.mk true ["work"; "proj"].
Proof.
  split; [reflexivity|].
  apply (C8_findRepoRoot_no_marker fs_plain (filepath.mk true ["work"; "proj"])).
  reflexivity.
Defined.

(** ** Strings *)

#[local] Arguments String.append !_ _ / : simpl nomatch.

Lemma sapp_nil_r (s : string) : (s ++ "")%string = s.
Proof. induction s as [|c s IH]; simpl; [reflexivity | now rewrite IH]. Qed.

Lemma sapp_assoc (a b c : string) : ((a ++ b) ++ c)%string = (a ++ (b ++ c))%string.
Proof. induction a as [|x a IH]; simpl; [reflexivity | now rewrite IH]. Qed.

Lemma slength_app (a b : string) :
  String.length (a ++ b) = String.length a + String.length b.
Proof. induction a as [|x a IH]; simpl; [reflexivity | now rewrite IH]. Qed.

Lemma srev_onto_app (acc s : string) :
  srev_onto acc s = (srev s ++ acc)%string.
Proof.
  unfold srev. revert acc. induction s as [|c s IH]; intros acc; simpl; [reflexivity|].
  rewrite IH, (IH (String c "")), sapp_assoc. reflexivity.
Qed.

Lemma srev_cons (c : ascii) (s : string) :
  srev (String c s) = (srev s ++ String c "")%string.
Proof. unfold srev at 1. simpl. apply srev_onto_app. Qed.

Lemma srev_app (a b : string) : srev (a ++ b) = (srev b ++ srev a)%string.
Proof.
  induction a as [|c a IH]; simpl.
  - now rewrite sapp_nil_r.
  - rewrite !srev_cons, IH, sapp_assoc. reflexivity.
Qed.

Lemma srev_involutive (s : string) : srev (srev s) = s.
Proof.
  induction s as [|c s IH]; [reflexivity|].
  rewrite srev_cons, srev_app, IH. reflexivity.
Qed.

Lemma slength_srev (s : string) : String.length (srev s) = String.length s.
Proof.
  induction s as [|c s IH]; [reflexivity|].
  rewrite srev_cons, slength_app, IH. simpl. lia.
Qed.

Lemma sdrop_app_length (a b : string) : sdrop (String.length a) (a ++ b) = b.
Proof. induction a as [|c a IH]; simpl; [reflexivity | exact IH]. Qed.

Lemma stake_app_length (a b : string) : stake (String.length a) (a ++ b) = a.
Proof. induction a as [|c a IH]; simpl; [reflexivity | now rewrite IH]. Qed.

Lemma stake_sdrop (n : nat) (s : string) : (stake n s ++ sdrop n s)%string = s.
Proof.
  revert s. induction n as [|n IH]; intros [|c s]; simpl; try reflexivity.
  now rewrite IH.
Qed.

Lemma isEmpty_true (s : string) : path.isEmpty s = true <-> s = "".
Proof. destruct s; simpl; split; congruence. Qed.

(** ** The ignore engine: precedence of rules *)

Lemma matchRule_verdict (rel : string) (isDir m : bool) (r : gitIgnoreRule.t) :
  matchRule rel isDir m r
  = if ruleMatches rel isDir r then negb (gitIgnoreRule.negative r) else m.
Proof.
  unfold ruleMatches, matchRule.
  destruct (gitIgnoreRule.dirOnly r), isDir, (gitIgnoreRule.anchored r),
    (gitIgnoreRule.hasSlash r), (gitIgnoreRule.negative r), m; simpl;
    repeat match goal with
           | |- context [if ?b then _ else _] => destruct b; simpl
           end; reflexivity.
Qed.

Lemma matchRules_last (rules : list gitIgnoreRule.t) (rel : string) (isDir m : bool) :
  fold_left (matchRule rel isDir) rules m
  = match List.find (ruleMatches rel isDir) (rev rules) with
    | Some r => negb (gitIgnoreRule.negative r)
    | None => m
    end.
Proof.
  induction rules as [|r rules IH] using rev_ind; [reflexivity|].
  rewrite fold_left_app, rev_app_distr. simpl.
  rewrite matchRule_verdict, IH.
  destruct (ruleMatches rel isDir r); reflexivity.
Qed.

(** C4. The rules are evaluated in declaration order and the last rule that
    matches the path decides: the result is that rule's verdict (excluded, or
    not excluded for a negative rule), and not excluded when no rule matches.
    With the rule-file lines ["*.tmp"] then ["!keep.tmp"], the file
    [keep.tmp] is not excluded and the file [drop.tmp] is excluded. *)
Theorem C4_last_matching_rule_decides :
  (forall (rules : list gitIgnoreRule.t) (rel : string) (isDir : bool),
      matchRules rules rel isDir
      = match List.find (ruleMatches (normalizePath rel) isDir) (rev rules) with
        | Some r => negb (gitIgnoreRule.negative r)
        | None => false
        end)
  /\ (forall (rules : list gitIgnoreRule.t) (r : gitIgnoreRule.t)
             (rel : string) (isDir : bool),
         matchRules (rules ++ [r]) rel isDir
         = if ruleMatches (normalizePath rel) isDir r
           then negb (gitIgnoreRule.negative r)
           else matchRules rules rel isDir)
  /\ parseRules ["*.tmp"; "!keep.tmp"]
     = [gitIgnoreRule.mk "*.tmp" false false false false;
        gitIgnoreRule.mk "keep.tmp" true false false false]
  /\ matchRules (parseRules ["*.tmp"; "!keep.tmp"]) "keep.tmp" false = false
  /\ matchRules (parseRules ["*.tmp"; "!keep.tmp"]) "drop.tmp" false = true
  /\ matchRules (parseRules ["*.tmp"]) "keep.tmp" false = true.
Proof.
  split; [|split; [|repeat split; vm_compute; reflexivity]].
  - intros rules rel isDir. unfold matchRules. apply matchRules_last.
  - intros rules r rel isDir. unfold matchRules.
    rewrite fold_left_app. simpl. apply matchRule_verdict.
Qed.

(** ** The ignore engine: a directory rule *)

Lemma ReplaceAllByte_same (s : string) (c : ascii) :
  strings.ReplaceAllByte s c c = s.
Proof.
  induction s as [|a s IH]; simpl; [reflexivity|]. rewrite IH.
  destruct (Ascii.eqb_spec a c); congruence.
Qed.

Lemma normalizePath_id (p : string) : normalizePath p = p.
Proof. apply ReplaceAllByte_same. Qed.

Lemma joinSlash_snoc (l : list string) (w : string) :
  filepath.joinSlash (l ++ [w]) = (dirPrefix l ++ w)%string.
Proof.
  induction l as [|x l IH]; [reflexivity|].
  change ((x :: l) ++ [w]) with (x :: (l ++ [w])).
  cbn [filepath.joinSlash dirPrefix]. rewrite IH.
  destruct (l ++ [w]) eqn:E; [destruct l; discriminate|].
  rewrite !sapp_assoc. reflexivity.
Qed.

Lemma afterLastSlash_slash (x rest acc : string) :
  path.afterLastSlash acc (x ++ "/" ++ rest) = path.afterLastSlash "" rest.
Proof.
  revert acc. induction x as [|c x IH]; intros acc; simpl; [reflexivity|].
  destruct (Ascii.eqb c "/"); apply IH.
Qed.

Lemma afterLastSlash_dirPrefix (l : list string) (w acc : string) :
  l <> [] ->
  path.afterLastSlash acc (dirPrefix l ++ w) = path.afterLastSlash "" w.
Proof.
  revert acc. induction l as [|x l IH]; intros acc Hne; [congruence|].
  cbn [dirPrefix]. rewrite !sapp_assoc. rewrite afterLastSlash_slash.
  destruct l as [|y l]; [reflexivity|]. apply IH. discriminate.
Qed.

Lemma Base_below_vendor (mid : list string) :
  path.Base (filepath.joinSlash (mid ++ ["vendor"])) = "vendor".
Proof.
  rewrite joinSlash_snoc. unfold path.Base.
  assert (E : path.isEmpty (dirPrefix mid ++ "vendor") = false).
  { destruct (dirPrefix mid); reflexivity. }
  rewrite E, srev_app.
  change (srev "vendor") with "rodnev". cbn [String.append path.stripTrailingSlashes_rev Ascii.eqb].
  simpl.
  change (String "r" (String "o" (String "d" (String "n" (String "e" (String "v" (srev (dirPrefix mid))))))))
    with ("rodnev" ++ srev (dirPrefix mid))%string.
  rewrite srev_app, srev_involutive.
  change (srev "rodnev") with "vendor".
  destruct mid as [|x mid]; [reflexivity|].
  rewrite afterLastSlash_dirPrefix by discriminate. reflexivity.
Qed.

Lemma stripCommon_prefix (p ext : list string) :
  filepath.stripCommon p (p ++ ext) = ([], ext).
Proof.
  induction p as [|x p IH]; simpl; [destruct ext; reflexivity|].
  rewrite String.eqb_refl. exact IH.
Qed.

(** [Rel] of a path below [base]: the elements that lead down to it. *)
Lemma Rel_below (base targ : filepath.t) (ext : list string) :
  filepath.rooted targ = filepath.rooted base ->
  filepath.segs targ = filepath.segs base ++ ext ->
  ext <> [] ->
  filepath.Rel base targ = (filepath.joinSlash ext, None).
Proof.
  destruct base as [rb sb], targ as [rt st]. simpl. intros -> -> Hne.
  unfold filepath.Rel, filepath.eqb. simpl.
  rewrite eqb_reflx. simpl.
  rewrite bool_decide_eq_false_2.
  2:{ intros E. apply (f_equal (@length string)) in E.
      rewrite length_app in E. destruct ext; [congruence | simpl in E; lia]. }
  cbn [negb]. unfold filepath.elements. cbn [filepath.rooted filepath.segs].
  destruct rb.
  - change ("" :: sb ++ ext) with (("" :: sb) ++ ext).
    rewrite stripCommon_prefix. reflexivity.
  - destruct sb as [|x sb].
    + cbn [app]. destruct ext as [|e ext]; [congruence|]. reflexivity.
    + change ((x :: sb) ++ ext) with (x :: (sb ++ ext)).
      cbv iota. change (x :: (sb ++ ext)) with ((x :: sb) ++ ext).
      rewrite stripCommon_prefix. reflexivity.
Qed.

Lemma matchRule_keeps_excluded (rel : string) (isDir : bool) (r : gitIgnoreRule.t) :
  gitIgnoreRule.negative r = false -> matchRule rel isDir true r = true.
Proof.
  intros H. rewrite matchRule_verdict, H. destruct (ruleMatches _ _ _); reflexivity.
Qed.

Lemma matchRules_vendor (pre post : list gitIgnoreRule.t) (rel : string) :
  path.Base (normalizePath rel) = "vendor" ->
  Forall (fun r => gitIgnoreRule.negative r = false) post ->
  matchRules (pre ++ vendorRule :: post) rel true = true.
Proof.
  intros HB Hpost. unfold matchRules.
  rewrite fold_left_app. cbn [fold_left].
  set (m := fold_left _ pre false). clearbody m.
  assert (E : matchRule (normalizePath rel) true m vendorRule = true).
  { unfold matchRule, vendorRule. cbn [gitIgnoreRule.dirOnly gitIgnoreRule.anchored
      gitIgnoreRule.hasSlash gitIgnoreRule.negative gitIgnoreRule.pattern negb andb].
    rewrite HB. reflexivity. }
  rewrite E. clear E m.
  induction Hpost as [|r post Hr _ IH]; [reflexivity|].
  cbn [fold_left]. rewrite matchRule_keeps_excluded by exact Hr. exact IH.
Qed.

Lemma visit_vendor_dir (skip : gmap string bool) (repoRoot root path : filepath.t)
      (g : gitIgnore) (reader : FileReader) (sent : list fileJob)
      (pre post : list gitIgnoreRule.t) (mid : list string) :
  rules g = pre ++ vendorRule :: post ->
  Forall (fun r => gitIgnoreRule.negative r = false) post ->
  filepath.rooted path = filepath.rooted repoRoot ->
  filepath.segs path = filepath.segs repoRoot ++ mid ++ ["vendor"] ->
  visit skip repoRoot (Some g) root reader path
        (Some {| Name := "vendor"; IsDir := true |}) None sent
  = (Some SkipDir, sent).
Proof.
  intros Hr Hpost Hroot Hsegs. unfold visit.
  cbn [IsDir Name]. change (String.eqb "vendor" ".git") with false. cbv iota.
  destruct (skipLookup skip "vendor"); [reflexivity|].
  rewrite (Rel_below repoRoot path (mid ++ ["vendor"])); try assumption.
  2:{ destruct mid; discriminate. }
  cbn [fst gitIgnore_match]. rewrite Hr.
  rewrite matchRules_vendor; [reflexivity| |exact Hpost].
  rewrite normalizePath_id. apply Base_below_vendor.
Qed.

(** C5. The rule-file line ["vendor/"] parses to an unanchored
    directory-only rule with pattern [vendor]. With that rule in the list
    (and no negative rule after it) the engine excludes, in directory form,
    every path whose base name is [vendor], so every directory named
    [vendor] at any depth below the repo root; the walk then skips such a
    directory: it returns at once and sends no job for anything inside. *)
Theorem C5_vendor_rule_skips_directory :
  parseRule "vendor/" = Some vendorRule
  /\ vendorRule = gitIgnoreRule.mk "vendor" false false true false
  /\ (forall (pre post : list gitIgnoreRule.t) (rel : string),
         path.Base (normalizePath rel) = "vendor" ->
         Forall (fun r => gitIgnoreRule.negative r = false) post ->
         matchRules (pre ++ vendorRule :: post) rel true = true)
  /\ (forall (pre post : list gitIgnoreRule.t) (mid : list string),
         Forall (fun r => gitIgnoreRule.negative r = false) post ->
         matchRules (pre ++ vendorRule :: post)
                    (filepath.joinSlash (mid ++ ["vendor"])) true = true)
  /\ (forall (skip : gmap string bool) (repoRoot root path : filepath.t)
             (g : gitIgnore) (reader : FileReader) (sent : list fileJob)
             (pre post : list gitIgnoreRule.t) (mid : list string)
             (listErr : option error) (dirs : list (string * node)),
         rules g = pre ++ vendorRule :: post ->
         Forall (fun r => gitIgnoreRule.negative r = false) post ->
         filepath.rooted path = filepath.rooted repoRoot ->
         filepath.segs path = filepath.segs repoRoot ++ mid ++ ["vendor"] ->
         walkDir (visit skip repoRoot (Some g) root reader) path "vendor"
                 (DirNode listErr dirs) sent
         = (None, sent))
  /\ scanWalk fs_vendor (filepath.mk true ["repo"]) [] OSFileReader
     = (None, [mkJob ".gitignore" "/repo/.gitignore";
               mkJob "main.go" "/repo/main.go";
               mkJob "pkg/c.go" "/repo/pkg/c.go"]).
Proof.
  split; [vm_compute; reflexivity|].
  split; [reflexivity|].
  split; [intros; now apply matchRules_vendor|].
  split.
  { intros pre post mid Hpost. apply matchRules_vendor; [|exact Hpost].
    rewrite normalizePath_id. apply Base_below_vendor. }
  split; [|vm_compute; reflexivity].
  intros skip repoRoot root path g reader sent pre post mid listErr dirs
         Hr Hpost Hroot Hsegs.
  cbn [walkDir nodeIsDir].
  rewrite (visit_vendor_dir skip repoRoot root path g reader sent pre post mid)
    by assumption.
  reflexivity.
Qed.

(** ** UTF-8 decoding *)

Lemma byte_of_range (c : ascii) : (0 <= byte_of c < 256)%Z.
Proof.
  unfold byte_of. pose proof (N_ascii_bounded c). lia.
Qed.

Lemma lor_ge_128 (a b : Z) :
  (0 <= a)%Z -> (0 <= b)%Z -> (128 <= a \/ 128 <= b)%Z -> (128 <= Z.lor a b)%Z.
Proof.
  intros Ha Hb Hor.
  assert (H0 : (0 <= Z.lor a b)%Z) by (apply Z.lor_nonneg; split; assumption).
  assert (Hl : (7 <= Z.log2 (Z.lor a b))%Z).
  { rewrite Z.log2_lor by assumption.
    destruct Hor as [H|H].
    - assert (7 <= Z.log2 a)%Z by (apply Z.log2_le_pow2; lia). lia.
    - assert (7 <= Z.log2 b)%Z by (apply Z.log2_le_pow2; lia). lia. }
  destruct (Z.eq_dec (Z.lor a b) 0%Z) as [E|E].
  - rewrite E in Hl. simpl in Hl. lia.
  - change 128%Z with (2 ^ 7)%Z. apply Z.log2_le_pow2; lia.
Qed.

Lemma land_low (x : Z) (n : Z) (m : Z) :
  (0 <= n)%Z -> m = Z.ones n -> Z.land x m = (x mod 2 ^ n)%Z.
Proof. intros Hn ->. apply Z.land_ones. exact Hn. Qed.

Ltac mask_to_mod :=
  unfold utf8.maskx, utf8.mask2, utf8.mask3, utf8.mask4;
  repeat first
    [ rewrite (land_low _ 6 0x3F) by (try lia; reflexivity)
    | rewrite (land_low _ 5 0x1F) by (try lia; reflexivity)
    | rewrite (land_low _ 4 0x0F) by (try lia; reflexivity)
    | rewrite (land_low _ 3 0x07) by (try lia; reflexivity) ];
  rewrite ?Z.shiftl_mul_pow2 by lia.

Ltac split_first :=
  unfold utf8.first, utf8.locb, utf8.hicb;
  repeat match goal with
         | |- context [if (?a <? ?b)%Z then _ else _] =>
           destruct (Z.ltb_spec a b)
         | |- context [if (?a =? ?b)%Z then _ else _] =>
           destruct (Z.eqb_spec a b)
         end.

Lemma first_lead_range (b : Z) (sz : nat) (lo hi : Z) :
  utf8.first b = utf8.Lead sz lo hi ->
  (0x80 <= lo)%Z /\ (hi <= 0xBF)%Z /\ (0xC2 <= b)%Z /\ 2 <= sz <= 4.
Proof.
  split_first; intros [= <- <- <-] || discriminate; lia.
Qed.

Lemma outside_false (lo hi b : Z) :
  utf8.outside lo hi b = false -> (lo <= b <= hi)%Z.
Proof. unfold utf8.outside. intros H. apply orb_false_elim in H. lia. Qed.

(** A byte below [RuneSelf] decodes as itself. *)
Lemma decode_ascii (c : ascii) (t : string) :
  (byte_of c < utf8.RuneSelf)%Z ->
  utf8.DecodeRuneInString (String c t) = (byte_of c, 1).
Proof.
  intros H. unfold utf8.DecodeRuneInString, utf8.first.
  unfold utf8.RuneSelf in H.
  destruct (Z.ltb_spec (byte_of c) 0x80); [reflexivity | lia].
Qed.

(** The bytes a rune spans after its first lie outside ASCII. *)
Lemma decode_skips_high (c : ascii) (t : string) :
  highPrefix (snd (utf8.DecodeRuneInString (String c t)) - 1) t = true.
Proof.
  unfold utf8.DecodeRuneInString.
  destruct (utf8.first (byte_of c)) as [| |sz lo hi] eqn:Ef; try reflexivity.
  apply first_lead_range in Ef as (Hlo & Hhi & _ & _).
  destruct t as [|c1 t]; [reflexivity|].
  destruct (utf8.outside lo hi (byte_of c1)) eqn:E1; [reflexivity|].
  apply outside_false in E1.
  assert (H1 : (utf8.RuneSelf <=? byte_of c1)%Z = true)
    by (unfold utf8.RuneSelf; lia).
  destruct (Nat.leb sz 2); [simpl; rewrite H1; reflexivity|].
  destruct t as [|c2 t]; [reflexivity|].
  destruct (utf8.outside _ _ (byte_of c2)) eqn:E2; [reflexivity|].
  apply outside_false in E2. unfold utf8.locb, utf8.hicb in E2.
  assert (H2 : (utf8.RuneSelf <=? byte_of c2)%Z = true)
    by (unfold utf8.RuneSelf; lia).
  destruct (Nat.leb sz 3); [simpl; rewrite H1, H2; reflexivity|].
  destruct t as [|c3 t]; [reflexivity|].
  destruct (utf8.outside _ _ (byte_of c3)) eqn:E3; [reflexivity|].
  apply outside_false in E3. unfold utf8.locb, utf8.hicb in E3.
  assert (H3 : (utf8.RuneSelf <=? byte_of c3)%Z = true)
    by (unfold utf8.RuneSelf; lia).
  simpl. rewrite H1, H2, H3. reflexivity.
Qed.

(** A first byte outside ASCII never decodes to an ASCII rune. *)
Lemma decode_high (c : ascii) (t : string) :
  (utf8.RuneSelf <= byte_of c)%Z ->
  (utf8.RuneSelf <= fst (utf8.DecodeRuneInString (String c t)))%Z.
Proof.
  intros Hc. unfold utf8.RuneSelf in *.
  pose proof (byte_of_range c) as Rc.
  unfold utf8.DecodeRuneInString.
  destruct (utf8.first (byte_of c)) as [| |sz lo hi] eqn:Ef.
  - revert Ef. split_first; intros; try discriminate; lia.
  - simpl. unfold utf8.RuneError. lia.
  - assert (Hr : (0x80 <= utf8.RuneError)%Z) by (unfold utf8.RuneError; lia).
    destruct t as [|c1 t]; [exact Hr|].
    pose proof (byte_of_range c1) as R1.
    destruct (utf8.outside lo hi (byte_of c1)) eqn:E1; [exact Hr|].
    apply outside_false in E1.
    destruct (Nat.leb sz 2) eqn:Es2.
    { cbn [fst]. mask_to_mod. apply lor_ge_128.
      - revert Ef. split_first; intros; try discriminate;
          Z.div_mod_to_equations; lia.
      - Z.div_mod_to_equations; lia.
      - left. revert Ef. split_first; intros [= <- <- <-] || discriminate;
          simpl in Es2; try discriminate; Z.div_mod_to_equations; lia. }
    destruct t as [|c2 t]; [exact Hr|].
    pose proof (byte_of_range c2) as R2.
    destruct (utf8.outside _ _ (byte_of c2)) eqn:E2; [exact Hr|].
    apply outside_false in E2. unfold utf8.locb, utf8.hicb in E2.
    destruct (Nat.leb sz 3) eqn:Es3.
    { cbn [fst]. mask_to_mod. apply lor_ge_128.
      - apply Z.lor_nonneg. split; Z.div_mod_to_equations; lia.
      - Z.div_mod_to_equations; lia.
      - left. apply lor_ge_128; try (Z.div_mod_to_equations; lia).
        revert Ef E1. split_first; intros [= <- <- <-] || discriminate; intros;
          simpl in Es2, Es3; try discriminate;
          Z.div_mod_to_equations; lia. }
    destruct t as [|c3 t]; [exact Hr|].
    pose proof (byte_of_range c3) as R3.
    destruct (utf8.outside _ _ (byte_of c3)) eqn:E3; [exact Hr|].
    cbn [fst]. mask_to_mod. apply lor_ge_128.
    + apply Z.lor_nonneg. split; [apply Z.lor_nonneg; split|];
        Z.div_mod_to_equations; lia.
    + Z.div_mod_to_equations; lia.
    + left. apply lor_ge_128.
      * apply Z.lor_nonneg. split; Z.div_mod_to_equations; lia.
      * Z.div_mod_to_equations; lia.
      * left. apply lor_ge_128; try (Z.div_mod_to_equations; lia).
        revert Ef E1. split_first; intros [= <- <- <-] || discriminate; intros;
          simpl in Es2, Es3; try discriminate;
          Z.div_mod_to_equations; lia.
Qed.

(** ** path.Match: the pattern check does not depend on the name *)

Section PathMatch.

Import path.

Lemma decode_width (s : string) :
  s <> "" ->
  1 <= snd (utf8.DecodeRuneInString s)
  /\ snd (utf8.DecodeRuneInString s) <= String.length s.
Proof.
  destruct s as [|c0 s]; [congruence|]. intros _.
  unfold utf8.DecodeRuneInString.
  destruct (utf8.first (byte_of c0)); simpl; try lia.
  destruct s as [|c1 s]; simpl; try lia.
  destruct (utf8.outside lo hi (byte_of c1)); simpl; try lia.
  destruct (Nat.leb sz 2); simpl; try lia.
  destruct s as [|c2 s]; simpl; try lia.
  destruct (utf8.outside _ _ (byte_of c2)); simpl; try lia.
  destruct (Nat.leb sz 3); simpl; try lia.
  destruct s as [|c3 s]; simpl; try lia.
  destruct (utf8.outside _ _ (byte_of c3)); simpl; lia.
Qed.

Lemma slength_sdrop (n : nat) (s : string) :
  String.length (sdrop n s) = String.length s - n.
Proof.
  revert s. induction n as [|n IH]; intros [|c s]; simpl; try lia. apply IH.
Qed.

Lemma isEmpty_false_length (s : string) :
  isEmpty s = false <-> 0 < String.length s.
Proof. destruct s; simpl; split; intros; try lia; congruence. Qed.

Lemma getEsc_shorter (chunk rest : string) (r : Z) :
  getEsc chunk = Some (r, rest) ->
  0 < String.length rest < String.length chunk.
Proof.
  unfold getEsc. destruct chunk as [|c t]; [discriminate|].
  destruct (Ascii.eqb c "-" || Ascii.eqb c "]"); [discriminate|].
  set (chunk1 := if Ascii.eqb c "\" then t else String c t).
  assert (Hle : String.length chunk1 <= String.length (String c t)).
  { subst chunk1. destruct (Ascii.eqb c "\"); simpl; lia. }
  destruct (isEmpty chunk1) eqn:E1; [discriminate|].
  assert (Hne : chunk1 <> "") by (intros ->; discriminate).
  pose proof (decode_width chunk1 Hne) as [Hw1 Hw2].
  destruct (utf8.DecodeRuneInString chunk1) as [r0 n]. simpl in Hw1, Hw2.
  destruct ((r0 =? utf8.RuneError)%Z && Nat.eqb n 1); [discriminate|].
  destruct (isEmpty (sdrop n chunk1)) eqn:E2; [discriminate|].
  intros [= <- <-]. apply isEmpty_false_length in E2.
  rewrite slength_sdrop in *. lia.
Qed.

(** The ranges of a class are parsed the same way whatever the rune. *)
Lemma classRanges_indep (fuel : nat) (chunk : string) (r r' : Z)
      (f f' : bool) (n : nat) :
  restOf (classRanges fuel chunk r f n) = restOf (classRanges fuel chunk r' f' n).
Proof.
  revert chunk f f' n. induction fuel as [|fuel IH]; intros; [reflexivity|].
  cbn [classRanges].
  destruct (headIs "]" chunk && negb (Nat.eqb n 0)); [reflexivity|].
  destruct (getEsc chunk) as [[lo chunk1]|]; [|reflexivity].
  destruct (if headIs "-" chunk1 then getEsc (sdrop 1 chunk1) else Some (lo, chunk1))
    as [[hi chunk2]|]; [|reflexivity].
  apply IH.
Qed.

Lemma classRanges_fuel (fuel : nat) (chunk : string) (r : Z) (f : bool) (n : nat) :
  String.length chunk < fuel ->
  match classRanges fuel chunk r f n with
  | Done (_, c) => String.length c < String.length chunk
  | ErrBadPattern => True
  | OutOfFuel => False
  end.
Proof.
  revert chunk f n. induction fuel as [|fuel IH]; intros chunk f n Hlen; [lia|].
  cbn [classRanges].
  destruct (headIs "]" chunk && negb (Nat.eqb n 0)) eqn:Eh.
  { apply andb_prop in Eh as [Eh _]. destruct chunk; [discriminate|].
    simpl. lia. }
  destruct (getEsc chunk) as [[lo chunk1]|] eqn:E1; [|exact I].
  apply getEsc_shorter in E1.
  destruct (if headIs "-" chunk1 then getEsc (sdrop 1 chunk1) else Some (lo, chunk1))
    as [[hi chunk2]|] eqn:E2; [|exact I].
  assert (H2 : String.length chunk2 <= String.length chunk1).
  { destruct (headIs "-" chunk1).
    - apply getEsc_shorter in E2. rewrite slength_sdrop in E2. lia.
    - injection E2 as _ <-. lia. }
  specialize (IH chunk2 (f || ((lo <=? r) && (r <=? hi))%Z) (S n)).
  destruct (classRanges fuel chunk2 _ _ _) as [[b c]| |]; try (apply IH; lia).
  assert (String.length c < String.length chunk2) by (apply IH; lia). lia.
Qed.

(** Whether a chunk is well formed is found the same way whatever the name:
    the loop goes through the chunk to its end also after the match failed. *)
Lemma matchChunk_loop_indep (fuel : nat) (chunk s : string) (failed : bool) :
  shape (matchChunk_loop fuel chunk s failed)
  = shape (matchChunk_loop fuel chunk "" true).
Proof.
  revert chunk s failed. induction fuel as [|fuel IH]; intros; [reflexivity|].
  cbn [matchChunk_loop].
  destruct chunk as [|c ct]; [reflexivity|].
  cbn [isEmpty orb].
  destruct (Ascii.eqb c "[").
  { destruct (if failed || isEmpty s then (0%Z, s)
              else let '(r, n) := utf8.DecodeRuneInString s in (r, sdrop n s))
      as [r s1].
    pose proof (classRanges_indep fuel (if headIs "^" ct then sdrop 1 ct else ct)
                                  r 0%Z false false 0) as Hc.
    destruct (classRanges fuel _ r false 0) as [[fd c2]| |];
      destruct (classRanges fuel _ 0%Z false 0) as [[fd' c2']| |];
      simpl in Hc; try discriminate; try reflexivity.
    injection Hc as <-. etransitivity; [apply IH | symmetry; apply IH]. }
  destruct (Ascii.eqb c "?").
  { destruct (failed || isEmpty s); (etransitivity; [apply IH | symmetry; apply IH]). }
  destruct (if Ascii.eqb c "\" then ct else String c ct) as [|l lt]; [reflexivity|].
  destruct (failed || isEmpty s); (etransitivity; [apply IH | symmetry; apply IH]).
Qed.

Lemma matchChunk_loop_fuel (fuel : nat) (chunk s : string) (failed : bool) :
  String.length chunk < fuel ->
  matchChunk_loop fuel chunk s failed <> OutOfFuel.
Proof.
  revert chunk s failed. induction fuel as [|fuel IH]; intros chunk s failed Hlen; [lia|].
  cbn [matchChunk_loop].
  destruct chunk as [|c ct]; [discriminate|]. simpl in Hlen.
  destruct (Ascii.eqb c "[").
  { destruct (if failed || isEmpty s then (0%Z, s)
              else let '(r, n) := utf8.DecodeRuneInString s in (r, sdrop n s))
      as [r s1].
    set (chunk1 := if headIs "^" ct then sdrop 1 ct else ct).
    assert (H1 : String.length chunk1 <= String.length ct).
    { subst chunk1. destruct (headIs "^" ct); [rewrite slength_sdrop|]; lia. }
    pose proof (classRanges_fuel fuel chunk1 r false 0 ltac:(lia)) as Hc.
    destruct (classRanges fuel chunk1 r false 0) as [[fd c2]| |];
      [apply IH; lia | discriminate | contradiction]. }
  destruct (Ascii.eqb c "?").
  { destruct (failed || isEmpty s); apply IH; lia. }
  destruct (Ascii.eqb c "\").
  - destruct ct as [|l lt]; [discriminate|]. simpl in Hlen.
    destruct (failed || isEmpty s); apply IH; lia.
  - destruct (failed || isEmpty s); apply IH; lia.
Qed.

Lemma matchChunk_cases (chunk s : string) :
  if chunkBad chunk then matchChunk chunk s = ChunkBad
  else matchChunk chunk s = ChunkNo \/ exists t, matchChunk chunk s = ChunkOk t.
Proof.
  unfold chunkBad, matchChunk.
  pose proof (matchChunk_loop_indep (S (String.length chunk)) chunk s false) as H1.
  pose proof (matchChunk_loop_indep (S (String.length chunk)) chunk "" false) as H2.
  pose proof (matchChunk_loop_fuel (S (String.length chunk)) chunk s false ltac:(lia)) as F1.
  pose proof (matchChunk_loop_fuel (S (String.length chunk)) chunk "" false ltac:(lia)) as F2.
  rewrite <- H2 in H1. clear H2.
  destruct (matchChunk_loop _ chunk s false) as [[t fl]| |];
    destruct (matchChunk_loop _ chunk "" false) as [[t' fl']| |];
    simpl in H1; try discriminate; try congruence.
  destruct fl'; destruct fl; eauto.
Qed.

Lemma dropStars_spec (p : string) :
  headIs "*" (snd (dropStars p)) = false
  /\ (if fst (dropStars p)
      then String.length (snd (dropStars p)) < String.length p
      else snd (dropStars p) = p).
Proof.
  induction p as [|c p [IH1 IH2]]; [split; reflexivity|].
  cbn [dropStars]. destruct (Ascii.eqb c "*") eqn:E; cbn [fst snd].
  - split; [exact IH1|]. simpl. destruct (fst (dropStars p)); [lia|].
    rewrite IH2. lia.
  - split; [|reflexivity]. simpl. exact E.
Qed.

Lemma scanEnd_le (inrange : bool) (p : string) :
  scanEnd inrange p <= String.length p.
Proof.
  revert inrange.
  induction p as [p IH] using (induction_ltof1 _ String.length); unfold ltof in IH.
  intros inrange. destruct p as [|c t]; [simpl; lia|].
  cbn [scanEnd].
  destruct (Ascii.eqb c "\").
  { destruct t as [|c' t']; simpl; [lia|].
    specialize (IH t' ltac:(simpl; lia) inrange). lia. }
  pose proof (IH t ltac:(simpl; lia)) as IHt.
  destruct (Ascii.eqb c "["); [specialize (IHt true); simpl; lia|].
  destruct (Ascii.eqb c "]"); [specialize (IHt false); simpl; lia|].
  destruct (Ascii.eqb c "*");
    [destruct inrange; [specialize (IHt true); simpl; lia | lia]|].
  specialize (IHt inrange). simpl. lia.
Qed.

Lemma scanEnd_pos (c : ascii) (t : string) :
  Ascii.eqb c "*" = false -> 1 <= scanEnd false (String c t).
Proof.
  intros E. cbn [scanEnd]. rewrite E.
  destruct (Ascii.eqb c "\"); [destruct t; lia|].
  destruct (Ascii.eqb c "["); [lia|].
  destruct (Ascii.eqb c "]"); lia.
Qed.

(** Every round of [Match] shortens the pattern; an empty chunk ends it. *)
Lemma scanChunk_spec (pattern : string) (star : bool) (chunk rest : string) :
  pattern <> "" ->
  scanChunk pattern = (star, chunk, rest) ->
  String.length rest < String.length pattern
  /\ (chunk = "" -> rest = "").
Proof.
  intros Hne. unfold scanChunk.
  pose proof (dropStars_spec pattern) as [Hh Hs].
  destruct (dropStars pattern) as [st p]. cbn [fst snd] in *.
  intros [= <- <- <-].
  pose proof (scanEnd_le false p) as Hle.
  destruct p as [|c t].
  - simpl. split; [|reflexivity]. destruct st; [simpl in Hs; lia|].
    subst pattern. congruence.
  - simpl in Hh. pose proof (scanEnd_pos c t Hh) as Hpos.
    rewrite slength_sdrop. split.
    + destruct st; [lia | rewrite <- Hs; lia].
    + destruct (scanEnd false (String c t)); [lia | discriminate].
Qed.

Lemma checkRest_more (f1 f2 : nat) (pattern : string) :
  String.length pattern < f1 ->
  String.length pattern < f2 ->
  checkRest f1 pattern = checkRest f2 pattern.
Proof.
  revert f2 pattern. induction f1 as [|f1 IH]; intros f2 pattern H1 H2; [lia|].
  destruct f2 as [|f2]; [lia|]. cbn [checkRest].
  destruct (isEmpty pattern) eqn:E; [reflexivity|].
  destruct (scanChunk pattern) as [[star chunk] rest] eqn:Es.
  apply scanChunk_spec in Es as [Hlt _]; [|intros ->; discriminate].
  destruct (matchChunk chunk ""); try reflexivity; apply IH; lia.
Qed.

Lemma chunk_never_fuel (chunk s : string) : matchChunk chunk s <> ChunkFuel.
Proof.
  pose proof (matchChunk_cases chunk s) as H.
  destruct (chunkBad chunk); [congruence|].
  destruct H as [H|[t H]]; congruence.
Qed.

Lemma checkRest_cases (fuel : nat) (pattern : string) :
  String.length pattern < fuel ->
  checkRest fuel pattern
  = if badPattern pattern then ErrBadPattern else Done false.
Proof.
  intros Hlen. unfold badPattern.
  rewrite (checkRest_more fuel (S (String.length pattern))) by lia.
  clear fuel Hlen.
  induction pattern as [pattern IH] using (induction_ltof1 _ String.length).
  unfold ltof in IH. cbn [checkRest].
  destruct (isEmpty pattern) eqn:E; [reflexivity|].
  destruct (scanChunk pattern) as [[star chunk] rest] eqn:Es.
  apply scanChunk_spec in Es as [Hlt _]; [|intros ->; discriminate].
  pose proof (chunk_never_fuel chunk "") as Hf.
  rewrite (checkRest_more _ (S (String.length rest))) by lia.
  destruct (matchChunk chunk ""); try reflexivity; try congruence;
    apply IH; exact Hlt.
Qed.

Lemma badPattern_unfold (pattern : string) (star : bool) (chunk rest : string) :
  pattern <> "" ->
  scanChunk pattern = (star, chunk, rest) ->
  badPattern pattern = chunkBad chunk || badPattern rest.
Proof.
  intros Hne Es. unfold badPattern at 1. cbn [checkRest].
  destruct (isEmpty pattern) eqn:E; [apply isEmpty_true in E; congruence|].
  rewrite Es. pose proof (scanChunk_spec _ _ _ _ Hne Es) as [Hlt _].
  rewrite (checkRest_cases _ rest) by lia.
  unfold chunkBad. pose proof (chunk_never_fuel chunk "") as Hf.
  destruct (matchChunk chunk ""); try congruence; simpl;
    destruct (badPattern rest); reflexivity.
Qed.

Lemma starLoop_good (chunk : string) (last : bool) (name : string) :
  chunkBad chunk = false ->
  exists o, starLoop chunk last name = Done o.
Proof.
  intros Hg. induction name as [|c name IH]; [simpl; eauto|].
  cbn [starLoop]. destruct (Ascii.eqb c "/"); [eauto|].
  pose proof (matchChunk_cases chunk name) as H. rewrite Hg in H.
  destruct H as [-> | [t ->]]; [exact IH|].
  destruct (last && negb (isEmpty t)); eauto.
Qed.

(** [Match] returns [ErrBadPattern] exactly for the malformed patterns, on
    every name, and a verdict otherwise; its loops never use up their bounds. *)
Lemma Match_loop_cases (fuel : nat) (pattern name : string) :
  String.length pattern < fuel ->
  if badPattern pattern then Match_loop fuel pattern name = ErrBadPattern
  else exists b, Match_loop fuel pattern name = Done b.
Proof.
  revert pattern name. induction fuel as [|fuel IH]; intros pattern name Hlen; [lia|].
  cbn [Match_loop].
  destruct (isEmpty pattern) eqn:E.
  { apply isEmpty_true in E. subst pattern. simpl. eauto. }
  assert (Hne : pattern <> "") by (intros ->; discriminate).
  destruct (scanChunk pattern) as [[star chunk] rest] eqn:Es.
  pose proof (scanChunk_spec _ _ _ _ Hne Es) as [Hlt Hrest].
  rewrite (badPattern_unfold _ _ _ _ Hne Es).
  destruct (star && isEmpty chunk) eqn:Ee.
  { apply andb_prop in Ee as [_ Ee]. apply isEmpty_true in Ee.
    rewrite (Hrest Ee), Ee. simpl. eauto. }
  pose proof (matchChunk_cases chunk name) as Hc.
  destruct (chunkBad chunk) eqn:Eb; [rewrite Hc; reflexivity|].
  cbn [orb].
  assert (Hrec : forall t,
             if badPattern rest then Match_loop fuel rest t = ErrBadPattern
             else exists b, Match_loop fuel rest t = Done b)
    by (intros t; apply IH; lia).
  assert (Hafter :
            if badPattern rest
            then (if star
                  then match starLoop chunk (isEmpty rest) name with
                       | Done (Some t) => Match_loop fuel rest t
                       | Done None => checkRest fuel rest
                       | ErrBadPattern => ErrBadPattern
                       | OutOfFuel => OutOfFuel
                       end
                  else checkRest fuel rest) = ErrBadPattern
            else exists b,
                (if star
                 then match starLoop chunk (isEmpty rest) name with
                      | Done (Some t) => Match_loop fuel rest t
                      | Done None => checkRest fuel rest
                      | ErrBadPattern => ErrBadPattern
                      | OutOfFuel => OutOfFuel
                      end
                 else checkRest fuel rest) = Done b).
  { rewrite (checkRest_cases fuel rest) by lia.
    destruct star.
    - destruct (starLoop_good chunk (isEmpty rest) name Eb) as [o ->].
      destruct o as [t|]; [apply Hrec|].
      destruct (badPattern rest); eauto.
    - destruct (badPattern rest); eauto. }
  destruct Hc as [-> | [t ->]]; [exact Hafter|].
  destruct (isEmpty t || negb (isEmpty rest)); [apply Hrec | exact Hafter].
Qed.

End PathMatch.

(** [path.Match] returns: the bounds of its loops are never used up. *)
Lemma Match_returns (pattern name : string) :
  path.Match pattern name <> OutOfFuel.
Proof.
  unfold path.Match.
  pose proof (Match_loop_cases (S (String.length pattern)) pattern name
                               ltac:(lia)) as H.
  destruct (badPattern pattern); [congruence|].
  destruct H as [b H]. congruence.
Qed.

(** Being malformed is a property of the pattern alone: [path.Match] reports
    it on some name exactly when it reports it on every name. *)
Lemma badPattern_iff (pattern : string) :
  badPattern pattern = true
  <-> exists name, path.Match pattern name = ErrBadPattern.
Proof.
  split.
  - intros H. exists "". unfold path.Match.
    pose proof (Match_loop_cases (S (String.length pattern)) pattern ""
                                 ltac:(lia)) as Hc.
    rewrite H in Hc. exact Hc.
  - intros [name H]. unfold path.Match in H.
    pose proof (Match_loop_cases (S (String.length pattern)) pattern name
                                 ltac:(lia)) as Hc.
    destruct (badPattern pattern); [reflexivity|].
    destruct Hc as [b Hc]. congruence.
Qed.

Lemma matchPattern_well_formed (pattern name : string) :
  badPattern pattern = false ->
  path.Match pattern name = Done (matchPattern pattern name).
Proof.
  intros H. unfold matchPattern, path.Match.
  pose proof (Match_loop_cases (S (String.length pattern)) pattern name
                               ltac:(lia)) as Hc.
  rewrite H in Hc. destruct Hc as [b ->]. reflexivity.
Qed.

(** C6. For a malformed glob pattern and any candidate string,
    [path.Match] reports the bad pattern and [matchPattern] answers with the
    exact equality of pattern and candidate: a boolean, no error. *)
Theorem C6_malformed_glob_degrades_to_equality (pattern name : string) :
  badPattern pattern = true ->
  path.Match pattern name = ErrBadPattern
  /\ matchPattern pattern name = String.eqb pattern name.
Proof.
  intros H.
  assert (E : path.Match pattern name = ErrBadPattern).
  { unfold path.Match.
    pose proof (Match_loop_cases (S (String.length pattern)) pattern name
                                 ltac:(lia)) as Hc.
    rewrite H in Hc. exact Hc. }
  split; [exact E|]. unfold matchPattern. rewrite E. reflexivity.
Qed.

Lemma C6_witness :
  badPattern "[a-" = true
  /\ (path.Match "[a-" "b" = ErrBadPattern
      /\ matchPattern "[a-" "b" = String.eqb "[a-" "b").
Proof.
  split; [vm_compute; reflexivity|].
  apply (C6_malformed_glob_degrades_to_equality "[a-" "b").
  vm_compute. reflexivity.
Defined.

(** ** The matcher *)

Section Matcher.

Import regexp.

Lemma lastByte_app (d : option ascii) (a b : string) :
  lastByte d (a ++ b) = lastByte (lastByte d a) b.
Proof. revert d. induction a as [|c a IH]; intros d; simpl; [reflexivity | apply IH]. Qed.

Lemma stake_add (a b : nat) (s : string) :
  stake (a + b) s = (stake a s ++ stake b (sdrop a s))%string.
Proof.
  revert s. induction a as [|a IH]; intros s; [reflexivity|].
  destruct s as [|c s]; simpl; [destruct b; reflexivity|].
  rewrite IH. reflexivity.
Qed.

Lemma sdrop_add (a b : nat) (s : string) :
  sdrop (a + b) s = sdrop b (sdrop a s).
Proof.
  revert s. induction a as [|a IH]; intros s; [reflexivity|].
  destruct s as [|c s]; simpl; [destruct b; reflexivity | apply IH].
Qed.

Lemma consume_consume (a b : nat) (t : thread) :
  consume b (consume a t) = consume (a + b) t.
Proof.
  unfold consume. cbn [pos prev rest caps].
  rewrite stake_add, lastByte_app, sdrop_add, Nat.add_assoc. reflexivity.
Qed.

Lemma sdrop_all (n : nat) (s : string) :
  String.length s <= n -> sdrop n s = "".
Proof.
  revert s. induction n as [|n IH]; intros [|c s]; simpl; intros H;
    try reflexivity; try lia. apply IH. lia.
Qed.

Lemma stake_all (n : nat) (s : string) :
  String.length s <= n -> stake n s = s.
Proof.
  revert s. induction n as [|n IH]; intros [|c s]; simpl; intros H;
    try reflexivity; try lia. rewrite IH by lia. reflexivity.
Qed.

Lemma byte_of_inj (a b : ascii) : byte_of a = byte_of b -> a = b.
Proof.
  unfold byte_of. intros H. apply N2Z.inj in H.
  rewrite <- (ascii_N_embedding a), <- (ascii_N_embedding b), H. reflexivity.
Qed.

Lemma noNewline_cons (c : ascii) (s : string) :
  noNewline (String c s) = true ->
  byte_of c <> 0x0A%Z /\ noNewline s = true.
Proof.
  unfold noNewline. cbn [strings.ContainsByte]. intros H.
  apply negb_true_iff, orb_false_elim in H as [H1 H2]. split.
  - intros E. change 0x0A%Z with (byte_of "010") in E.
    apply byte_of_inj in E. subst c. discriminate.
  - rewrite H2. reflexivity.
Qed.

Lemma noNewline_sdrop (n : nat) (s : string) :
  noNewline s = true -> noNewline (sdrop n s) = true.
Proof.
  revert s. induction n as [|n IH]; intros [|c s] H; simpl; try assumption.
  apply IH. apply (noNewline_cons c s H).
Qed.

Lemma noNewline_app (a b : string) :
  noNewline (a ++ b) = noNewline a && noNewline b.
Proof.
  unfold noNewline. induction a as [|c a IH]; simpl; [reflexivity|].
  destruct (Ascii.eqb c "010"); simpl; [reflexivity | exact IH].
Qed.

(** [.] steps over the rune ahead, unless it is a newline. *)
Lemma m_any_step (t : thread) (k : thread -> option thread)
      (c : ascii) (s : string) :
  rest t = String c s ->
  byte_of c <> 0x0A%Z ->
  m true AnyCharNotNL t k
  = k (consume (snd (utf8.DecodeRuneInString (rest t))) t).
Proof.
  intros Hr Hc. cbn [m]. rewrite Hr.
  pose proof (decode_width (String c s) ltac:(discriminate)) as [Hw _].
  assert (Hn : fst (utf8.DecodeRuneInString (String c s)) <> 0x0A%Z).
  { destruct (Z.ltb_spec (byte_of c) utf8.RuneSelf) as [Hlt|Hge].
    - rewrite decode_ascii by exact Hlt. exact Hc.
    - pose proof (decode_high c s Hge) as Hh. unfold utf8.RuneSelf in Hh. lia. }
  destruct (utf8.DecodeRuneInString (String c s)) as [r w].
  cbn [fst snd] in *. destruct w as [|w]; [lia|].
  destruct (Z.eqb_spec r 0x0A); [congruence | reflexivity].
Qed.

Lemma m_any_end (t : thread) (k : thread -> option thread) :
  rest t = "" -> m true AnyCharNotNL t k = None.
Proof. intros Hr. cbn [m]. rewrite Hr. reflexivity. Qed.

(** [.+] on a text without newline runs to its end, when the continuation
    accepts there. *)
Lemma nonempty_cons (s : string) : s <> "" -> exists c s', s = String c s'.
Proof. destruct s as [|c s']; [congruence | eauto]. Qed.

Lemma rounds_any_all (k : thread -> option thread) (x : thread) (n : nat) :
  forall t0 : thread,
    noNewline (rest t0) = true ->
    rest t0 <> "" ->
    String.length (rest t0) <= S n ->
    k (consume (String.length (rest t0)) t0) = Some x ->
    rounds (m true AnyCharNotNL) k n t0 = Some x.
Proof.
  induction n as [|n IH]; intros t0 Hnl Hne Hlen Hk.
  - destruct (nonempty_cons _ Hne) as (c & s & Hr).
    assert (Hc : byte_of c <> 0x0A%Z).
    { rewrite Hr in Hnl. apply (noNewline_cons c s Hnl). }
    cbn [rounds]. rewrite (m_any_step t0 _ c s Hr Hc).
    pose proof (decode_width (rest t0) Hne) as [Hw1 Hw2].
    replace (snd (utf8.DecodeRuneInString (rest t0)))
      with (String.length (rest t0)) by lia.
    exact Hk.
  - destruct (nonempty_cons _ Hne) as (c & s & Hr).
    assert (Hc : byte_of c <> 0x0A%Z).
    { rewrite Hr in Hnl. apply (noNewline_cons c s Hnl). }
    cbn [rounds]. rewrite (m_any_step t0 _ c s Hr Hc).
    pose proof (decode_width (rest t0) Hne) as [Hw1 Hw2].
    set (w := snd (utf8.DecodeRuneInString (rest t0))) in *.
    set (t1 := consume w t0).
    assert (Hr1 : rest t1 = sdrop w (rest t0)) by reflexivity.
    assert (Hl1 : String.length (rest t1) = String.length (rest t0) - w)
      by (rewrite Hr1; apply slength_sdrop).
    assert (Hk1 : k (consume (String.length (rest t1)) t1) = Some x).
    { subst t1. rewrite consume_consume. rewrite Hl1.
      replace (w + (String.length (rest t0) - w)) with (String.length (rest t0)) by lia.
      exact Hk. }
    destruct (path.isEmpty (rest t1)) eqn:He.
    + apply isEmpty_true in He.
      assert (Hk2 : k t1 = Some x).
      { rewrite He in Hk1. cbn [String.length] in Hk1.
        unfold consume in Hk1. cbn [stake sdrop lastByte] in Hk1.
        rewrite Nat.add_0_r in Hk1. destruct t1; exact Hk1. }
      destruct n as [|n']; cbn [rounds]; rewrite (m_any_end t1) by exact He;
        exact Hk2.
    + assert (Hne1 : rest t1 <> "") by (intros E; rewrite E in He; discriminate).
      rewrite (IH t1); [reflexivity| |exact Hne1| |exact Hk1].
      * rewrite Hr1. apply noNewline_sdrop. exact Hnl.
      * lia.
Qed.

Lemma upper_colon (a : ascii) :
  Ascii.eqb (strings.upperByte ":") (strings.upperByte a) = Ascii.eqb ":" a.
Proof. destruct a as [[] [] [] [] [] [] [] []]; reflexivity. Qed.

Lemma isWord_upper (c : ascii) :
  IsWordChar (byte_of (strings.upperByte c)) = IsWordChar (byte_of c).
Proof. destruct c as [[] [] [] [] [] [] [] []]; reflexivity. Qed.

Lemma upper_idem (c : ascii) :
  strings.upperByte (strings.upperByte c) = strings.upperByte c.
Proof. destruct c as [[] [] [] [] [] [] [] []]; reflexivity. Qed.

Lemma upper_ascii (c : ascii) :
  (byte_of (strings.upperByte c) < utf8.RuneSelf)%Z ->
  (byte_of c < utf8.RuneSelf)%Z.
Proof. destruct c as [[] [] [] [] [] [] [] []]; vm_compute; congruence. Qed.

Lemma litPrefix_colon (s : string) :
  litPrefix true ":" s = path.headIs ":" s.
Proof.
  destruct s as [|a s]; [reflexivity|].
  cbn [litPrefix byteEq path.headIs]. rewrite upper_colon, andb_true_r.
  apply Ascii.eqb_sym.
Qed.

(** The equations of the matcher. *)
Lemma m_literal (f : bool) (w : string) (t : thread) (k : thread -> option thread) :
  m f (Literal w) t k
  = if litPrefix f w (rest t) then k (consume (String.length w) t) else None.
Proof. reflexivity. Qed.

Lemma m_boundary (f : bool) (t : thread) (k : thread -> option thread) :
  m f WordBoundary t k
  = if xorb (wordBefore t) (wordAfter t) then k t else None.
Proof. reflexivity. Qed.

Lemma m_concat (f : bool) (r1 r2 : Regexp) (t : thread) (k : thread -> option thread) :
  m f (Concat r1 r2) t k = m f r1 t (fun t' => m f r2 t' k).
Proof. reflexivity. Qed.

Lemma m_alternate (f : bool) (r1 r2 : Regexp) (t : thread) (k : thread -> option thread) :
  m f (Alternate r1 r2) t k
  = match m f r1 t k with Some x => Some x | None => m f r2 t k end.
Proof. reflexivity. Qed.

Lemma m_quest (f : bool) (r : Regexp) (t : thread) (k : thread -> option thread) :
  m f (Quest r) t k
  = match m f r t k with Some x => Some x | None => k t end.
Proof. reflexivity. Qed.

Lemma m_plus (f : bool) (r : Regexp) (t : thread) (k : thread -> option thread) :
  m f (Plus r) t k = rounds (m f r) k (String.length (rest t)) t.
Proof. reflexivity. Qed.

Lemma m_capture (f : bool) (n : nat) (r : Regexp) (t : thread)
      (k : thread -> option thread) :
  m f (Capture n r) t k = m f r t (fun t' => k (setCap n (pos t, pos t') t')).
Proof. reflexivity. Qed.

Lemma rounds_any_end (k : thread -> option thread) (n : nat) (t : thread) :
  rest t = "" -> rounds (m true AnyCharNotNL) k n t = None.
Proof. intros Hr. destruct n; cbn [rounds]; apply m_any_end; exact Hr. Qed.

Lemma m_group2 (p : nat) (t1 : thread) :
  noNewline (rest t1) = true ->
  m true (Quest (Capture 2 (Plus AnyCharNotNL))) t1 (matchEnd p)
  = Some (afterColon p t1).
Proof.
  intros Hnl. rewrite m_quest, m_capture, m_plus. unfold afterColon.
  destruct (path.isEmpty (rest t1)) eqn:He.
  - apply isEmpty_true in He. rewrite rounds_any_end by exact He. reflexivity.
  - assert (Hne : rest t1 <> "") by (intros E; rewrite E in He; discriminate).
    erewrite rounds_any_all; [reflexivity|exact Hnl|exact Hne|lia|].
    reflexivity.
Qed.

Lemma m_text (p : nat) (t : thread) :
  noNewline (rest t) = true ->
  m true re_text t (matchEnd p)
  = Some (afterColon p (if path.headIs ":" (rest t) then consume 1 t else t)).
Proof.
  intros Hnl. unfold re_text. rewrite m_concat, m_quest, m_literal.
  rewrite litPrefix_colon. cbn [String.length].
  destruct (path.headIs ":" (rest t)) eqn:Hc.
  - rewrite m_group2; [reflexivity|].
    cbn [consume rest]. apply noNewline_sdrop. exact Hnl.
  - rewrite m_group2 by exact Hnl. reflexivity.
Qed.

Lemma litPrefix_head (p a : ascii) (w s : string) :
  litPrefix true (String p w) (String a s) = true ->
  strings.upperByte a = strings.upperByte p.
Proof.
  cbn [litPrefix byteEq]. intros H. apply andb_prop in H as [H _].
  apply Ascii.eqb_eq in H. congruence.
Qed.

(** The keywords begin with different letters: at most one lies ahead. *)
Lemma keywords_exclusive (K1 K2 s : string) :
  In K1 keywords -> In K2 keywords ->
  litPrefix true K1 s = true -> litPrefix true K2 s = true -> K1 = K2.
Proof.
  intros H1 H2 L1 L2.
  destruct s as [|a s].
  { cbn in H1. destruct H1 as [<-|[<-|[<-|[<-|[]]]]]; discriminate. }
  cbn in H1, H2.
  destruct H1 as [<-|[<-|[<-|[<-|[]]]]];
    destruct H2 as [<-|[<-|[<-|[<-|[]]]]]; try reflexivity;
    apply litPrefix_head in L1; apply litPrefix_head in L2;
    rewrite L1 in L2; vm_compute in L2; discriminate.
Qed.

Lemma kwAt_some (s K : string) :
  kwAt s = Some K -> In K keywords /\ litPrefix true K s = true.
Proof.
  unfold kwAt. intros H. apply find_some in H. exact H.
Qed.

Lemma kwAt_found (s K : string) :
  In K keywords -> litPrefix true K s = true -> kwAt s = Some K.
Proof.
  intros HK HL. unfold kwAt.
  destruct (List.find (fun K0 => litPrefix true K0 s) keywords) as [K'|] eqn:E.
  - apply find_some in E as [HK' HL'].
    f_equal. apply (keywords_exclusive K' K s); assumption.
  - exfalso. pose proof (find_none _ _ E K HK) as Hn. cbv beta in Hn. congruence.
Qed.

(** The alternation steps over the keyword ahead; the other alternatives
    cannot match where one did. *)
Lemma m_keywords (t : thread) (k : thread -> option thread) :
  m true re_keywords t k
  = match kwAt (rest t) with
    | Some K => k (consume (String.length K) t)
    | None => None
    end.
Proof.
  unfold re_keywords. rewrite !m_alternate, !m_literal.
  destruct (kwAt (rest t)) as [K|] eqn:E.
  - apply kwAt_some in E as [HK HL].
    assert (Hx : forall K', In K' keywords -> K' <> K ->
                            litPrefix true K' (rest t) = false).
    { intros K' HK' Hne. destruct (litPrefix true K' (rest t)) eqn:E'; [|reflexivity].
      exfalso. apply Hne. apply (keywords_exclusive K' K (rest t)); assumption. }
    cbn in HK. destruct HK as [<-|[<-|[<-|[<-|[]]]]]; rewrite HL;
      rewrite ?(Hx "TODO"), ?(Hx "FIXME"), ?(Hx "BUG"), ?(Hx "NOTE")
        by (cbn; intuition discriminate);
      destruct (k _); reflexivity.
  - unfold kwAt in E.
    rewrite (find_none _ _ E "TODO"), (find_none _ _ E "FIXME"),
            (find_none _ _ E "BUG"), (find_none _ _ E "NOTE")
      by (cbn; intuition).
    reflexivity.
Qed.

(** [pattern] at a thread, for any continuation. *)
Lemma m_pattern (t : thread) (k : thread -> option thread) :
  m true pattern t k
  = if xorb (wordBefore t) (wordAfter t) then
      match kwAt (rest t) with
      | Some K =>
        if xorb (wordBefore (keywordStep K t)) (wordAfter (keywordStep K t))
        then m true re_text (keywordStep K t) k
        else None
      | None => None
      end
    else None.
Proof.
  unfold pattern. rewrite m_concat, m_boundary.
  destruct (xorb (wordBefore t) (wordAfter t)); [|reflexivity].
  rewrite m_concat, m_capture, m_keywords.
  destruct (kwAt (rest t)) as [K|]; [|reflexivity].
  rewrite m_concat, m_boundary. reflexivity.
Qed.

Lemma ToUpper_length (s : string) :
  String.length (strings.ToUpper s) = String.length s.
Proof. induction s as [|c s IH]; simpl; [reflexivity | now rewrite IH]. Qed.

Lemma litPrefix_ToUpper (kw post : string) :
  litPrefix true (strings.ToUpper kw) (kw ++ post) = true.
Proof.
  induction kw as [|c kw IH]; [reflexivity|].
  cbn [strings.ToUpper String.append litPrefix byteEq].
  rewrite upper_idem, Ascii.eqb_refl. exact IH.
Qed.

Lemma isKeyword_In (kw : string) :
  isKeyword kw = true <-> In (strings.ToUpper kw) keywords.
Proof.
  unfold isKeyword. rewrite existsb_exists. split.
  - intros (K & HK & E). apply String.eqb_eq in E. rewrite E. exact HK.
  - intros H. exists (strings.ToUpper kw). split; [exact H | apply String.eqb_refl].
Qed.

(** What lies ahead where a keyword matches: a word of its length that is
    the keyword up to case, made of ASCII word characters. *)
Lemma keyword_ahead (K s : string) :
  In K keywords ->
  litPrefix true K s = true ->
  strings.ToUpper (stake (String.length K) s) = K
  /\ startsWithWordChar s = true
  /\ (forall d, exists c,
         lastByte d (stake (String.length K) s) = Some c
         /\ IsWordChar (byte_of c) = true)
  /\ highPrefix 1 s = false.
Proof.
  intros HK HL. cbn in HK.
  destruct HK as [<-|[<-|[<-|[<-|[]]]]];
    repeat (destruct s as [|?c s]; [discriminate|];
            cbn [litPrefix byteEq] in HL;
            apply andb_prop in HL as [?Hc HL]);
    cbn [String.length stake strings.ToUpper lastByte startsWithWordChar highPrefix];
    repeat match goal with
           | H : Ascii.eqb (strings.upperByte ?k) (strings.upperByte ?c) = true |- _ =>
             apply Ascii.eqb_eq in H;
             let v := eval vm_compute in (strings.upperByte k) in
             change (strings.upperByte k) with v in H;
             symmetry in H
           end;
    repeat match goal with
           | H : strings.upperByte ?c = _ |- _ =>
             assert (IsWordChar (byte_of c) = true)
               by (rewrite <- (isWord_upper c), H; reflexivity);
             assert (byte_of c < utf8.RuneSelf)%Z
               by (apply upper_ascii; rewrite H; reflexivity);
             rewrite H; clear H
           end;
    (split; [reflexivity|]); (split; [assumption|]);
    (split; [intros d; eexists; split; [reflexivity | assumption]|]);
    rewrite andb_true_r; apply Z.leb_gt; assumption.
Qed.

Lemma wordAfter_starts (t : thread) : wordAfter t = startsWithWordChar (rest t).
Proof. reflexivity. Qed.

(** Where [pattern] matches, a keyword stands as a whole word. *)
Lemma match_sound (t : thread) (k : thread -> option thread) (x : thread) :
  m true pattern t k = Some x ->
  exists kw post,
    rest t = (kw ++ post)%string
    /\ isKeyword kw = true
    /\ wordBefore t = false
    /\ startsWithWordChar post = false.
Proof.
  rewrite m_pattern. intros H.
  destruct (xorb (wordBefore t) (wordAfter t)) eqn:X1; [|discriminate].
  destruct (kwAt (rest t)) as [K|] eqn:EK; [|discriminate].
  destruct (xorb (wordBefore (keywordStep K t)) (wordAfter (keywordStep K t)))
    eqn:X2; [|discriminate].
  apply kwAt_some in EK as [HK HL].
  destruct (keyword_ahead K (rest t) HK HL) as (HU & HS & HB & _).
  exists (stake (String.length K) (rest t)), (sdrop (String.length K) (rest t)).
  split; [symmetry; apply stake_sdrop|].
  split; [apply isKeyword_In; rewrite HU; exact HK|].
  split.
  - rewrite wordAfter_starts, HS in X1. destruct (wordBefore t); [discriminate|reflexivity].
  - destruct (HB (prev t)) as (c & Hl & Hw).
    assert (Hwb : wordBefore (keywordStep K t) = true).
    { unfold wordBefore, keywordStep, setCap, consume. cbn [prev].
      rewrite Hl. exact Hw. }
    rewrite Hwb, wordAfter_starts in X2.
    unfold keywordStep, setCap, consume in X2. cbn [rest] in X2.
    destruct (startsWithWordChar _); [discriminate|reflexivity].
Qed.

(** Where a keyword stands as a whole word, [pattern] matches, and the
    groups are the keyword and the text after the optional colon. *)
Lemma match_complete (t : thread) (p : nat) (kw post : string) :
  rest t = (kw ++ post)%string ->
  isKeyword kw = true ->
  wordBefore t = false ->
  startsWithWordChar post = false ->
  noNewline post = true ->
  m true pattern t (matchEnd p)
  = Some (afterColon p (colonStep (keywordStep (strings.ToUpper kw) t))).
Proof.
  intros Hr Hk Hwb Hsp Hnl. rewrite m_pattern.
  apply isKeyword_In in Hk.
  pose proof (litPrefix_ToUpper kw post) as HL. rewrite <- Hr in HL.
  destruct (keyword_ahead _ (rest t) Hk HL) as (HU & HS & HB & _).
  rewrite wordAfter_starts, HS, Hwb. cbn [xorb].
  rewrite (kwAt_found _ _ Hk HL).
  assert (Hrest : rest (keywordStep (strings.ToUpper kw) t) = post).
  { unfold keywordStep, setCap, consume. cbn [rest].
    rewrite Hr, ToUpper_length. apply sdrop_app_length. }
  destruct (HB (prev t)) as (c & Hl & Hw).
  assert (Hwb1 : wordBefore (keywordStep (strings.ToUpper kw) t) = true).
  { unfold wordBefore, keywordStep, setCap, consume. cbn [prev].
    rewrite Hl. exact Hw. }
  rewrite Hwb1, wordAfter_starts, Hrest, Hsp. cbn [xorb].
  rewrite m_text by (rewrite Hrest; exact Hnl). reflexivity.
Qed.

Lemma threadAt_nil (p : nat) (pv : option ascii) (b : string) :
  threadAt p pv "" b = {| pos := p; prev := pv; rest := b; caps := [] |}.
Proof. unfold threadAt. cbn. rewrite Nat.add_0_r. reflexivity. Qed.

Lemma threadAt_cons (p : nat) (pv : option ascii) (c : ascii) (a b : string) :
  threadAt p pv (String c a) b = threadAt (S p) (Some c) a b.
Proof. unfold threadAt. cbn. rewrite Nat.add_succ_r. reflexivity. Qed.

Lemma highPrefix_app (k : nat) (a b : string) :
  highPrefix k (a ++ b) = true -> highPrefix 1 b = false -> highPrefix k a = true.
Proof.
  revert a. induction k as [|k IH]; intros a H Hb; [reflexivity|].
  destruct a as [|c a].
  - cbn [String.append] in H. destruct b as [|c b]; [discriminate|].
    cbn [highPrefix] in H, Hb. rewrite andb_true_r in Hb.
    apply andb_prop in H as [H _]. congruence.
  - cbn [String.append highPrefix] in H |- *.
    apply andb_prop in H as [H1 H2]. rewrite H1. cbn. apply IH; assumption.
Qed.

Section Search.

Variable re : Regexp.

(** The search returns the match at the first position where the expression
    matches, when the bytes it steps over without trying lie outside ASCII
    and an ASCII byte stands at that position. *)
Lemma search_found (a b : string) (x : thread) :
  forall (skip p : nat) (pv : option ascii),
    highPrefix skip a = true ->
    highPrefix 1 b = false ->
    (forall a1 a2, a = (a1 ++ a2)%string -> a2 <> "" ->
        m true re (threadAt p pv a1 (a2 ++ b)) (matchEnd (p + String.length a1)) = None) ->
    m true re (threadAt p pv a b) (matchEnd (p + String.length a)) = Some x ->
    search true re skip p pv (a ++ b) = Some x.
Proof.
  induction a as [|c a IH]; intros skip p pv Hhi Hb Hnone Hm.
  - destruct skip as [|skip]; [|discriminate].
    rewrite threadAt_nil in Hm.
    cbn [String.length] in Hm. rewrite Nat.add_0_r in Hm.
    unfold matchEnd in Hm.
    cbn [String.append]. destruct b; cbn [search]; rewrite Hm; reflexivity.
  - assert (Hnone' : forall a1 a2, a = (a1 ++ a2)%string -> a2 <> "" ->
              m true re (threadAt (S p) (Some c) a1 (a2 ++ b))
                (matchEnd (S p + String.length a1)) = None).
    { intros a1 a2 E Hne. specialize (Hnone (String c a1) a2).
      rewrite threadAt_cons in Hnone. cbn [String.length] in Hnone.
      rewrite Nat.add_succ_r in Hnone. apply Hnone; [|exact Hne].
      rewrite E. reflexivity. }
    assert (Hm' : m true re (threadAt (S p) (Some c) a b)
                    (matchEnd (S p + String.length a)) = Some x).
    { rewrite threadAt_cons in Hm. cbn [String.length] in Hm.
      rewrite Nat.add_succ_r in Hm. exact Hm. }
    cbn [String.append]. destruct skip as [|skip].
    + cbn [search].
      specialize (Hnone "" (String c a) eq_refl ltac:(discriminate)).
      rewrite threadAt_nil in Hnone. cbn [String.length] in Hnone.
      rewrite Nat.add_0_r in Hnone. cbn [String.append] in Hnone.
      unfold matchEnd in Hnone. rewrite Hnone.
      apply IH; try assumption.
      apply (highPrefix_app _ a b); [|exact Hb]. apply decode_skips_high.
    + cbn [search]. cbn [highPrefix] in Hhi. apply andb_prop in Hhi as [_ Hhi].
      apply IH; assumption.
Qed.

(** The search finds nothing when the expression matches nowhere. *)
Lemma search_none (s : string) :
  forall (skip p : nat) (pv : option ascii),
    (forall a1 a2, s = (a1 ++ a2)%string ->
        m true re (threadAt p pv a1 a2) (matchEnd (p + String.length a1)) = None) ->
    search true re skip p pv s = None.
Proof.
  induction s as [|c s IH]; intros skip p pv Hnone.
  - destruct skip as [|skip]; [|reflexivity]. cbn [search].
    specialize (Hnone "" "" eq_refl). rewrite threadAt_nil in Hnone.
    cbn [String.length] in Hnone. rewrite Nat.add_0_r in Hnone.
    unfold matchEnd in Hnone. rewrite Hnone. reflexivity.
  - assert (Hnone' : forall a1 a2, s = (a1 ++ a2)%string ->
              m true re (threadAt (S p) (Some c) a1 a2)
                (matchEnd (S p + String.length a1)) = None).
    { intros a1 a2 E. specialize (Hnone (String c a1) a2).
      rewrite threadAt_cons in Hnone. cbn [String.length] in Hnone.
      rewrite Nat.add_succ_r in Hnone. apply Hnone. rewrite E. reflexivity. }
    destruct skip as [|skip]; cbn [search].
    + specialize (Hnone "" (String c s) eq_refl). rewrite threadAt_nil in Hnone.
      cbn [String.length] in Hnone. rewrite Nat.add_0_r in Hnone.
      unfold matchEnd in Hnone. rewrite Hnone. apply IH. exact Hnone'.
    + apply IH. exact Hnone'.
Qed.

(** When the search finds nothing, the expression matches at no position
    that an ASCII byte marks. *)
Lemma search_none_inv (a b : string) :
  forall (skip p : nat) (pv : option ascii),
    highPrefix skip a = true ->
    highPrefix 1 b = false ->
    search true re skip p pv (a ++ b) = None ->
    m true re (threadAt p pv a b) (matchEnd (p + String.length a)) = None.
Proof.
  induction a as [|c a IH]; intros skip p pv Hhi Hb Hs.
  - destruct skip as [|skip]; [|discriminate].
    rewrite threadAt_nil.
    cbn [String.length]. rewrite Nat.add_0_r. unfold matchEnd.
    cbn [String.append] in Hs.
    destruct b; cbn [search] in Hs;
      destruct (m true re _ _); (discriminate || reflexivity).
  - rewrite threadAt_cons. cbn [String.length]. rewrite Nat.add_succ_r.
    cbn [String.append] in Hs. destruct skip as [|skip]; cbn [search] in Hs.
    + destruct (m true re _ _); [discriminate|].
      apply (IH _ _ _ (highPrefix_app _ a b (decode_skips_high c (a ++ b)) Hb) Hb Hs).
    + cbn [highPrefix] in Hhi. apply andb_prop in Hhi as [_ Hhi].
      apply (IH _ _ _ Hhi Hb Hs).
Qed.

Lemma search_some_inv (s : string) (x : thread) :
  forall (skip p : nat) (pv : option ascii),
    search true re skip p pv s = Some x ->
    exists a1 a2,
      s = (a1 ++ a2)%string
      /\ m true re (threadAt p pv a1 a2) (matchEnd (p + String.length a1)) = Some x.
Proof.
  induction s as [|c s IH]; intros skip p pv Hs.
  - destruct skip as [|skip]; [|discriminate]. cbn [search] in Hs.
    exists "", "". split; [reflexivity|]. rewrite threadAt_nil.
    cbn [String.length]. rewrite Nat.add_0_r. unfold matchEnd.
    destruct (m true re _ _); [exact Hs | discriminate].
  - assert (Hstep : forall skip',
               search true re skip' (S p) (Some c) s = Some x ->
               exists a1 a2, String c s = (a1 ++ a2)%string
                 /\ m true re (threadAt p pv a1 a2)
                      (matchEnd (p + String.length a1)) = Some x).
    { intros skip' H. destruct (IH _ _ _ H) as (a1 & a2 & E & Hm).
      exists (String c a1), a2. split; [rewrite E; reflexivity|].
      rewrite threadAt_cons. cbn [String.length]. rewrite Nat.add_succ_r.
      exact Hm. }
    destruct skip as [|skip]; cbn [search] in Hs; [|eapply Hstep; exact Hs].
    destruct (m true re _ _) as [y|] eqn:Em; [|eapply Hstep; exact Hs].
    exists "", (String c s). split; [reflexivity|]. rewrite threadAt_nil.
    cbn [String.length]. rewrite Nat.add_0_r. unfold matchEnd.
    rewrite Em. exact Hs.
Qed.

End Search.

Lemma sdrop_past (pre kw post : string) (d : nat) :
  sdrop (String.length pre + String.length kw + d) (pre ++ kw ++ post)
  = sdrop d post.
Proof.
  rewrite sdrop_add, sdrop_add, !sdrop_app_length. reflexivity.
Qed.

Lemma stripColon_length (post : string) :
  stripColon post
  = sdrop (if path.headIs ":" post then 1 else 0) post.
Proof. unfold stripColon. destruct (path.headIs ":" post); reflexivity. Qed.

(** The groups of the match that [match_complete] describes. *)
Lemma submatches (pre kw post : string) :
  let t := threadAt 0 None pre (kw ++ post) in
  let x := afterColon (0 + String.length pre)
             (colonStep (keywordStep (strings.ToUpper kw) t)) in
  submatch (pre ++ kw ++ post) (caps x) 1 = kw
  /\ submatch (pre ++ kw ++ post) (caps x) 2 = stripColon post.
Proof.
  intros t x.
  assert (Hrest : rest (keywordStep (strings.ToUpper kw) t) = post).
  { unfold keywordStep, setCap, consume, t, threadAt. cbn [rest].
    rewrite ToUpper_length. apply sdrop_app_length. }
  assert (Hpos : pos (keywordStep (strings.ToUpper kw) t)
                 = String.length pre + String.length kw).
  { unfold keywordStep, setCap, consume, t, threadAt. cbn [pos].
    rewrite ToUpper_length. reflexivity. }
  assert (Hcaps : caps (keywordStep (strings.ToUpper kw) t)
                  = [(1, (String.length pre, String.length pre + String.length kw))]).
  { unfold keywordStep, setCap, consume, t, threadAt. cbn [pos caps].
    rewrite ToUpper_length. reflexivity. }
  set (t1 := keywordStep (strings.ToUpper kw) t) in *.
  assert (Hc : rest (colonStep t1) = stripColon post
               /\ pos (colonStep t1)
                  = String.length pre + String.length kw
                    + (if path.headIs ":" post then 1 else 0)
               /\ caps (colonStep t1) = caps t1).
  { unfold colonStep, stripColon. rewrite Hrest.
    destruct (path.headIs ":" post); cbn [consume rest pos caps];
      rewrite ?Hrest, ?Hpos; repeat split; lia. }
  destruct Hc as (Hr2 & Hp2 & Hc2).
  assert (H1 : stake (String.length pre + String.length kw - String.length pre)
                     (sdrop (String.length pre) (pre ++ kw ++ post)) = kw).
  { rewrite sdrop_app_length.
    replace (String.length pre + String.length kw - String.length pre)
      with (String.length kw) by lia.
    apply stake_app_length. }
  subst x. unfold afterColon. rewrite Hr2.
  destruct (path.isEmpty (stripColon post)) eqn:He.
  - unfold submatch, setCap. cbn [caps getCap Nat.eqb]. rewrite Hc2, Hcaps.
    cbn [getCap Nat.eqb]. split; [exact H1|].
    apply isEmpty_true in He. rewrite He. reflexivity.
  - unfold submatch, setCap, consume. cbn [caps getCap Nat.eqb pos].
    rewrite Hc2, Hcaps. cbn [getCap Nat.eqb]. split; [exact H1|].
    rewrite Hp2, sdrop_past, <- stripColon_length.
    replace (String.length pre + String.length kw
             + (if path.headIs ":" post then 1 else 0)
             + String.length (stripColon post)
             - (String.length pre + String.length kw
                + (if path.headIs ":" post then 1 else 0)))
      with (String.length (stripColon post)) by lia.
    apply stake_all. lia.
Qed.

Lemma endsInWordChar_thread (pre b : string) :
  wordBefore (threadAt 0 None pre b) = endsInWordChar pre.
Proof. reflexivity. Qed.

(** What [matchLine] returns describes a whole-word keyword of the line. *)
Lemma matchLine_sound (path line : string) (n : nat) (td : Todo) :
  noNewline line = true ->
  matchLine path n line = Some td ->
  exists pre kw post,
    wholeWordAt line pre kw post
    /\ td = mkTodo path n (strings.ToUpper kw)
                   (strings.TrimSpace (stripColon post)).
Proof.
  intros Hnl. unfold matchLine, pattern_FindStringSubmatch, FindStringSubmatch.
  destruct (search true pattern 0 0 None line) as [x|] eqn:Es; [|discriminate].
  apply search_some_inv in Es as (pre & b & E & Hm).
  destruct (match_sound _ _ _ Hm) as (kw & post & Hr & Hk & Hwb & Hsp).
  cbn [threadAt rest] in Hr. subst b.
  assert (Hnp : noNewline post = true).
  { rewrite E, !noNewline_app in Hnl.
    apply andb_prop in Hnl as [_ Hnl]. apply andb_prop in Hnl as [_ Hnl].
    exact Hnl. }
  rewrite (match_complete (threadAt 0 None pre (kw ++ post)) _ kw post
             eq_refl Hk Hwb Hsp Hnp) in Hm.
  injection Hm as <-.
  destruct (submatches pre kw post) as [S1 S2]. cbv zeta in S1, S2.
  intros [= <-]. exists pre, kw, post. split.
  - split; [exact E|]. split; [exact Hk|]. split; [|exact Hsp].
    rewrite <- (endsInWordChar_thread pre (kw ++ post)). exact Hwb.
  - cbn [seq map nth]. change (0 + String.length pre) with (String.length pre) in S1, S2.
    rewrite E, S1, S2. reflexivity.
Qed.

(** A line with a whole-word keyword gets a record. *)
Lemma matchLine_complete (path line pre kw post : string) (n : nat) :
  wholeWordAt line pre kw post ->
  noNewline line = true ->
  exists td, matchLine path n line = Some td.
Proof.
  intros (E & Hk & Hwb & Hsp) Hnl.
  unfold matchLine, pattern_FindStringSubmatch, FindStringSubmatch.
  destruct (search true pattern 0 0 None line) as [x|] eqn:Es; [eauto|].
  exfalso. rewrite E in Es.
  assert (Hhi : highPrefix 1 (kw ++ post) = false).
  { apply isKeyword_In in Hk.
    apply (keyword_ahead _ _ Hk (litPrefix_ToUpper kw post)). }
  apply search_none_inv in Es; [|reflexivity|exact Hhi].
  assert (Hnp : noNewline post = true).
  { rewrite E, !noNewline_app in Hnl.
    apply andb_prop in Hnl as [_ Hnl]. apply andb_prop in Hnl as [_ Hnl].
    exact Hnl. }
  rewrite (match_complete (threadAt 0 None pre (kw ++ post)) _ kw post
             eq_refl Hk Hwb Hsp Hnp) in Es.
  discriminate.
Qed.

Lemma matchLine_none (path line : string) (n : nat) :
  (forall pre kw post, ~ wholeWordAt line pre kw post) ->
  matchLine path n line = None.
Proof.
  intros Hno. unfold matchLine, pattern_FindStringSubmatch, FindStringSubmatch.
  rewrite search_none; [reflexivity|].
  intros a1 a2 E.
  destruct (m true pattern _ _) as [x|] eqn:Em; [|reflexivity].
  exfalso. destruct (match_sound _ _ _ Em) as (kw & post & Hr & Hk & Hwb & Hsp).
  cbn [threadAt rest] in Hr. subst a2.
  apply (Hno a1 kw post). repeat split; assumption.
Qed.

(** The leftmost whole-word keyword of a line decides its record. *)
Lemma matchLine_leftmost (path line pre kw post : string) (n : nat) :
  wholeWordAt line pre kw post ->
  noNewline line = true ->
  (forall pre' kw' post',
      wholeWordAt line pre' kw' post' -> String.length pre <= String.length pre') ->
  matchLine path n line
  = Some (mkTodo path n (strings.ToUpper kw)
                 (strings.TrimSpace (stripColon post))).
Proof.
  intros (E & Hk & Hwb & Hsp) Hnl Hleft.
  assert (Hnp : noNewline post = true).
  { rewrite E, !noNewline_app in Hnl.
    apply andb_prop in Hnl as [_ Hnl]. apply andb_prop in Hnl as [_ Hnl].
    exact Hnl. }
  assert (Hhi : highPrefix 1 (kw ++ post) = false).
  { pose proof Hk as Hk'. apply isKeyword_In in Hk'.
    apply (keyword_ahead _ _ Hk' (litPrefix_ToUpper kw post)). }
  pose proof (match_complete (threadAt 0 None pre (kw ++ post))
                (0 + String.length pre) kw post eq_refl Hk Hwb Hsp Hnp) as Hm.
  unfold matchLine, pattern_FindStringSubmatch, FindStringSubmatch.
  rewrite E.
  erewrite (search_found pattern pre (kw ++ post) _ 0 0 None eq_refl Hhi);
    [| |exact Hm].
  - destruct (submatches pre kw post) as [S1 S2]. cbv zeta in S1, S2.
    cbn [seq map nth]. rewrite S1, S2. reflexivity.
  - intros a1 a2 Epre Hne.
    destruct (m true pattern (threadAt 0 None a1 (a2 ++ kw ++ post)) _)
      as [x|] eqn:Em; [|reflexivity].
    exfalso. destruct (match_sound _ _ _ Em) as (kw' & post' & Hr & Hk' & Hwb' & Hsp').
    cbn [threadAt rest] in Hr.
    assert (Hocc : wholeWordAt line a1 kw' post').
    { split; [|split; [exact Hk'|split; [exact Hwb'|exact Hsp']]].
      rewrite E, Epre, sapp_assoc, Hr. reflexivity. }
    apply Hleft in Hocc. rewrite Epre, slength_app in Hocc.
    destruct a2; [congruence | simpl in Hocc; lia].
Qed.

Lemma upper_not_newline (c k : ascii) :
  strings.upperByte c = k -> k <> "010"%char -> Ascii.eqb c "010" = false.
Proof.
  intros H Hk. destruct (Ascii.eqb_spec c "010") as [->|]; [|reflexivity].
  vm_compute in H. congruence.
Qed.

Lemma keyword_no_newline (kw : string) :
  isKeyword kw = true -> noNewline kw = true.
Proof.
  intros H. apply isKeyword_In in H. cbn in H. unfold noNewline.
  destruct H as [H|[H|[H|[H|[]]]]];
    repeat (destruct kw as [|?c kw]; [discriminate|];
            cbn [strings.ToUpper] in H; injection H as ?Hu H);
    destruct kw; try discriminate;
    cbn [strings.ContainsByte];
    repeat match goal with
           | Hu : _ = strings.upperByte ?c |- _ =>
             rewrite (upper_not_newline c _ (eq_sym Hu)) by discriminate; clear Hu
           end; reflexivity.
Qed.

End Matcher.

(** ** The lines the scanner hands to the matcher *)

Lemma contains_srev_onto (s acc : string) (c : ascii) :
  strings.ContainsByte (srev_onto acc s) c
  = strings.ContainsByte acc c || strings.ContainsByte s c.
Proof.
  revert acc. induction s as [|a s IH]; intros acc; simpl.
  - rewrite orb_false_r. reflexivity.
  - rewrite IH. simpl. destruct (Ascii.eqb a c), (strings.ContainsByte acc c),
      (strings.ContainsByte s c); reflexivity.
Qed.

Lemma noNewline_srev (s : string) : noNewline (srev s) = noNewline s.
Proof. unfold noNewline, srev. rewrite contains_srev_onto. reflexivity. Qed.

Lemma noNewline_dropCR (s : string) :
  noNewline s = true -> noNewline (bufio.dropCR s) = true.
Proof.
  intros H. unfold bufio.dropCR.
  destruct (srev s) as [|c r] eqn:E; [exact H|].
  destruct (Ascii.eqb c "013"); [|exact H].
  rewrite noNewline_srev. rewrite <- noNewline_srev, E in H.
  apply (noNewline_cons c r H).
Qed.

Lemma scanAll_no_newline (s : string) (fails : option error) :
  forall cur room,
    noNewline cur = true ->
    List.Forall (fun l => noNewline l = true)
                (fst (bufio.scanAll cur room s fails)).
Proof.
  induction s as [|c t IH]; intros cur room Hc.
  - cbn [bufio.scanAll fst]. destruct (path.isEmpty cur); constructor;
      [|constructor]. apply noNewline_dropCR. rewrite noNewline_srev. exact Hc.
  - cbn [bufio.scanAll]. destruct (Ascii.eqb c "010") eqn:Ec.
    + specialize (IH "" bufio.MaxScanTokenSize eq_refl).
      destruct (bufio.scanAll "" bufio.MaxScanTokenSize t fails) as [ls e].
      cbn [fst] in *. constructor; [|exact IH].
      apply noNewline_dropCR. rewrite noNewline_srev. exact Hc.
    + destruct room as [|[|room]]; try (cbn [fst]; constructor).
      apply IH. unfold noNewline in *. cbn [strings.ContainsByte].
      rewrite Ec. exact Hc.
Qed.

Lemma ScanLines_no_newline (f : stream) (line : string) :
  In line (fst (bufio.ScanLines f)) -> noNewline line = true.
Proof.
  intros H. unfold bufio.ScanLines in H.
  pose proof (scanAll_no_newline (data f) (fails f) "" bufio.MaxScanTokenSize
                                 eq_refl) as Hall.
  rewrite List.Forall_forall in Hall. apply Hall, H.
Qed.

(** C3. For a line (a text without newline, as every line the scanner
    yields is) in which one of the four
    keywords stands as a whole word, in any case, the matcher yields a
    record: its tag is a keyword in upper case, and for the leftmost such
    occurrence the tag is that keyword uppercased and the text is what
    follows the keyword and its optional colon, trimmed of surrounding white
    space. A line that is exactly the keyword yields the empty text. A line
    in which no keyword stands as a whole word yields no record. *)
Theorem C3_matcher_tag_and_text :
  (forall (path line pre kw post : string) (n : nat),
      wholeWordAt line pre kw post ->
      noNewline line = true ->
      (forall pre' kw' post',
          wholeWordAt line pre' kw' post' ->
          String.length pre <= String.length pre') ->
      matchLine path n line
      = Some (mkTodo path n (strings.ToUpper kw)
                     (strings.TrimSpace (stripColon post)))
      /\ In (strings.ToUpper kw) keywords)
  /\ (forall (path line pre kw post : string) (n : nat),
         wholeWordAt line pre kw post ->
         noNewline line = true ->
         exists td pre' kw' post',
           matchLine path n line = Some td
           /\ wholeWordAt line pre' kw' post'
           /\ Tag td = strings.ToUpper kw'
           /\ In (Tag td) keywords
           /\ Text td = strings.TrimSpace (stripColon post'))
  /\ (forall (path kw : string) (n : nat),
         isKeyword kw = true ->
         matchLine path n kw = Some (mkTodo path n (strings.ToUpper kw) ""))
  /\ (forall (path line : string) (n : nat),
         (forall pre kw post, ~ wholeWordAt line pre kw post) ->
         matchLine path n line = None)
  /\ (forall (f : stream) (line : string),
         In line (fst (bufio.ScanLines f)) -> noNewline line = true).
Proof.
  split; [|split; [|split; [|split]]].
  - intros path line pre kw post n Hocc Hnl Hleft. split.
    + apply (matchLine_leftmost path line pre kw post n Hocc Hnl Hleft).
    + apply isKeyword_In. apply Hocc.
  - intros path line pre kw post n Hocc Hnl.
    destruct (matchLine_complete path line pre kw post n Hocc Hnl) as [td Htd].
    destruct (matchLine_sound path line n td Hnl Htd)
      as (pre' & kw' & post' & Hocc' & ->).
    exists (mkTodo path n (strings.ToUpper kw')
                   (strings.TrimSpace (stripColon post'))), pre', kw', post'.
    repeat split; try assumption; try apply Hocc'.
    cbn [Tag]. apply isKeyword_In. apply Hocc'.
  - intros path kw n Hk.
    rewrite (matchLine_leftmost path kw "" kw "" n).
    + reflexivity.
    + split; [cbn [String.append]; rewrite sapp_nil_r; reflexivity|].
      split; [exact Hk|]. split; reflexivity.
    + apply keyword_no_newline. exact Hk.
    + intros. cbn. lia.
  - intros path line n Hno. apply matchLine_none. exact Hno.
  - exact ScanLines_no_newline.
Qed.

(** ** The worker pool *)

Section PoolProofs.

Variable fs : filesystem.
Variable reader : FileReader.

Lemma insert_split (ws : list worker) (i : nat) (w w' : worker) :
  ws !! i = Some w ->
  exists a b, ws = a ++ w :: b /\ <[i := w']> ws = a ++ w' :: b.
Proof.
  intros H. exists (take i ws), (drop (S i) ws). split.
  - symmetry. apply take_drop_middle. exact H.
  - apply insert_take_drop. apply lookup_lt_Some in H. exact H.
Qed.

Lemma busyJobs_insert (ws : list worker) (i : nat) (w w' : worker) :
  ws !! i = Some w ->
  heldJob w ++ busyJobs (<[i := w']> ws) ≡ₚ heldJob w' ++ busyJobs ws.
Proof.
  intros H. destruct (insert_split ws i w w' H) as (a & b & E1 & E2).
  rewrite E2, E1. unfold busyJobs.
  rewrite !flat_map_app. cbn [flat_map].
  rewrite !(Permutation_app_swap_app _ (flat_map heldJob a)).
  apply Permutation_app_head.
  rewrite !app_assoc. apply Permutation_app_tail.
  apply Permutation_app_comm.
Qed.

Lemma weight_insert (ws : list worker) (i : nat) (w w' : worker) :
  ws !! i = Some w ->
  list_sum (map workerWeight (<[i := w']> ws)) + workerWeight w
  = list_sum (map workerWeight ws) + workerWeight w'.
Proof.
  intros H. destruct (insert_split ws i w w' H) as (a & b & E1 & E2).
  rewrite E2, E1.
  rewrite !map_app, !list_sum_app. simpl. lia.
Qed.

(** Every step lowers the measure: no run of the pool goes on for ever. *)
Lemma step_decreases (st st' : pool) :
  step fs reader st st' -> poolMeasure st' < poolMeasure st.
Proof.
  intros H. destruct H; unfold poolMeasure; cbn [prod jobs workers producerWeight].
  - rewrite length_app. cbn [length]. lia.
  - lia.
  - pose proof (weight_insert ws i Idle (Busy j) ltac:(assumption)) as Hw.
    cbn [workerWeight length] in *. lia.
  - pose proof (weight_insert ws i (Busy j) Idle ltac:(assumption)) as Hw.
    cbn [workerWeight] in *. lia.
  - pose proof (weight_insert ws i Idle Exited ltac:(assumption)) as Hw.
    cbn [workerWeight] in *. lia.
  - lia.
Qed.

Lemma startPool_inv (n : nat) (sent : list fileJob) :
  poolInv fs reader n sent (startPool n sent).
Proof.
  unfold startPool. split; cbn [todos prod jobs closed workers].
  - unfold outstanding, busyJobs. cbn [workers jobs prod tosendOf].
    assert (E : forall k, flat_map heldJob (replicate k Idle) = []).
    { induction k as [|k IH]; [reflexivity | exact IH]. }
    rewrite E. reflexivity.
  - reflexivity.
  - intros H. apply elem_of_replicate in H as [H _]. discriminate.
  - apply length_replicate.
  - unfold jobsCap. cbn. lia.
  - discriminate.
Qed.

Lemma initPool_inv (numCPU : nat) (sent : list fileJob) :
  poolInv fs reader (numWorkers numCPU) sent (initPool numCPU sent).
Proof. apply startPool_inv. Qed.

Lemma elem_of_insert_inv (ws : list worker) (i : nat) (w x : worker) :
  x ∈ <[i := w]> ws -> x = w \/ x ∈ ws.
Proof.
  intros H. apply list_elem_of_lookup in H as [k Hk].
  destruct (decide (i = k)) as [->|Hne].
  - destruct (decide (k < length ws)) as [Hlt|Hge].
    + rewrite list_lookup_insert_eq in Hk by exact Hlt. left. congruence.
    + rewrite list_insert_ge in Hk by lia. right.
      apply list_elem_of_lookup. eauto.
  - rewrite list_lookup_insert_ne in Hk by exact Hne. right.
    apply list_elem_of_lookup. eauto.
Qed.

Lemma step_inv (n : nat) (sent : list fileJob) (st st' : pool) :
  poolInv fs reader n sent st -> step fs reader st st' ->
  poolInv fs reader n sent st'.
Proof.
  intros [Irec Icl Iex Iw Icap Iret] H.
  destruct H; cbn [todos prod jobs closed workers] in *;
    unfold outstanding in *; cbn [todos prod jobs closed workers tosendOf] in *.
  - (* send *)
    split; cbn [todos prod jobs closed workers]; try assumption.
    + unfold outstanding. cbn [workers jobs prod tosendOf].
      rewrite <- Irec. apply Permutation_app_head.
      apply Permutation_flat_map. apply Permutation_app_head.
      rewrite <- app_assoc. reflexivity.
    + intros Hx. apply Iex in Hx as [_ Hx]. discriminate.
    + rewrite length_app. cbn [length]. lia.
    + discriminate.
  - (* close *)
    split; cbn [todos prod jobs closed workers]; try assumption.
    + reflexivity.
    + intros Hx. apply Iex in Hx as [_ Hx]. discriminate.
    + discriminate.
  - (* receive *)
    split; cbn [todos prod jobs closed workers]; try assumption.
    + unfold outstanding. cbn [workers jobs prod].
      rewrite <- Irec. apply Permutation_app_head.
      apply Permutation_flat_map.
      pose proof (busyJobs_insert ws i Idle (Busy j) ltac:(assumption)) as Hb.
      cbn [heldJob app] in Hb. rewrite Hb.
      cbn [app]. apply Permutation_middle.
    + intros Hx. apply elem_of_insert_inv in Hx as [Hx|Hx]; [discriminate|].
      apply Iex in Hx as [Hx _]. discriminate.
    + rewrite length_insert. exact Iw.
    + cbn [length] in Icap. lia.
    + intros Hp. specialize (Iret Hp). exfalso.
      eapply Forall_lookup_1 in Iret; [|eassumption]. discriminate.
  - (* append *)
    split; cbn [todos prod jobs closed workers]; try assumption.
    + unfold outstanding. cbn [workers jobs prod].
      rewrite <- Irec.
      pose proof (busyJobs_insert ws i (Busy j) Idle ltac:(assumption)) as Hb.
      cbn [heldJob app] in Hb. rewrite <- Hb.
      cbn [app flat_map]. rewrite <- !app_assoc. reflexivity.
    + intros Hx. apply elem_of_insert_inv in Hx as [Hx|Hx]; [discriminate|].
      apply Iex. exact Hx.
    + rewrite length_insert. exact Iw.
    + intros Hp. specialize (Iret Hp). exfalso.
      eapply Forall_lookup_1 in Iret; [|eassumption]. discriminate.
  - (* exit *)
    split; cbn [todos prod jobs closed workers]; try assumption.
    + unfold outstanding. cbn [workers jobs prod].
      rewrite <- Irec. apply Permutation_app_head.
      apply Permutation_flat_map. apply Permutation_app_tail.
      pose proof (busyJobs_insert ws i Idle Exited ltac:(assumption)) as Hb.
      cbn [heldJob app] in Hb. exact Hb.
    + intros _. split; reflexivity.
    + rewrite length_insert. exact Iw.
    + intros Hp. specialize (Iret Hp). exfalso.
      eapply Forall_lookup_1 in Iret; [|eassumption]. discriminate.
  - (* return *)
    split; cbn [todos prod jobs closed workers]; try assumption.
    intros _. assumption.
Qed.

Lemma reachable_inv_from (n : nat) (sent : list fileJob) (st0 st : pool) :
  poolInv fs reader n sent st0 ->
  rtc (step fs reader) st0 st ->
  poolInv fs reader n sent st.
Proof.
  intros H0 H.
  apply (rtc_ind_r (R := step fs reader) (poolInv fs reader n sent) st0);
    [exact H0| |exact H].
  intros y z _ Hstep Hy. eapply step_inv; eassumption.
Qed.

Lemma reachable_inv (numCPU : nat) (sent : list fileJob) (st : pool) :
  rtc (step fs reader) (initPool numCPU sent) st ->
  poolInv fs reader (numWorkers numCPU) sent st.
Proof. apply reachable_inv_from, initPool_inv. Qed.

Lemma numWorkers_pos (numCPU : nat) : 2 <= numWorkers numCPU.
Proof. unfold numWorkers. destruct (Nat.ltb_spec numCPU 2); lia. Qed.

Lemma busyJobs_exited (ws : list worker) :
  Forall (fun w => w = Exited) ws -> busyJobs ws = [].
Proof.
  induction 1 as [|w ws Hw _ IH]; [reflexivity|]. subst w. exact IH.
Qed.

(** Safety: when the pool has returned, the records collected are those of
    all the jobs the walk sent, each job's records once, in some order. *)
Lemma returned_records (n : nat) (sent : list fileJob) (st : pool) :
  0 < n ->
  poolInv fs reader n sent st ->
  prod st = Returned ->
  todos st ≡ₚ flat_map (workerAppends fs reader) sent /\ jobs st = [] /\ closed st = true.
Proof.
  intros Hn [Irec Icl Iex Iw Icap Iret] Hp.
  specialize (Iret Hp).
  assert (Hex : Exited ∈ workers st).
  { destruct (workers st) as [|w ws]; [simpl in Iw; lia|].
    apply Forall_inv in Iret. subst w. left. }
  destruct (Iex Hex) as [Hj Hc].
  split; [|split; assumption].
  rewrite <- Irec. unfold outstanding.
  rewrite (busyJobs_exited _ Iret), Hj, Hp. cbn [tosendOf app flat_map].
  rewrite app_nil_r. reflexivity.
Qed.

Lemma workers_cases (ws : list worker) :
  (exists i j, ws !! i = Some (Busy j))
  \/ (exists i, ws !! i = Some Idle)
  \/ Forall (fun w => w = Exited) ws.
Proof.
  induction ws as [|w ws IH]; [right; right; constructor|].
  destruct w as [|j|].
  - right. left. exists 0. reflexivity.
  - left. exists 0, j. reflexivity.
  - destruct IH as [(i & j & H)|[(i & H)|H]].
    + left. exists (S i), j. exact H.
    + right. left. exists (S i). exact H.
    + right. right. constructor; [reflexivity | exact H].
Qed.

(** Progress: a state that has not returned can take a step. A full channel
    blocks the producer, and then a worker can receive or append. *)
Lemma pool_progress (n : nat) (sent : list fileJob) (st : pool) :
  0 < n ->
  poolInv fs reader n sent st ->
  prod st <> Returned ->
  exists st', step fs reader st st'.
Proof.
  intros Hn [Irec Icl Iex Iw Icap Iret] Hp.
  destruct st as [p q c ws ts]. cbn [todos prod jobs closed workers] in *.
  destruct (workers_cases ws) as [(i & j & H)|[(i & H)|H]].
  - eexists. eapply step_append. exact H.
  - destruct p as [tosend| |]; [| |congruence];
      cbn [isWalking negb] in Icl; subst c.
    + destruct tosend as [|j tosend]; [eexists; apply step_close|].
      destruct (decide (length q < jobsCap)) as [Hlt|Hfull].
      * eexists. apply step_send. exact Hlt.
      * destruct q as [|j0 q]; [unfold jobsCap in Hfull; simpl in Hfull; lia|].
        eexists. eapply step_recv. exact H.
    + destruct q as [|j q].
      * eexists. eapply step_exit. exact H.
      * eexists. eapply step_recv. exact H.
  - destruct p as [tosend| |]; [| |congruence];
      cbn [isWalking negb] in Icl; subst c.
    + exfalso. destruct ws as [|w ws]; [simpl in Iw; lia|].
      apply Forall_inv in H. subst w.
      destruct Iex as [_ Hc]; [left | discriminate].
    + eexists. apply step_return. exact H.
Qed.

Lemma returned_dec (p : producer) : p = Returned \/ p <> Returned.
Proof. destruct p; [right|right|left]; congruence. Qed.

(** The pool returns: from every reachable state some run reaches the
    return. *)
Lemma pool_returns_from (n : nat) (sent : list fileJob) (k : nat) :
  0 < n ->
  forall st,
    poolMeasure st <= k ->
    poolInv fs reader n sent st ->
    exists st', rtc (step fs reader) st st' /\ prod st' = Returned.
Proof.
  intros Hn. induction k as [|k IH]; intros st Hm Hinv;
    destruct (returned_dec (prod st)) as [Hr|Hr];
    try (exists st; split; [reflexivity | exact Hr]);
    destruct (pool_progress n sent st Hn Hinv Hr) as [st' Hs];
    pose proof (step_decreases _ _ Hs) as Hd; [lia|].
  destruct (IH st') as (st'' & Hrun & Hret); [lia | |].
  - eapply step_inv; eassumption.
  - exists st''. split; [|exact Hret]. eapply rtc_l; eassumption.
Qed.

(** After the return nothing moves: no record is appended any more. *)
Lemma returned_final (n : nat) (sent : list fileJob) (st st' : pool) :
  poolInv fs reader n sent st ->
  prod st = Returned ->
  ~ step fs reader st st'.
Proof.
  intros [_ _ _ _ _ Iret] Hp Hs. specialize (Iret Hp).
  destruct Hs; cbn [prod workers] in *; try discriminate;
    eapply Forall_lookup_1 in Iret; try eassumption; discriminate.
Qed.

(** A full channel holds the producer back: whatever step is taken, the job
    it is about to send stays the next to send. *)
Lemma full_channel_blocks (j : fileJob) (tosend q : list fileJob) (c : bool)
      (ws : list worker) (ts : list Todo) (st' : pool) :
  length q = jobsCap ->
  step fs reader (mkPool (Walking (j :: tosend)) q c ws ts) st' ->
  prod st' = Walking (j :: tosend).
Proof.
  intros Hfull Hs. inversion Hs; subst; cbn [prod]; try reflexivity; lia.
Qed.

End PoolProofs.

(** ** The walk *)

Lemma node_induction (P : node -> Prop) :
  (forall oe b re, P (FileNode oe b re)) ->
  (forall le es, Forall (fun e => P (snd e)) es -> P (DirNode le es)) ->
  forall n, P n.
Proof.
  intros HF HD.
  refine (fix IH (n : node) : P n :=
            match n with
            | FileNode oe b re => HF oe b re
            | DirNode le es =>
              HD le es
                 ((fix go (es : list (string * node))
                   : Forall (fun e => P (snd e)) es :=
                     match es with
                     | [] => @List.Forall_nil _ (fun e => P (snd e))
                     | (nm, n1) :: es' => @List.Forall_cons _ (fun e => P (snd e)) (nm, n1) es' (IH n1) (go es')
                     end) es)
            end).
Qed.

Section Walk.

Variable skip : gmap string bool.
Variable repoRoot : filepath.t.
Variable gi : option gitIgnore.
Variable root : filepath.t.
Variable reader : FileReader.

(** The callback returns [nil] or, for a directory, [SkipDir]; an error it
    is called with is swallowed. *)
Lemma visit_returns (p : filepath.t) (d : option DirEntry)
      (err : option error) (sent : list fileJob) :
  fst (visit skip repoRoot gi root reader p d err sent) = None
  \/ (fst (visit skip repoRoot gi root reader p d err sent) = Some SkipDir
      /\ snd (visit skip repoRoot gi root reader p d err sent) = sent
      /\ err = None
      /\ exists d0, d = Some d0 /\ IsDir d0 = true).
Proof.
  unfold visit. destruct err as [e|]; [left; reflexivity|].
  destruct d as [d0|]; [|left; reflexivity].
  destruct (IsDir d0) eqn:Ed.
  - repeat match goal with
           | |- context [if ?b then _ else _] => destruct b
           end;
      try (left; reflexivity);
      right; (split; [reflexivity|split; [reflexivity|split; [reflexivity|eauto]]]).
  - destruct (match gi with Some _ => _ | None => false end); left; reflexivity.
Qed.

Lemma visit_error (p : filepath.t) (d : option DirEntry) (e : error)
      (sent : list fileJob) :
  visit skip repoRoot gi root reader p d (Some e) sent = (None, sent).
Proof. reflexivity. Qed.

(** With this callback [walkDir] returns [nil] from every entry. *)
Lemma walkDir_nil (n : node) :
  forall (p : filepath.t) (name : string) (sent : list fileJob),
    fst (walkDir (visit skip repoRoot gi root reader) p name n sent) = None.
Proof.
  induction n as [oe b re|le es IH] using node_induction; intros p name sent.
  - cbn [walkDir nodeIsDir].
    destruct (visit_returns p (Some {| Name := name; IsDir := false |}) None sent)
      as [H|(H & _ & _ & d0 & [= <-] & Hd)]; [|discriminate].
    destruct (visit _ _ _ _ _ _ _ _ _) as [err st]. cbn [fst] in H. subst err.
    reflexivity.
  - cbn [walkDir nodeIsDir].
    destruct (visit_returns p (Some {| Name := name; IsDir := true |}) None sent)
      as [H|(H & _ & _ & _)];
      destruct (visit skip repoRoot gi root reader p
                      (Some {| Name := name; IsDir := true |}) None sent)
      as [err st]; cbn [fst] in H; subst err; [|reflexivity].
    assert (Hloop : forall st0,
               fst ((fix walkEntries (es0 : list (string * node)) (st1 : list fileJob)
                       {struct es0} : option error * list fileJob :=
                       match es0 with
                       | [] => (None, st1)
                       | (name1, n1) :: es' =>
                         let '(err, st2) :=
                           walkDir (visit skip repoRoot gi root reader)
                                   (filepath.Join p name1) name1 n1 st1 in
                         match err with
                         | Some e =>
                           if error_eqb e SkipDir then (None, st2) else (Some e, st2)
                         | None => walkEntries es' st2
                         end
                       end) es st0) = None).
    { induction IH as [|[name1 n1] es' Hn1 _ IHes]; intros st0; [reflexivity|].
      cbn [snd] in Hn1. specialize (Hn1 (filepath.Join p name1) name1 st0).
      destruct (walkDir _ _ _ n1 st0) as [err st2]. cbn [fst] in Hn1. subst err.
      apply IHes. }
    destruct le as [e|]; [rewrite visit_error|]; apply Hloop.
Qed.

(** An error of listing a directory changes nothing: the entries that were
    read are walked as if there had been none. *)
Lemma walkDir_listErr (p : filepath.t) (name : string) (e : error)
      (dirs : list (string * node)) (sent : list fileJob) :
  walkDir (visit skip repoRoot gi root reader) p name (DirNode (Some e) dirs) sent
  = walkDir (visit skip repoRoot gi root reader) p name (DirNode None dirs) sent.
Proof.
  cbn [walkDir nodeIsDir].
  destruct (visit skip repoRoot gi root reader p
                  (Some {| Name := name; IsDir := true |}) None sent)
    as [err st].
  destruct err; [reflexivity|]. rewrite visit_error. reflexivity.
Qed.

Lemma WalkDir_nil (fs : filesystem) (sent : list fileJob) :
  fst (WalkDir fs root (visit skip repoRoot gi root reader) sent) = None.
Proof.
  unfold WalkDir. destruct (fs_lookup fs root) as [n|].
  - pose proof (walkDir_nil n root (filepath.Base root) sent) as H.
    destruct (walkDir _ _ _ n sent) as [err st]. cbn [fst] in H. subst err.
    reflexivity.
  - rewrite visit_error. reflexivity.
Qed.

Lemma WalkDir_missing (fs : filesystem) (sent : list fileJob) :
  fs_lookup fs root = None ->
  WalkDir fs root (visit skip repoRoot gi root reader) sent = (None, sent).
Proof. intros H. unfold WalkDir. rewrite H, visit_error. reflexivity. Qed.

End Walk.

(** ** The scan as a whole *)

Lemma scanWalk_nil (fs : filesystem) (root : filepath.t)
      (ignoreDirs : list string) (reader : FileReader) :
  fst (scanWalk fs root ignoreDirs reader) = None.
Proof. unfold scanWalk, walkWith. apply WalkDir_nil. Qed.

(** What a scan returns: the error of the walk, and the records of the jobs
    the walk sent, each job's records once, in some order. *)
Lemma scan_results (fs : filesystem) (numCPU : nat) (root : filepath.t)
      (ignoreDirs : list string) (reader : FileReader)
      (res : list Todo * option error) :
  ScanDirWithReader fs numCPU root ignoreDirs reader res ->
  snd res = fst (scanWalk fs root ignoreDirs reader)
  /\ fst res ≡ₚ flat_map (workerAppends fs reader)
                         (snd (scanWalk fs root ignoreDirs reader)).
Proof.
  intros (st & Hrun & Hret & ->). cbn [fst snd]. split; [reflexivity|].
  pose proof (reachable_inv fs reader numCPU _ st Hrun) as Hinv.
  pose proof (numWorkers_pos numCPU) as Hn.
  apply (returned_records fs reader (numWorkers numCPU) _ st ltac:(lia) Hinv Hret).
Qed.

(** A scan returns. *)
Lemma scan_returns (fs : filesystem) (numCPU : nat) (root : filepath.t)
      (ignoreDirs : list string) (reader : FileReader) :
  exists res, ScanDirWithReader fs numCPU root ignoreDirs reader res.
Proof.
  pose proof (numWorkers_pos numCPU) as Hn.
  destruct (pool_returns_from fs reader (numWorkers numCPU)
              (snd (scanWalk fs root ignoreDirs reader))
              (poolMeasure (initPool numCPU (snd (scanWalk fs root ignoreDirs reader))))
              ltac:(lia) _ (le_n _) (initPool_inv fs reader numCPU _))
    as (st & Hrun & Hret).
  eexists. exists st. split; [exact Hrun|]. split; [exact Hret | reflexivity].
Qed.

(** C1, as the code has it. Every error the walk meets is swallowed by the
    callback, also the one for a root that is not there or cannot be listed:
    the walk returns [nil], so does every scan, and the records of the jobs
    sent are returned. An error of listing a directory changes nothing in
    the walk, which goes on with the entries read. *)
Theorem C1_walk_errors_are_swallowed :
  (forall fs root ignoreDirs reader,
      fst (scanWalk fs root ignoreDirs reader) = None)
  /\ (forall fs numCPU root ignoreDirs reader res,
         ScanDirWithReader fs numCPU root ignoreDirs reader res ->
         snd res = None
         /\ fst res ≡ₚ flat_map (workerAppends fs reader)
                                (snd (scanWalk fs root ignoreDirs reader)))
  /\ (forall fs numCPU root ignoreDirs reader,
         exists res, ScanDirWithReader fs numCPU root ignoreDirs reader res)
  /\ (forall fs root ignoreDirs reader,
         fs_lookup fs root = None ->
         scanWalk fs root ignoreDirs reader = (None, []))
  /\ (forall skip repoRoot gi root reader p name e dirs sent,
         walkDir (visit skip repoRoot gi root reader) p name
                 (DirNode (Some e) dirs) sent
         = walkDir (visit skip repoRoot gi root reader) p name
                   (DirNode None dirs) sent).
Proof.
  split; [exact scanWalk_nil|].
  split.
  { intros fs numCPU root ignoreDirs reader res H.
    apply scan_results in H as [H1 H2]. split; [|exact H2].
    rewrite H1. apply scanWalk_nil. }
  split; [exact scan_returns|].
  split.
  { intros fs root ignoreDirs reader H. unfold scanWalk, walkWith.
    apply WalkDir_missing. exact H. }
  intros. apply walkDir_listErr.
Qed.

(** The claim C1 fails as stated: the root does not exist, or cannot be
    listed, and the scan returns no error. *)
Lemma C1_counterexample :
  ~ rootFailureSurfaces
  /\ fs_lookup fs_locked (filepath.mk true ["missing"]) = None
  /\ (exists res, ScanDir fs_locked 4 (filepath.mk true ["missing"]) [] res)
  /\ (forall res, ScanDir fs_locked 4 (filepath.mk true ["missing"]) [] res ->
                  res = ([], None))
  /\ fs_lookup fs_locked (filepath.mk true ["locked"])
     = Some (DirNode (Some ErrPermission) [])
  /\ (forall res, ScanDir fs_locked 4 (filepath.mk true ["locked"]) [] res ->
                  res = ([], None)).
Proof.
  assert (Hall : forall res,
             ScanDir fs_locked 4 (filepath.mk true ["missing"]) [] res ->
             res = ([], None)).
  { intros [ts e] H. apply scan_results in H as [H1 H2]. cbn [fst snd] in *.
    subst e. f_equal.
    change (ts ≡ₚ []) in H2. apply Permutation_nil_r in H2. exact H2. }
  split.
  { intros H.
    destruct (scan_returns fs_locked 4 (filepath.mk true ["missing"]) []
                           OSFileReader) as [res Hres].
    apply (H fs_locked 4 (filepath.mk true ["missing"]) [] OSFileReader res
             eq_refl Hres).
    rewrite (Hall res Hres). reflexivity. }
  split; [reflexivity|].
  split; [apply scan_returns|].
  split; [exact Hall|split; [reflexivity|]].
  intros [ts e] H. apply scan_results in H as [H1 H2]. cbn [fst snd] in *.
    subst e. f_equal.
    change (ts ≡ₚ []) in H2. apply Permutation_nil_r in H2. exact H2.
Qed.

(** ** Rules outside a repository *)

Lemma findRepoRoot_no_marker (fs : filesystem) (start : filepath.t) :
  noMarker fs start = true -> findRepoRoot fs start = start.
Proof.
  intros H. unfold noMarker, ancestors in H. unfold findRepoRoot.
  rewrite (findRepoRoot_loop_no_marker fs _ start start eq_refl H). reflexivity.
Qed.

(** C2, as the code has it. When no ancestor of the starting directory
    holds the repo marker, the resolver returns the starting directory and
    the scan loads the rule file of that directory: its rules are applied
    when the file is there, and no rule is applied when it is not. *)
Theorem C2_rules_of_the_starting_directory
        (fs : filesystem) (root : filepath.t)
        (ignoreDirs : list string) (reader : FileReader) :
  noMarker fs root = true ->
  findRepoRoot fs root = root
  /\ scanRules fs root = loadGitIgnore fs root
  /\ scanWalk fs root ignoreDirs reader
     = walkWith fs (buildSkip ignoreDirs) root (loadGitIgnore fs root) root reader
  /\ (forall e, os_Open fs (filepath.Join root ".gitignore") = inr e ->
                scanRules fs root = None)
  /\ (forall f, os_Open fs (filepath.Join root ".gitignore") = inl f ->
                scanRules fs root
                = Some (mkGitIgnore root (parseRules (fst (bufio.ScanLines f))))).
Proof.
  intros H. pose proof (findRepoRoot_no_marker fs root H) as E.
  split; [exact E|].
  unfold scanRules, scanWalk. rewrite E.
  split; [reflexivity|]. split; [reflexivity|].
  unfold loadGitIgnore. split; intros x Hx; rewrite Hx; reflexivity.
Qed.

Lemma C2_witness :
  noMarker fs_norepo (filepath.mk true ["proj"]) = true
  /\ scanRules fs_norepo (filepath.mk true ["proj"])
     = loadGitIgnore fs_norepo (filepath.mk true ["proj"]).
Proof.
  split; [reflexivity|].
  destruct (C2_rules_of_the_starting_directory
              fs_norepo (filepath.mk true ["proj"]) [] OSFileReader eq_refl)
    as (_ & H & _).
  exact H.
Defined.

(** The claim C2 fails as stated: no ancestor of [/proj] holds the marker,
    yet the rule of [/proj/.gitignore] is loaded and keeps [drop.tmp] out
    of the scan. *)
Lemma C2_counterexample :
  ~ noMarkerNoRules
  /\ noMarker fs_norepo (filepath.mk true ["proj"]) = true
  /\ scanRules fs_norepo (filepath.mk true ["proj"])
     = Some (mkGitIgnore (filepath.mk true ["proj"])
                         [gitIgnoreRule.mk "*.tmp" false false false false])
  /\ snd (scanWalk fs_norepo (filepath.mk true ["proj"]) [] OSFileReader)
     = [mkJob ".gitignore" "/proj/.gitignore"; mkJob "main.go" "/proj/main.go"]
  /\ snd (walkWith fs_norepo (buildSkip []) (filepath.mk true ["proj"]) None
                   (filepath.mk true ["proj"]) OSFileReader)
     = [mkJob ".gitignore" "/proj/.gitignore";
        mkJob "drop.tmp" "/proj/drop.tmp";
        mkJob "main.go" "/proj/main.go"].
Proof.
  split; [|repeat split; vm_compute; reflexivity].
  intros H.
  destruct (H fs_norepo (filepath.mk true ["proj"]) [] OSFileReader eq_refl)
    as [Hr _].
  vm_compute in Hr. discriminate.
Qed.

(** ** One file, all or nothing *)

Lemma scanLinesFrom_length (p : string) (n : nat) (lines : list string) :
  length (scanLinesFrom p n lines) = countMatching lines.
Proof.
  revert n. unfold countMatching.
  induction lines as [|l ls IH]; intros n; [reflexivity|].
  cbn [scanLinesFrom List.filter]. unfold matchLine.
  destruct (pattern_FindStringSubmatch l); cbn [length]; rewrite IH; reflexivity.
Qed.

Lemma workerAppends_cases (fs : filesystem) (reader : FileReader) (job : fileJob) :
  (snd (scanFileWithReader fs (open job) reader) <> None ->
   workerAppends fs reader job = [])
  /\ (snd (scanFileWithReader fs (open job) reader) = None ->
      workerAppends fs reader job
      = map (setFile (rel job)) (fst (scanFileWithReader fs (open job) reader))).
Proof.
  unfold workerAppends.
  destruct (scanFileWithReader fs (open job) reader) as [ts [e|]]; cbn [fst snd].
  - split; [reflexivity | discriminate].
  - split; [congruence|]. intros _. destruct ts; reflexivity.
Qed.

Lemma workerAppends_length (fs : filesystem) (reader : FileReader) (job : fileJob) :
  length (workerAppends fs reader job) = recordsOf fs reader job.
Proof.
  unfold workerAppends, recordsOf, scanFileWithReader.
  destruct (Open fs reader (open job)) as [f|e]; [|reflexivity].
  destruct (bufio.ScanLines f) as [lines [e|]]; [reflexivity|].
  rewrite <- (scanLinesFrom_length (open job) 0 lines).
  destruct (scanLinesFrom (open job) 0 lines); [reflexivity|].
  rewrite length_map. reflexivity.
Qed.

(** C9. A file's records are merged all or nothing. When opening or reading
    the file ends with an error the worker appends none of its records, also
    when lines before the error matched; when it ends without error the
    worker appends the record of every matching line, under the job's
    display path. A step of the pool leaves the collected records alone or
    appends the whole batch of one job. *)
Theorem C9_file_records_all_or_nothing :
  (forall fs reader job,
      snd (scanFileWithReader fs (open job) reader) <> None ->
      workerAppends fs reader job = [])
  /\ (forall fs reader job,
         snd (scanFileWithReader fs (open job) reader) = None ->
         workerAppends fs reader job
         = map (setFile (rel job))
               (fst (scanFileWithReader fs (open job) reader)))
  /\ (forall fs reader job f lines,
         Open fs reader (open job) = inl f ->
         bufio.ScanLines f = (lines, None) ->
         workerAppends fs reader job
         = map (setFile (rel job)) (scanLinesFrom (open job) 0 lines)
         /\ length (workerAppends fs reader job) = countMatching lines)
  /\ (forall fs reader st st',
         step fs reader st st' ->
         todos st' = todos st
         \/ exists job, todos st' = todos st ++ workerAppends fs reader job)
  /\ (fst (scanFileWithReader fs_plain "any.go" failingReader)
      = [mkTodo "any.go" 1 "TODO" "read me"]
      /\ snd (scanFileWithReader fs_plain "any.go" failingReader) = Some ErrIO
      /\ workerAppends fs_plain failingReader (mkJob "any.go" "any.go") = [])
  /\ (fst (scanFileWithReader fs_long "/site/bundle.js" OSFileReader)
      = [mkTodo "/site/bundle.js" 1 "TODO" "shorten the next line"]
      /\ snd (scanFileWithReader fs_long "/site/bundle.js" OSFileReader)
         = Some ErrTooLong
      /\ workerAppends fs_long OSFileReader (mkJob "bundle.js" "/site/bundle.js")
         = []).
Proof.
  split; [intros; now apply workerAppends_cases|].
  split; [intros; now apply workerAppends_cases|].
  split.
  { intros fs reader job f lines Ho Hs.
    pose proof (workerAppends_length fs reader job) as Hl.
    unfold recordsOf in Hl. rewrite Ho, Hs in Hl. split; [|exact Hl].
    unfold workerAppends, scanFileWithReader. rewrite Ho, Hs.
    destruct (scanLinesFrom (open job) 0 lines); reflexivity. }
  split.
  { intros fs reader st st' H. destruct H; cbn [todos]; eauto. }
  split; repeat split; vm_compute; reflexivity.
Qed.

(** ** The number of records *)

Lemma flat_map_length_sum {X Y : Type} (f : X -> list Y) (l : list X) :
  length (flat_map f l) = list_sum (map (fun x => length (f x)) l).
Proof.
  induction l as [|x l IH]; [reflexivity|].
  cbn [flat_map map]. rewrite length_app, IH. reflexivity.
Qed.

Lemma records_count (fs : filesystem) (reader : FileReader) (sent : list fileJob)
      (ts : list Todo) :
  ts ≡ₚ flat_map (workerAppends fs reader) sent ->
  length ts = list_sum (map (recordsOf fs reader) sent).
Proof.
  intros H. rewrite (Permutation_length H), flat_map_length_sum.
  f_equal. apply map_ext. intros job. apply workerAppends_length.
Qed.

Lemma scanAll_textLines (s : string) (fails : option error) :
  forall cur room,
    snd (bufio.scanAll cur room s fails) = None ->
    fst (bufio.scanAll cur room s fails) = textLines cur s.
Proof.
  induction s as [|c t IH]; intros cur room; [reflexivity|].
  cbn [bufio.scanAll textLines].
  destruct (Ascii.eqb c "010").
  - specialize (IH "" bufio.MaxScanTokenSize).
    destruct (bufio.scanAll "" bufio.MaxScanTokenSize t fails) as [ls e].
    cbn [fst snd] in *. intros He. rewrite (IH He). reflexivity.
  - destruct room as [|[|room]]; try discriminate. apply IH.
Qed.

Lemma recordsOf_readable (fs : filesystem) (reader : FileReader)
      (job : fileJob) (f : stream) :
  Open fs reader (open job) = inl f ->
  snd (bufio.ScanLines f) = None ->
  recordsOf fs reader job = countMatching (textLines "" (data f)).
Proof.
  intros Ho He. unfold recordsOf. rewrite Ho.
  pose proof (scanAll_textLines (data f) (fails f) "" bufio.MaxScanTokenSize He)
    as Hl.
  unfold bufio.ScanLines in *.
  destruct (bufio.scanAll "" bufio.MaxScanTokenSize (data f) (fails f))
    as [ls e]. cbn [fst snd] in *. subst e ls. reflexivity.
Qed.

(** C7, as the code has it. For every number of workers from one up, and so
    for the pool of a scan, every run returns, and it returns as many
    records as the files sent have matching lines among those that open and
    are read to the end without error (for such a file, the matching lines
    of its text); a file whose opening or reading fails adds none. The same
    count holds of every result of [ScanDirWithReader]. In every state a run reaches no record is lost: the
    records collected and those of the jobs still held, queued or to be sent
    are those of all jobs; the channel never holds more than its capacity,
    and when it is full the producer waits with its job; the channel is
    closed only when the walk has sent everything; and after the return all
    workers have left, the channel is empty and no step remains. *)
Theorem C7_records_of_readable_files
        (fs : filesystem) (reader : FileReader) (sent : list fileJob) (n : nat) :
  1 <= n ->
  (exists st, rtc (step fs reader) (startPool n sent) st /\ prod st = Returned)
  /\ (forall st,
         rtc (step fs reader) (startPool n sent) st ->
         (prod st = Returned ->
          length (todos st) = list_sum (map (recordsOf fs reader) sent)
          /\ Forall (fun w => w = Exited) (workers st)
          /\ jobs st = []
          /\ forall st', ~ step fs reader st st')
         /\ todos st ++ flat_map (workerAppends fs reader) (outstanding st)
            ≡ₚ flat_map (workerAppends fs reader) sent
         /\ length (jobs st) <= jobsCap
         /\ (closed st = true -> tosendOf (prod st) = [])
         /\ (prod st <> Returned -> exists st', step fs reader st st'))
  /\ (forall j tosend q c ws ts st',
         length q = jobsCap ->
         step fs reader (mkPool (Walking (j :: tosend)) q c ws ts) st' ->
         prod st' = Walking (j :: tosend))
  /\ (forall numCPU root ignoreDirs res,
         ScanDirWithReader fs numCPU root ignoreDirs reader res ->
         length (fst res)
         = list_sum (map (recordsOf fs reader)
                         (snd (scanWalk fs root ignoreDirs reader))))
  /\ (forall job f,
         Open fs reader (open job) = inl f ->
         snd (bufio.ScanLines f) = None ->
         recordsOf fs reader job = countMatching (textLines "" (data f))).
Proof.
  intros Hn. split; [|split; [|split; [|split]]].
  - apply (pool_returns_from fs reader n sent _ ltac:(lia) _ (le_n _)
                             (startPool_inv fs reader n sent)).
  - intros st Hrun.
    pose proof (reachable_inv_from fs reader n sent _ st
                  (startPool_inv fs reader n sent) Hrun) as Hinv.
    split; [|split; [|split; [|split]]].
    + intros Hret.
      destruct (returned_records fs reader n sent st ltac:(lia) Hinv Hret)
        as (Hp & Hj & _).
      split; [apply records_count; exact Hp|].
      split; [apply (inv_returned _ _ _ _ _ Hinv Hret)|].
      split; [exact Hj|].
      intros st'. apply (returned_final fs reader n sent st st' Hinv Hret).
    + apply (inv_records _ _ _ _ _ Hinv).
    + apply (inv_cap _ _ _ _ _ Hinv).
    + intros Hc. rewrite (inv_closed _ _ _ _ _ Hinv) in Hc.
      destruct (prod st); [discriminate | reflexivity | reflexivity].
    + intros Hnr. apply (pool_progress fs reader n sent st ltac:(lia) Hinv Hnr).
  - intros. eapply full_channel_blocks; eassumption.
  - intros numCPU root ignoreDirs res Hres.
    apply scan_results in Hres as [_ Hp]. apply records_count, Hp.
  - intros job f. apply recordsOf_readable.
Qed.

Lemma C7_witness :
  1 <= 1
  /\ exists st,
      rtc (step fs_long OSFileReader)
          (startPool 1 [mkJob "bundle.js" "/site/bundle.js"]) st
      /\ prod st = Returned.
Proof.
  split; [lia|].
  apply (C7_records_of_readable_files
           fs_long OSFileReader [mkJob "bundle.js" "/site/bundle.js"] 1).
  lia.
Defined.

(** The claim C7 fails as stated: the one file of [/site] has one matching
    line, and a second line too long for the scanner; reading it fails and
    the scan returns no record. *)
Lemma C7_counterexample :
  ~ allMatchingLinesReturned
  /\ snd (scanWalk fs_long (filepath.mk true ["site"]) [] OSFileReader)
     = [mkJob "bundle.js" "/site/bundle.js"]
  /\ matchingLinesOf fs_long (mkJob "bundle.js" "/site/bundle.js") = 1
  /\ recordsOf fs_long OSFileReader (mkJob "bundle.js" "/site/bundle.js") = 0
  /\ (exists res, ScanDir fs_long 2 (filepath.mk true ["site"]) [] res)
  /\ (forall res, ScanDir fs_long 2 (filepath.mk true ["site"]) [] res ->
                  res = ([], None)).
Proof.
  assert (Hall : forall res,
             ScanDir fs_long 2 (filepath.mk true ["site"]) [] res ->
             res = ([], None)).
  { intros [ts e] H. apply scan_results in H as [H1 H2]. cbn [fst snd] in *.
    assert (E : flat_map (workerAppends fs_long OSFileReader)
                  (snd (scanWalk fs_long (filepath.mk true ["site"]) []
                                 OSFileReader)) = [])
      by (vm_compute; reflexivity).
    rewrite E in H2. apply Permutation_nil_r in H2. subst ts.
    rewrite H1. reflexivity. }
  split; [|split; [vm_compute; reflexivity|];
           split; [vm_compute; reflexivity|];
           split; [vm_compute; reflexivity|];
           split; [apply scan_returns | exact Hall]].
  intros H.
  destruct (scan_returns fs_long 2 (filepath.mk true ["site"]) [] OSFileReader)
    as [res Hres].
  pose proof (H _ _ _ _ _ Hres) as Hlen.
  rewrite (Hall res Hres) in Hlen.
  vm_compute in Hlen. discriminate.
Qed.

(** ** White space around an ignore name *)

Ltac pick_member := repeat first [left; reflexivity | right].
Lemma space_rune_cases (r : Z) : unicode.IsSpace r = true -> In r spaceRunes.
Proof.
  unfold unicode.IsSpace. intros H.
  destruct (Z.leb_spec r 0xFF);
    rewrite ?orb_true_iff, ?andb_true_iff, ?Z.eqb_eq, ?Z.leb_le in H;
    unfold spaceRunes; simpl.
  - repeat (destruct H as [H|H]); subst r; pick_member.
  - repeat (destruct H as [H|H]); try (subst r; pick_member).
    destruct H as [Hlo Hhi].
    assert (Hc : (r = 8192 \/ r = 8193 \/ r = 8194 \/ r = 8195 \/ r = 8196
                  \/ r = 8197 \/ r = 8198 \/ r = 8199 \/ r = 8200 \/ r = 8201
                  \/ r = 8202)%Z) by lia.
    repeat (destruct Hc as [Hc|Hc]); subst r; pick_member.
Qed.

Lemma space_runes_are_spaces :
  List.Forall (fun r => unicode.IsSpace r = true) spaceRunes.
Proof. repeat constructor. Qed.

Lemma spaceString_runes (rs : list Z) :
  spaceString rs -> List.Forall (fun r => In r spaceRunes) rs.
Proof.
  unfold spaceString. rewrite !List.Forall_forall.
  intros H r Hr. apply space_rune_cases, H, Hr.
Qed.

(** Run [tac] once for each of the runes of [spaceRunes]. *)
Ltac each_space H tac :=
  unfold spaceRunes in H; simpl in H;
  repeat (destruct H as [H|H]; [subst; tac|]); try contradiction.

(** Bytes that do not continue a rune do not change how the text before them
    decodes. *)
Lemma decode_app_start (x r : string) :
  x <> "" -> startsCont r = false ->
  utf8.DecodeRuneInString (x ++ r) = utf8.DecodeRuneInString x.
Proof.
  intros Hx Hr.
  assert (Hout : forall lo hi, (0x80 <= lo)%Z -> (hi <= 0xBF)%Z ->
            match r with
            | EmptyString => True
            | String c _ => utf8.outside lo hi (byte_of c) = true
            end).
  { intros lo hi Hlo Hhi. destruct r as [|c r]; [exact I|].
    unfold startsCont, utf8.locb, utf8.hicb in Hr. unfold utf8.outside.
    apply andb_false_iff in Hr. apply orb_true_iff.
    destruct Hr as [Hr|Hr]; [left|right]; lia. }
  destruct x as [|c0 t0]; [congruence|]. clear Hx.
  cbn [String.append utf8.DecodeRuneInString].
  destruct (utf8.first (byte_of c0)) as [| |sz lo hi] eqn:Ef; try reflexivity.
  apply first_lead_range in Ef as (Hlo & Hhi & _ & _).
  destruct t0 as [|c1 t1]; cbn [String.append].
  { specialize (Hout lo hi Hlo Hhi). destruct r; [reflexivity|].
    rewrite Hout. reflexivity. }
  destruct (utf8.outside lo hi (byte_of c1)); [reflexivity|].
  destruct (Nat.leb sz 2); [reflexivity|].
  assert (Hcb := Hout utf8.locb utf8.hicb ltac:(unfold utf8.locb; lia)
                      ltac:(unfold utf8.hicb; lia)).
  destruct t1 as [|c2 t2]; cbn [String.append].
  { destruct r; [reflexivity|]. rewrite Hcb. reflexivity. }
  destruct (utf8.outside utf8.locb utf8.hicb (byte_of c2)); [reflexivity|].
  destruct (Nat.leb sz 3); [reflexivity|].
  destruct t2 as [|c3 t3]; cbn [String.append].
  { destruct r; [reflexivity|]. rewrite Hcb. reflexivity. }
  reflexivity.
Qed.

Lemma space_starts (r : Z) (x : string) :
  In r spaceRunes -> startsCont (utf8.EncodeRune r ++ x) = false.
Proof. intros H. each_space H ltac:(reflexivity). Qed.

Lemma spaces_start (rs : list Z) :
  List.Forall (fun r => In r spaceRunes) rs -> startsCont (encodeRunes rs) = false.
Proof.
  intros H. destruct H as [|r rs Hr _]; [reflexivity|].
  cbn [encodeRunes]. apply space_starts, Hr.
Qed.

Lemma sdrop_app_le (n : nat) (a b : string) :
  n <= String.length a -> sdrop n (a ++ b) = (sdrop n a ++ b)%string.
Proof.
  revert a. induction n as [|n IH]; intros a H; [reflexivity|].
  destruct a as [|c a]; simpl in *; [lia|]. apply IH. lia.
Qed.

Lemma stake_app_le (n : nat) (a b : string) :
  n <= String.length a -> stake n (a ++ b) = stake n a.
Proof.
  revert a. induction n as [|n IH]; intros a H; [reflexivity|].
  destruct a as [|c a]; simpl in *; [lia|]. rewrite IH by lia. reflexivity.
Qed.

Lemma sbyte_app (i : nat) (a b : string) :
  i < String.length a -> sbyte i (a ++ b) = sbyte i a.
Proof.
  intros H. unfold sbyte. rewrite sdrop_app_le by lia.
  destruct (sdrop i a) as [|c t] eqn:E; [|reflexivity].
  apply (f_equal String.length) in E. rewrite slength_sdrop in E.
  simpl in E. lia.
Qed.

(** *** The left side *)

Lemma indexFunc_from_shift (f : Z -> bool) (truth : bool) (n : nat) (s : string) :
  forall skip i,
    strings.indexFunc_from f truth skip (i + n) s
    = option_map (fun k => k + n) (strings.indexFunc_from f truth skip i s).
Proof.
  induction s as [|c t IH]; intros skip i; [reflexivity|].
  cbn [strings.indexFunc_from].
  destruct skip as [|k].
  - destruct (utf8.DecodeRuneInString (String c t)) as [r w].
    destruct (Bool.eqb (f r) truth); [reflexivity|].
    apply (IH _ (S i)).
  - apply (IH _ (S i)).
Qed.

Lemma indexFunc_from_bound (f : Z -> bool) (truth : bool) (s : string) :
  forall skip i k,
    strings.indexFunc_from f truth skip i s = Some k ->
    i <= k < i + String.length s.
Proof.
  induction s as [|c t IH]; intros skip i k; [discriminate|].
  cbn [strings.indexFunc_from String.length].
  destruct skip as [|sk].
  - destruct (utf8.DecodeRuneInString (String c t)) as [r w].
    destruct (Bool.eqb (f r) truth).
    + intros [= <-]. lia.
    + intros H. apply IH in H. lia.
  - intros H. apply IH in H. lia.
Qed.

Lemma indexFunc_space_prefix (r : Z) (x : string) (i : nat) :
  In r spaceRunes ->
  strings.indexFunc_from unicode.IsSpace false 0 i (utf8.EncodeRune r ++ x)
  = strings.indexFunc_from unicode.IsSpace false 0
      (String.length (utf8.EncodeRune r) + i) x.
Proof. intros H. each_space H ltac:(reflexivity). Qed.

Lemma indexFunc_spaces (rs : list Z) :
  List.Forall (fun r => In r spaceRunes) rs ->
  forall i, strings.indexFunc_from unicode.IsSpace false 0 i (encodeRunes rs) = None.
Proof.
  induction 1 as [|r rs Hr _ IH]; intros i; [reflexivity|].
  cbn [encodeRunes]. rewrite indexFunc_space_prefix by exact Hr. apply IH.
Qed.

Lemma TrimLeft_space_prefix (r : Z) (x : string) :
  In r spaceRunes ->
  strings.TrimLeftFunc (utf8.EncodeRune r ++ x) unicode.IsSpace
  = strings.TrimLeftFunc x unicode.IsSpace.
Proof.
  intros H. unfold strings.TrimLeftFunc, strings.indexFunc.
  rewrite indexFunc_space_prefix by exact H.
  rewrite (Nat.add_comm _ 0), indexFunc_from_shift.
  destruct (strings.indexFunc_from unicode.IsSpace false 0 0 x) as [k|];
    [|reflexivity].
  cbn [option_map]. rewrite Nat.add_comm, sdrop_add, sdrop_app_length.
  reflexivity.
Qed.

Lemma TrimLeft_spaces_prefix (rs : list Z) (x : string) :
  List.Forall (fun r => In r spaceRunes) rs ->
  strings.TrimLeftFunc (encodeRunes rs ++ x) unicode.IsSpace
  = strings.TrimLeftFunc x unicode.IsSpace.
Proof.
  induction 1 as [|r rs Hr _ IH]; [reflexivity|].
  cbn [encodeRunes]. rewrite sapp_assoc, TrimLeft_space_prefix by exact Hr.
  exact IH.
Qed.

Lemma indexFunc_from_app_some (f : Z -> bool) (d r : string) :
  startsCont r = false ->
  forall skip i k,
    strings.indexFunc_from f false skip i d = Some k ->
    strings.indexFunc_from f false skip i (d ++ r) = Some k.
Proof.
  intros Hr. induction d as [|c t IH]; intros skip i k; [discriminate|].
  cbn [String.append strings.indexFunc_from].
  destruct skip as [|sk]; [|apply IH].
  change (String c (t ++ r)) with (String c t ++ r)%string.
  rewrite decode_app_start by (congruence || exact Hr).
  destruct (utf8.DecodeRuneInString (String c t)) as [rn w].
  destruct (Bool.eqb (f rn) false); [trivial | apply IH].
Qed.

Lemma indexFunc_from_app_none (f : Z -> bool) (d r : string) :
  startsCont r = false ->
  forall skip i,
    skip <= String.length d ->
    strings.indexFunc_from f false skip i d = None ->
    strings.indexFunc_from f false skip i (d ++ r)
    = strings.indexFunc_from f false 0 (i + String.length d) r.
Proof.
  intros Hr. induction d as [|c t IH]; intros skip i Hs.
  - simpl in Hs. assert (skip = 0) as -> by lia. intros _.
    cbn [String.append String.length]. rewrite Nat.add_0_r. reflexivity.
  - cbn [String.append strings.indexFunc_from String.length] in *.
    replace (i + S (String.length t)) with (S i + String.length t) by lia.
    destruct skip as [|sk]; [|apply IH; lia].
    change (String c (t ++ r)) with (String c t ++ r)%string.
    rewrite decode_app_start by (congruence || exact Hr).
    pose proof (decode_width (String c t) ltac:(congruence)) as [_ Hw].
    destruct (utf8.DecodeRuneInString (String c t)) as [rn w].
    cbn [snd String.length] in Hw.
    destruct (Bool.eqb (f rn) false); [discriminate|].
    apply IH. lia.
Qed.

(** *** The right side *)

Lemma lastIndexFunc_space_suffix (r : Z) (ry : string) :
  In r spaceRunes ->
  strings.lastIndexFunc_rev unicode.IsSpace false 0 (srev (utf8.EncodeRune r) ++ ry)
  = strings.lastIndexFunc_rev unicode.IsSpace false 0 ry.
Proof. intros H. each_space H ltac:(reflexivity). Qed.

Lemma backToStart_pos (r : string) (k taken : nat) :
  1 <= taken -> 1 <= utf8.backToStart k r taken.
Proof.
  revert k taken. induction r as [|c r IH]; intros k taken H.
  - destruct k; simpl; lia.
  - destruct k as [|k]; simpl; [lia|].
    destruct (utf8.RuneStart (byte_of c)); [lia|]. apply IH. lia.
Qed.

Lemma decodeLast_width (r : string) :
  r <> "" -> 1 <= snd (utf8.DecodeLastRune_rev r).
Proof.
  destruct r as [|c r]; [congruence|]. intros _.
  unfold utf8.DecodeLastRune_rev.
  destruct (byte_of c <? utf8.RuneSelf)%Z; [simpl; lia|].
  pose proof (backToStart_pos r 3 1 ltac:(lia)) as Hb.
  destruct (utf8.DecodeRuneInString _) as [rn size].
  destruct (Nat.eqb_spec size (utf8.backToStart 3 r 1)); simpl; lia.
Qed.

Lemma lastIndexFunc_rev_bound (f : Z -> bool) (truth : bool) (r : string) :
  forall skip i,
    strings.lastIndexFunc_rev f truth skip r = Some i -> i < String.length r.
Proof.
  induction r as [|c t IH]; intros skip i; [discriminate|].
  cbn [strings.lastIndexFunc_rev].
  destruct skip as [|sk].
  - pose proof (decodeLast_width (String c t) ltac:(congruence)) as Hw.
    destruct (utf8.DecodeLastRune_rev (String c t)) as [rn size].
    cbn [snd] in Hw.
    destruct (Bool.eqb (f rn) truth).
    + intros [= <-]. cbn [String.length]. lia.
    + intros H. apply IH in H. cbn [String.length]. lia.
  - intros H. apply IH in H. cbn [String.length]. lia.
Qed.

Lemma TrimRight_space_suffix (y : string) (r : Z) :
  In r spaceRunes ->
  strings.TrimRightFunc (y ++ utf8.EncodeRune r) unicode.IsSpace
  = strings.TrimRightFunc y unicode.IsSpace.
Proof.
  intros H. unfold strings.TrimRightFunc, strings.lastIndexFunc.
  rewrite srev_app, lastIndexFunc_space_suffix by exact H.
  destruct (strings.lastIndexFunc_rev unicode.IsSpace false 0 (srev y))
    as [i|] eqn:E; [|reflexivity].
  apply lastIndexFunc_rev_bound in E. rewrite slength_srev in E.
  rewrite sbyte_app by exact E.
  rewrite sdrop_app_le by lia.
  assert (Hne : sdrop i y <> "").
  { intros Hs. apply (f_equal String.length) in Hs.
    rewrite slength_sdrop in Hs. simpl in Hs. lia. }
  rewrite decode_app_start
    by (try exact Hne; rewrite <- (sapp_nil_r (utf8.EncodeRune r));
        apply space_starts, H).
  pose proof (decode_width (sdrop i y) Hne) as [_ Hw].
  rewrite slength_sdrop in Hw.
  destruct (utf8.DecodeRuneInString (sdrop i y)) as [rn wid]. cbn [snd] in Hw.
  rewrite !stake_app_le by lia. reflexivity.
Qed.

Lemma TrimRight_spaces_suffix (rs : list Z) :
  List.Forall (fun r => In r spaceRunes) rs ->
  forall y,
    strings.TrimRightFunc (y ++ encodeRunes rs) unicode.IsSpace
    = strings.TrimRightFunc y unicode.IsSpace.
Proof.
  induction 1 as [|r rs Hr _ IH]; intros y.
  - cbn [encodeRunes]. rewrite sapp_nil_r. reflexivity.
  - cbn [encodeRunes]. rewrite <- sapp_assoc, IH.
    apply TrimRight_space_suffix, Hr.
Qed.

(** *** Both sides *)

Lemma TrimSpace_surrounded (lr rr : list Z) (d : string) :
  spaceString lr -> spaceString rr ->
  strings.TrimSpace (encodeRunes lr ++ d ++ encodeRunes rr) = strings.TrimSpace d.
Proof.
  intros Hl Hr. apply spaceString_runes in Hl, Hr.
  unfold strings.TrimSpace, strings.TrimFunc.
  rewrite TrimLeft_spaces_prefix by exact Hl.
  pose proof (spaces_start rr Hr) as Hst.
  unfold strings.TrimLeftFunc, strings.indexFunc.
  destruct (strings.indexFunc_from unicode.IsSpace false 0 0 d) as [k|] eqn:E.
  - rewrite (indexFunc_from_app_some _ _ _ Hst _ _ _ E).
    apply indexFunc_from_bound in E.
    rewrite sdrop_app_le by lia.
    apply TrimRight_spaces_suffix, Hr.
  - rewrite (indexFunc_from_app_none _ d _ Hst 0 0 (Nat.le_0_l _) E).
    rewrite indexFunc_spaces by exact Hr. reflexivity.
Qed.

(** ** The ignore set *)

Lemma skipLookup_insert (skip : gmap string bool) (k name : string) :
  skipLookup (<[k := true]> skip) name
  = String.eqb k name || skipLookup skip name.
Proof.
  unfold skipLookup. destruct (String.eqb_spec k name) as [->|Hne].
  - rewrite lookup_insert_eq. reflexivity.
  - rewrite lookup_insert_ne by exact Hne. reflexivity.
Qed.

Lemma skip_fold_lookup (l : list string) (name : string) :
  forall skip : gmap string bool,
    skipLookup
      (fold_left (fun skip d => <[strings.TrimSpace d := true]> skip) l skip) name
    = existsb (fun d => String.eqb (strings.TrimSpace d) name) l
      || skipLookup skip name.
Proof.
  induction l as [|d l IH]; intros skip; [reflexivity|].
  cbn [fold_left existsb]. rewrite IH, skipLookup_insert.
  rewrite orb_assoc, (orb_comm (existsb _ l)). reflexivity.
Qed.

Lemma buildSkip_member (ignoreDirs : list string) (name : string) :
  skipLookup (buildSkip ignoreDirs) name = true
  <-> exists d, In d ignoreDirs /\ strings.TrimSpace d = name.
Proof.
  unfold buildSkip. rewrite skip_fold_lookup.
  change (skipLookup ∅ name) with false. rewrite orb_false_r.
  rewrite existsb_exists. split; intros (d & Hd & He); exists d; split;
    try exact Hd; apply String.eqb_eq; exact He.
Qed.

Lemma skip_fold_trimmed (a : list string) :
  forall skip : gmap string bool,
    fold_left (fun skip d => <[strings.TrimSpace d := true]> skip) a skip
    = fold_left (fun skip k => <[k := true]> skip) (map strings.TrimSpace a) skip.
Proof.
  induction a as [|d a IH]; intros skip; [reflexivity|]. cbn [fold_left map].
  apply IH.
Qed.

Lemma buildSkip_trimmed (a b : list string) :
  map strings.TrimSpace a = map strings.TrimSpace b -> buildSkip a = buildSkip b.
Proof.
  intros H. unfold buildSkip. rewrite !skip_fold_trimmed, H. reflexivity.
Qed.

Lemma scanWalk_trimmed (fs : filesystem) (root : filepath.t)
      (a b : list string) (reader : FileReader) :
  map strings.TrimSpace a = map strings.TrimSpace b ->
  scanWalk fs root a reader = scanWalk fs root b reader.
Proof.
  intros H. unfold scanWalk. rewrite (buildSkip_trimmed a b H). reflexivity.
Qed.

Lemma visit_skips_named (ignoreDirs : list string) (repoRoot root path : filepath.t)
      (gi : option gitIgnore) (reader : FileReader) (d : DirEntry)
      (sent : list fileJob) :
  IsDir d = true ->
  (exists e, In e ignoreDirs /\ strings.TrimSpace e = Name d) ->
  visit (buildSkip ignoreDirs) repoRoot gi root reader path (Some d) None sent
  = (Some SkipDir, sent).
Proof.
  intros Hd He. apply buildSkip_member in He. unfold visit.
  rewrite Hd, He. destruct (String.eqb (Name d) ".git"); reflexivity.
Qed.

(** C10. Each name of the ignore list enters the set through
    [strings.TrimSpace]: a directory name is in the set exactly when it is the
    trimmed form of a listed name. White space (any runes of
    [unicode.IsSpace], encoded) put before and after a name does not change
    its trimmed form, so two lists whose names differ only in that way give
    the same set, the same walk and the same results of the scan, and the
    walk skips every directory whose name is the trimmed form of a listed
    name. The entry [" vendor "] stands for the name [vendor] and no
    other. *)
Theorem C10_ignore_names_are_trimmed :
  (forall ignoreDirs name,
      skipLookup (buildSkip ignoreDirs) name = true
      <-> exists d, In d ignoreDirs /\ strings.TrimSpace d = name)
  /\ (forall lr rr d,
         spaceString lr -> spaceString rr ->
         strings.TrimSpace (encodeRunes lr ++ d ++ encodeRunes rr)
         = strings.TrimSpace d)
  /\ (forall a b,
         map strings.TrimSpace a = map strings.TrimSpace b ->
         buildSkip a = buildSkip b
         /\ forall fs root reader,
             scanWalk fs root a reader = scanWalk fs root b reader
             /\ forall numCPU res,
                 ScanDirWithReader fs numCPU root a reader res
                 <-> ScanDirWithReader fs numCPU root b reader res)
  /\ (forall fs root reader pre post lr rr d,
         spaceString lr -> spaceString rr ->
         scanWalk fs root
                  (pre ++ (encodeRunes lr ++ d ++ encodeRunes rr)%string :: post)
                  reader
         = scanWalk fs root (pre ++ d :: post) reader)
  /\ (forall ignoreDirs repoRoot root path gi reader d sent,
         IsDir d = true ->
         (exists e, In e ignoreDirs /\ strings.TrimSpace e = Name d) ->
         visit (buildSkip ignoreDirs) repoRoot gi root reader path (Some d) None sent
         = (Some SkipDir, sent))
  /\ strings.TrimSpace " vendor " = "vendor"
  /\ (forall name,
         skipLookup (buildSkip [" vendor "]) name = true <-> name = "vendor").
Proof.
  split; [exact buildSkip_member|].
  split; [exact TrimSpace_surrounded|].
  split.
  { intros a b H. split; [exact (buildSkip_trimmed a b H)|].
    intros fs root reader. split; [exact (scanWalk_trimmed fs root a b reader H)|].
    intros numCPU res. unfold ScanDirWithReader.
    rewrite (scanWalk_trimmed fs root a b reader H). reflexivity. }
  split.
  { intros fs root reader pre post lr rr d Hl Hr. apply scanWalk_trimmed.
    rewrite !map_app. cbn [map].
    rewrite (TrimSpace_surrounded lr rr d Hl Hr). reflexivity. }
  split; [exact visit_skips_named|].
  split; [vm_compute; reflexivity|].
  intros name. rewrite buildSkip_member. split.
  - intros (d & [<-|[]] & <-). vm_compute. reflexivity.
  - intros ->. exists " vendor ". split; [left; reflexivity|].
    vm_compute. reflexivity.
Qed.
